(** * The command engine of smsquest/combined.py

    A shallow embedding of the command-parsing core of the text adventure:
    the hierarchical context model ([set_context], [_validate_context],
    [_match_context]), the pattern compiler and matcher (class [Pattern]),
    the registry ([_register], [commands]) and the dispatcher
    ([dispatch_command]); and, around it, the console path
    ([_handle_command]), the items and bags ([AdvItem], [Bag]), the table of
    directions ([AdvRoom.add_direction]), the description and the aliases
    of rooms ([Room.get_description], [get_room_aliases]) and the keypad
    handler ([using_safe]).

    Python [str] values are rendered as [string]; the character classes of
    [str.isalpha], [str.isupper], [str.islower], [str.lower] and
    [str.split] are the ones Python gives on the ASCII range, which is the
    range this development covers.  Where a property turns on the
    characters beyond that range, it is stated for texts of ASCII
    characters ([ascii_text]), or, for the compilation of templates, on
    strings of code points with the character database of the interpreter
    as a parameter ([Unicode]).  Python dictionaries whose iteration
    order is not observed are [gmap]s; exceptions are values of [exn]
    returned through [result]. *)

From Stdlib Require Import ZArith Ascii String.
From stdpp Require Import base list strings gmap sorting.

(** ** Python string primitives (ASCII range) *)

Module Py.

Definition code (c : ascii) : N := N_of_ascii c.

Definition is_upper_char (c : ascii) : bool :=
  ((65 <=? code c) && (code c <=? 90))%N.

Definition is_lower_char (c : ascii) : bool :=
  ((97 <=? code c) && (code c <=? 122))%N.

Definition is_alpha_char (c : ascii) : bool :=
  is_upper_char c || is_lower_char c.

(** Characters on which [str.isspace] holds: tab, line feed, vertical tab,
    form feed, carriage return, the four separators 0x1c-0x1f and space. *)
Definition is_space_char (c : ascii) : bool :=
  (((9 <=? code c) && (code c <=? 13))
   || ((28 <=? code c) && (code c <=? 31))
   || (code c =? 32))%N.

Definition lower_char (c : ascii) : ascii :=
  if is_upper_char c then ascii_of_N (code c + 32) else c.

Fixpoint chars (s : string) : list ascii :=
  match s with
  | EmptyString => []
  | String c s' => c :: chars s'
  end.

Fixpoint forall_chars (f : ascii -> bool) (s : string) : bool :=
  match s with
  | EmptyString => true
  | String c s' => f c && forall_chars f s'
  end.

Fixpoint exists_chars (f : ascii -> bool) (s : string) : bool :=
  match s with
  | EmptyString => false
  | String c s' => f c || exists_chars f s'
  end.

(** [bool(s)]: a string is truthy when it is not empty. *)
Definition truthy (s : string) : bool :=
  match s with EmptyString => false | String _ _ => true end.

(** [s.isalpha()]: at least one character and every character a letter. *)
Definition isalpha (s : string) : bool :=
  truthy s && forall_chars is_alpha_char s.

(** [s.isupper()]: at least one cased character and no lowercase one. *)
Definition isupper (s : string) : bool :=
  exists_chars is_upper_char s && negb (exists_chars is_lower_char s).

(** [s.islower()]: at least one cased character and no uppercase one. *)
Definition islower (s : string) : bool :=
  exists_chars is_lower_char s && negb (exists_chars is_upper_char s).

Fixpoint lower (s : string) : string :=
  match s with
  | EmptyString => EmptyString
  | String c s' => String (lower_char c) (lower s')
  end.

(** [s.startswith(p)] *)
Fixpoint startswith (s p : string) {struct p} : bool :=
  match p, s with
  | EmptyString, _ => true
  | String _ _, EmptyString => false
  | String b p', String a s' => bool_decide (a = b) && startswith s' p'
  end.

(** [p in s] for strings: some suffix of [s] starts with [p]. *)
Fixpoint contains (s p : string) : bool :=
  startswith s p ||
  match s with
  | EmptyString => false
  | String _ s' => contains s' p
  end.

(** [s.endswith(p)]: the suffix of [s] of the length of [p] is [p]. *)
Definition endswith (s p : string) : bool :=
  Nat.leb (String.length p) (String.length s) &&
  bool_decide
    (substring (String.length s - String.length p) (String.length p) s = p).

(** The slice [s[lo:hi]] for non-negative bounds; out-of-range bounds are
    clipped, as Python does. *)
Definition slice (s : string) (lo hi : nat) : string :=
  substring lo (hi - lo) s.

(** [s * n] *)
Fixpoint repeat_str (s : string) (n : nat) : string :=
  match n with
  | O => EmptyString
  | S n' => s +:+ repeat_str s n'
  end.

(** [sep.join(l)] *)
Fixpoint join (sep : string) (l : list string) : string :=
  match l with
  | [] => EmptyString
  | [x] => x
  | x :: l' => x +:+ sep +:+ join sep l'
  end.

(** [s.split()]: maximal runs of non-whitespace characters, in order.
    [cur] holds the characters of the run being read. *)
Fixpoint split_from (cur : string) (s : string) : list string :=
  match s with
  | EmptyString => if truthy cur then [cur] else []
  | String c s' =>
      if is_space_char c
      then (if truthy cur then cur :: split_from EmptyString s'
            else split_from EmptyString s')
      else split_from (cur +:+ String c EmptyString) s'
  end.

Definition split (s : string) : list string := split_from EmptyString s.

(** [s.split(c)] for a one-character separator: every occurrence of the
    separator ends a field, empty fields are kept. *)
Fixpoint split_on_from (sep : ascii) (cur : string) (s : string) : list string :=
  match s with
  | EmptyString => [cur]
  | String c s' =>
      if bool_decide (c = sep)
      then cur :: split_on_from sep EmptyString s'
      else split_on_from sep (cur +:+ String c EmptyString) s'
  end.

Definition split_on (sep : ascii) (s : string) : list string :=
  split_on_from sep EmptyString s.

(** [s.count(c)] for a one-character [c]. *)
Fixpoint count_char (c : ascii) (s : string) : nat :=
  match s with
  | EmptyString => 0
  | String a s' => (if bool_decide (a = c) then 1 else 0) + count_char c s'
  end.

Definition backslash : ascii := ascii_of_N 92.
Definition squote : ascii := ascii_of_N 39.
Definition dquote : ascii := ascii_of_N 34.

Definition hex_digit (n : N) : ascii :=
  if (n <? 10)%N then ascii_of_N (48 + n) else ascii_of_N (87 + n).

Definition escaped (c : ascii) : string :=
  String backslash (String c EmptyString).

(** One character of [repr(s)] for the quote character [q] in use. *)
Definition repr_char (q c : ascii) : string :=
  if bool_decide (c = q) || bool_decide (c = backslash) then escaped c
  else if (code c =? 9)%N then escaped "t"
  else if (code c =? 10)%N then escaped "n"
  else if (code c =? 13)%N then escaped "r"
  else if ((code c <? 32) || (126 <? code c))%N
  then String backslash
         (String "x"
            (String (hex_digit (code c / 16))
               (String (hex_digit (code c mod 16)) EmptyString)))
  else String c EmptyString.

Fixpoint repr_body (q : ascii) (s : string) : string :=
  match s with
  | EmptyString => EmptyString
  | String c s' => repr_char q c +:+ repr_body q s'
  end.

(** [repr(s)]: single quotes, unless the string has a single quote and no
    double quote; the quote in use and the backslash are escaped. *)
Definition repr (s : string) : string :=
  let q := if exists_chars (fun c => bool_decide (c = squote)) s
              && negb (exists_chars (fun c => bool_decide (c = dquote)) s)
           then dquote else squote in
  String q (repr_body q s) +:+ String q EmptyString.

End Py.

(** ** Exceptions and results *)

(** The exceptions the engine raises or meets.  [OtherException] stands for
    any other subclass of [Exception] a handler may raise; [SystemExit] is
    what [sys.exit] raises and [KeyboardInterrupt] an interrupt: both derive
    from [BaseException] only. *)
Inductive exn : Type :=
| ValueError (msg : string)
| InvalidCommand (msg : string)
| OtherException (msg : string)
| SystemExit
| KeyboardInterrupt.

(** [isinstance(e, Exception)] *)
Definition is_Exception (e : exn) : bool :=
  match e with
  | ValueError _ | InvalidCommand _ | OtherException _ => true
  | SystemExit | KeyboardInterrupt => false
  end.

(** [str(e)] *)
Definition str_exn (e : exn) : string :=
  match e with
  | ValueError msg | InvalidCommand msg | OtherException msg => msg
  | SystemExit | KeyboardInterrupt => EmptyString
  end.

Inductive result (A : Type) : Type :=
| Ok (a : A)
| Raise (e : exn).

Arguments Ok {A} a.
Arguments Raise {A} e.

Definition nl : string := String (ascii_of_N 10) EmptyString.

(** ** The context model *)

Definition CONTEXT_SEP : string := ".".

(** The list [err] that [_validate_context] builds for a string, each
    phrase with [{sep}] already replaced by the separator, as the final
    [msg.format(sep=CONTEXT_SEP, ...)] does. *)
Definition context_errors (context : string) : list string :=
  (if negb (Py.truthy context) then ["be empty"] else [])
  ++ (if Py.startswith context CONTEXT_SEP
      then ["start with " +:+ CONTEXT_SEP] else [])
  ++ (if Py.endswith context CONTEXT_SEP
      then ["end with " +:+ CONTEXT_SEP] else [])
  ++ (if Py.contains context (Py.repeat_str CONTEXT_SEP 2)
      then ["contain " +:+ CONTEXT_SEP +:+ CONTEXT_SEP] else []).

(** [err[:-1]] and [err[-1]] *)
Definition but_last (l : list string) : list string := take (length l - 1) l.
Definition last_item (l : list string) : string := default EmptyString (last l).

Definition context_message (context : string) (err : list string) : string :=
  "Context " +:+ Py.repr context +:+ " may not "
  +:+ (if Nat.ltb 1 (length err)
       then Py.join " or " [Py.join ", " (but_last err); last_item err]
       else default EmptyString (head err)).

Definition _validate_context (context : option string) : result unit :=
  match context with
  | None => Ok tt
  | Some c =>
      let err := context_errors c in
      if bool_decide (err = []) then Ok tt
      else Raise (ValueError (context_message c err))
  end.

Definition _match_context (context active_context : option string) : bool :=
  match context with
  | None => true
  | Some c =>
      match active_context with
      | None => false
      | Some a =>
          let clen := String.length c in
          Py.startswith a c
          && existsb (String.eqb (Py.slice a clen (clen + String.length CONTEXT_SEP)))
               [EmptyString; CONTEXT_SEP]
      end
  end.

(** The process-wide state a handler can read and change: the active
    context and the world model, whose type [W] the engine never looks
    into.  The registry is kept apart: commands are registered while the
    module loads, and no handler adds or removes one. *)
Record game (W : Type) : Type := Game {
  current_context : option string;
  world : W
}.

Arguments Game {W} _ _.
Arguments current_context {W} _.
Arguments world {W} _.

Definition set_context {W} (new_context : option string) (g : game W)
  : result unit * game W :=
  match _validate_context new_context with
  | Raise e => (Raise e, g)
  | Ok _ => (Ok tt, Game new_context (world g))
  end.

Definition get_context {W} (g : game W) : option string := current_context g.

(** ** Patterns *)

Module Pattern.

(** An element of the list [match] of [__init__]: a literal word or a
    [Placeholder] object. *)
Inductive token : Type :=
| Lit (w : string)
| Placeholder (name : string).

Record t : Type := Make {
  orig_pattern : string;
  pattern_context : option string;
  placeholders : nat;
  argnames : list string;
  prefix : list string;
  pattern : list token;
  fixed : Z
}.

Definition is_placeholder (k : token) : bool :=
  match k with Placeholder _ => true | Lit _ => false end.

(** The loop [for w in words] of [__init__], carrying [match], [argnames]
    and [self.placeholders]. *)
Fixpoint compile_words (orig : string) (words : list string)
    (match_ : list token) (argnames : list string) (placeholders : nat)
  : result (list token * list string * nat) :=
  match words with
  | [] => Ok (match_, argnames, placeholders)
  | w :: words' =>
      if negb (Py.isalpha w) then
        Raise (InvalidCommand ("Invalid command " +:+ Py.repr orig
                               +:+ "Commands may consist of letters only."))
      else if Py.isupper w then
        let arg := Py.lower w in
        if bool_decide (arg ∈ argnames) then
          Raise (InvalidCommand ("Invalid command " +:+ Py.repr orig
                                 +:+ " Identifiers may only be used once"))
        else compile_words orig words' (match_ ++ [Placeholder arg])
               (argnames ++ [arg]) (S placeholders)
      else if Py.islower w then
        compile_words orig words' (match_ ++ [Lit w]) argnames placeholders
      else
        Raise (InvalidCommand
                 ("Invalid command " +:+ Py.repr orig +:+ nl +:+ nl
                  +:+ "Words in commands must either be in lowercase or "
                  +:+ "capitals, not a mix."))
  end.

(** The loop that fills [self.prefix]: the literal words before the first
    placeholder. *)
Fixpoint leading_literals (match_ : list token) : list string :=
  match match_ with
  | Lit w :: match_' => w :: leading_literals match_'
  | _ => []
  end.

Definition __init__ (pattern : string) (context : option string) : result t :=
  match _validate_context context with
  | Raise e => Raise e
  | Ok _ =>
      match compile_words pattern (Py.split pattern) [] [] 0 with
      | Raise e => Raise e
      | Ok (match_, argnames, placeholders) =>
          let prefix := leading_literals match_ in
          let pat := drop (length prefix) match_ in
          Ok (Make pattern context placeholders argnames prefix pat
                (Z.of_nat (length pat) - Z.of_nat placeholders))
      end
  end.

(** The values [have - other_groups, ..., 2, 1] that [take] runs through in
    the [while take > 0] loop, given the first one. *)
Fixpoint countdown (n : nat) : list Z :=
  match n with
  | O => []
  | S n' => Z.of_nat n :: countdown n'
  end.

(** The tuples that the generator [word_combinations] yields, in order.
    The source recurses on [placeholders - 1]; with [placeholders = 0] and
    [have > 0] that recursion has no base case (Python ends it with a
    RecursionError), a call that [match] never makes: the list is empty
    there. *)
Fixpoint word_combinations (have : Z) (placeholders : nat) : list (list Z) :=
  if (have <? Z.of_nat placeholders)%Z then []
  else if (have =? Z.of_nat placeholders)%Z then [repeat 1%Z placeholders]
  else
    match placeholders with
    | O => []
    | S other_groups =>
        if Nat.eqb placeholders 1 then [[have]]
        else
          flat_map
            (fun take_ =>
               let remain := (have - take_)%Z in
               if (Z.of_nat placeholders - 1 <=? have)%Z
               then map (cons take_) (word_combinations remain other_groups)
               else [])
            (countdown (Z.to_nat (have - Z.of_nat other_groups)))
    end.

Definition is_active (self : t) (current_context : option string) : bool :=
  _match_context (pattern_context self) current_context.

Definition ctx_order (self : t) : nat :=
  match pattern_context self with
  | None => 0
  | Some c =>
      if negb (Py.truthy c) then 0
      else Py.count_char "." c + 1
  end.

(** One pass of the loop [for cword in self.pattern] for one [combo]:
    [take_] and [inp] are what the iterators [take] and [inp] still hold,
    [matches] the captures so far.  [None] is a pass given up, by [break]
    on a literal that differs or by StopIteration; [Some] is the [else]
    branch of the loop. *)
Fixpoint walk (pat : list token) (take_ : list Z) (inp : list string)
    (matches : gmap string (list string)) : option (gmap string (list string)) :=
  match pat with
  | [] => Some matches
  | Placeholder name :: pat' =>
      match take_ with
      | [] => None
      | count :: take_' =>
          let n := Z.to_nat count in
          if Nat.ltb (length inp) n then None
          else walk pat' take_' (drop n inp) (<[name := take n inp]> matches)
      end
  | Lit cword :: pat' =>
      match inp with
      | [] => None
      | word :: inp' =>
          if bool_decide (cword ≠ word) then None
          else walk pat' take_ inp' matches
      end
  end.

(** The loop [for combo in self.word_combinations(...)]: the first combo
    whose pass completes decides the result. *)
Fixpoint first_match (pat : list token) (combos : list (list Z))
    (inp : list string) : option (gmap string string) :=
  match combos with
  | [] => None
  | combo :: combos' =>
      match walk pat combo inp ∅ with
      | Some matches => Some (Py.join " " <$> matches)
      | None => first_match pat combos' inp
      end
  end.

(** [Pattern.match]; Python's [None] is [None], a dictionary is [Some]. *)
Definition match_ (self : t) (input_words : list string)
  : option (gmap string string) :=
  if Nat.ltb (length input_words) (length (argnames self)) then None
  else if bool_decide (take (length (prefix self)) input_words ≠ prefix self)
  then None
  else
    let input_words := drop (length (prefix self)) input_words in
    if bool_decide (input_words = []) && bool_decide (pattern self = [])
    then Some ∅
    else if negb (Bool.eqb (negb (bool_decide (input_words = [])))
                           (negb (bool_decide (pattern self = []))))
    then None
    else
      let have := (Z.of_nat (length input_words) - fixed self)%Z in
      first_match (pattern self)
        (word_combinations have (placeholders self)) input_words.

End Pattern.

(** ** Registry and dispatcher *)

(** The Python values that cross the engine: captured strings, bound extra
    arguments and handler results. *)
Inductive pyval : Type :=
| PyNone
| PyStr (s : string)
| PyInt (z : Z).

Section Engine.

Context {W : Type}.

(** A handler as the engine sees it: [h_name] is [func.__name__],
    [h_signature] is [str(inspect.signature(func))], [h_params] the names
    in [sig.parameters], and [h_call args g] is the call of [func] with the
    keyword arguments [args] in game state [g]: what it returns or raises,
    and the state it leaves. *)
Record handler : Type := Handler {
  h_name : string;
  h_signature : string;
  h_params : list string;
  h_call : gmap string pyval -> game W -> result pyval * game W
}.

(** An entry of [commands]: (pattern, func, kwargs); [kwargs] keeps the
    order in which the keywords were given. *)
Definition command : Type := Pattern.t * handler * list (string * pyval).

Definition cmd_pattern (c : command) : Pattern.t := c.1.1.
Definition cmd_func (c : command) : handler := c.1.2.
Definition cmd_kwargs (c : command) : list (string * pyval) := c.2.

Definition register_message (command_ : string) (func : handler)
    (pattern : Pattern.t) (kwargs : list (string * pyval)) : string :=
  "The function " +:+ h_name func +:+ h_signature func
  +:+ " has the wrong signature for @when(" +:+ Py.repr command_ +:+ ")"
  +:+ nl +:+ nl +:+ "The function arguments should be ("
  +:+ Py.join ", " (Pattern.argnames pattern ++ kwargs.*1) +:+ ")".

Definition _register (command_ : string) (func : handler)
    (context : option string) (kwargs : list (string * pyval))
    (commands : list command) : result unit * list command :=
  match Pattern.__init__ command_ context with
  | Raise e => (Raise e, commands)
  | Ok pattern =>
      let func_argnames : gset string := list_to_set (h_params func) in
      let when_argnames : gset string :=
        list_to_set (Pattern.argnames pattern) ∪ list_to_set (kwargs.*1) in
      if bool_decide (func_argnames ≠ when_argnames)
      then (Raise (InvalidCommand (register_message command_ func pattern kwargs)),
            commands)
      else (Ok tt, commands ++ [(pattern, func, kwargs)])
  end.

(** [list.sort(key=..., reverse=True)] is stable: entries with equal keys
    keep their order.  The sorted list is built by inserting each entry,
    from the last one to the first, in front of the first entry whose key
    is not greater. *)
Fixpoint insert_desc (key : command -> nat) (x : command) (l : list command)
  : list command :=
  match l with
  | [] => [x]
  | y :: l' =>
      if Nat.ltb (key x) (key y) then y :: insert_desc key x l'
      else x :: y :: l'
  end.

Definition sort_desc (key : command -> nat) (l : list command) : list command :=
  foldr (insert_desc key) [] l.

(** The list [available_commands] of [dispatch_command]. *)
Definition available_commands (commands : list command)
    (current : option string) : list command :=
  sort_desc (fun c => Pattern.ctx_order (cmd_pattern c))
    (List.filter (fun c => Pattern.is_active (cmd_pattern c) current) commands).

(** [args = kwargs.copy(); args.update(matches)] *)
Definition call_args (kwargs : list (string * pyval))
    (matches : gmap string string) : gmap string pyval :=
  (PyStr <$> matches) ∪ list_to_map kwargs.

(** The [try] block around the call of the handler. *)
Definition invoke (func : handler) (args : gmap string pyval) (g : game W)
  : result pyval * game W :=
  match h_call func args g with
  | (Ok r, g') =>
      (Ok (match r with PyNone => PyStr "OK" | _ => r end), g')
  | (Raise e, g') =>
      if is_Exception e then (Ok (PyStr ("Error: " +:+ str_exn e)), g')
      else (Raise e, g')
  end.

(** The loop [for pattern, func, kwargs in available_commands]. *)
Fixpoint try_commands (cmds : list command) (ws : list string) (g : game W)
  : result pyval * game W :=
  match cmds with
  | [] => (Ok PyNone, g)
  | c :: cmds' =>
      match Pattern.match_ (cmd_pattern c) ws with
      | Some matches => invoke (cmd_func c) (call_args (cmd_kwargs c) matches) g
      | None => try_commands cmds' ws g
      end
  end.

Definition dispatch_command (commands : list command) (cmd : string)
    (g : game W) : result pyval * game W :=
  let ws := Py.split (Py.lower cmd) in
  try_commands (available_commands commands (current_context g)) ws g.

(** [sys.exit], the handler of the built-in [quit]: without arguments it
    raises SystemExit; it takes no keyword argument. *)
Definition sys_exit : handler :=
  Handler "exit" "(status=None, /)" ["status"]
    (fun args g =>
       if bool_decide (args = ∅) then (Raise SystemExit, g)
       else (Raise (OtherException "exit() takes no keyword arguments"), g)).

End Engine.

Arguments handler W : clear implicits.
Arguments command W : clear implicits.

(** [Pattern('quit')], as the module evaluates it when it is loaded. *)
Definition quit_pattern : Pattern.t :=
  Pattern.Make "quit" None 0 [] ["quit"] [] 0.

(** The initial value of [commands]. *)
Definition commands {W} : list (command W) := [(quit_pattern, sys_exit, [])].

(** * Vocabulary of the properties *)

(** The condition of the specification: [active] equals [context], or
    starts with [context] immediately followed by the separator. *)
Definition equal_or_nested (c a : string) : Prop :=
  a = c ∨ ∃ rest, a = c +:+ CONTEXT_SEP +:+ rest.

Definition within (context active_context : option string) : Prop :=
  (context = None ∧ active_context = None)
  ∨ context = None
  ∨ ∃ c a, context = Some c ∧ active_context = Some a ∧ equal_or_nested c a.

(** The four ways in which a context string is malformed. *)
Definition is_empty (s : string) : Prop := s = "".
Definition starts_with_sep (s : string) : Prop := ∃ r, s = CONTEXT_SEP +:+ r.
Definition ends_with_sep (s : string) : Prop := ∃ r, s = r +:+ CONTEXT_SEP.
Definition has_doubled_sep (s : string) : Prop :=
  ∃ a b, s = a +:+ (CONTEXT_SEP +:+ CONTEXT_SEP) +:+ b.

Definition malformed (ctx : option string) : Prop :=
  ∃ s, ctx = Some s
       ∧ (is_empty s ∨ starts_with_sep s ∨ ends_with_sep s ∨ has_doubled_sep s).

(** [phrase] occurs in the text of [msg]. *)
Definition mentions (msg phrase : string) : Prop :=
  ∃ a b, msg = a +:+ phrase +:+ b.

(** No whitespace character occurs in [w]. *)
Definition no_whitespace (w : string) : Prop :=
  Py.exists_chars Py.is_space_char w = false.

(** A word has a character that is not a letter. *)
Definition has_non_letter (w : string) : Prop :=
  ∃ c, c ∈ Py.chars w ∧ Py.is_alpha_char c = false.

(** A placeholder word: one or more letters, all of them uppercase. *)
Definition all_upper (w : string) : bool :=
  Py.truthy w && Py.forall_chars Py.is_upper_char w.

(** The token a well-formed word becomes in the list [match]. *)
Definition token_of_word (w : string) : Pattern.token :=
  if Py.isupper w then Pattern.Placeholder (Py.lower w) else Pattern.Lit w.

(** The capture names of a token list, in order. *)
Definition token_names (toks : list Pattern.token) : list string :=
  omap (fun k => match k with
                 | Pattern.Placeholder name => Some name
                 | Pattern.Lit _ => None
                 end) toks.

(** The number of literal words of a token list. *)
Definition literal_count (toks : list Pattern.token) : nat :=
  length (List.filter (fun k => negb (Pattern.is_placeholder k)) toks).

(** Strictly decreasing lexicographic order on distributions. *)
Inductive lex_gt : list Z → list Z → Prop :=
| lex_gt_head x y l1 l2 : (y < x)%Z → lex_gt (x :: l1) (y :: l2)
| lex_gt_tail x l1 l2 : lex_gt l1 l2 → lex_gt (x :: l1) (x :: l2).

Definition sum_Z (l : list Z) : Z := foldr Z.add 0%Z l.

(** The invariants of a pattern that [__init__] returned. *)
Record compiled (p : Pattern.t) : Prop := Compiled {
  compiled_nodup : NoDup (Pattern.argnames p);
  compiled_names : token_names (Pattern.pattern p) = Pattern.argnames p;
  compiled_count : Pattern.placeholders p = length (Pattern.argnames p);
  compiled_fixed : Pattern.fixed p = Z.of_nat (literal_count (Pattern.pattern p));
  compiled_zero : Pattern.argnames p = [] → Pattern.pattern p = []
}.

(** Equality of word lists up to the case of letters. *)
Definition equal_ignoring_case (l1 l2 : list string) : Prop :=
  Py.lower <$> l1 = Py.lower <$> l2.

(** No uppercase letter occurs in [w]. *)
Definition no_upper (w : string) : Prop :=
  Py.exists_chars Py.is_upper_char w = false.

(** No space character occurs in [w]. *)
Definition no_space (w : string) : Prop :=
  Py.exists_chars (fun c => bool_decide (c = " "%char)) w = false.

(** The words that a token list stands for once each placeholder is given
    the words [m] holds for it. *)
Definition expand (pat : list Pattern.token) (m : gmap string (list string))
  : list string :=
  flat_map (fun k => match k with
                     | Pattern.Lit w => [w]
                     | Pattern.Placeholder name => default [] (m !! name)
                     end) pat.

(** The replay of a pattern under the captures of a match: the literal
    prefix, then the suffix with every placeholder replaced by its
    captured string split on single spaces. *)
Definition replay (p : Pattern.t) (m : gmap string string) : list string :=
  Pattern.prefix p
  ++ flat_map (fun k => match k with
                        | Pattern.Lit w => [w]
                        | Pattern.Placeholder name =>
                            match m !! name with
                            | Some s => Py.split_on " " s
                            | None => []
                            end
                        end) (Pattern.pattern p).

Section EngineVocabulary.

Context {W : Type}.

(** Sorted by key, largest first. *)
Definition descending (key : command W → nat) (l : list (command W)) : Prop :=
  StronglySorted (fun a b => key b ≤ key a) l.

(** The entries of [l] whose key is [k], in the order of [l]. *)
Definition with_key (key : command W → nat) (k : nat) (l : list (command W))
  : list (command W) :=
  List.filter (fun c => Nat.eqb (key c) k) l.

(** The pattern of entry [c] matches the words [ws]. *)
Definition matches (ws : list string) (c : command W) : bool :=
  match Pattern.match_ (cmd_pattern c) ws with Some _ => true | None => false end.

(** The specificity of the context of entry [c]. *)
Definition specificity (c : command W) : nat := Pattern.ctx_order (cmd_pattern c).

Definition active (current : option string) (c : command W) : bool :=
  Pattern.is_active (cmd_pattern c) current.

(** The call of the handler of [c] with the captures [m] merged over its
    bound arguments, inside the [try] block of the dispatcher. *)
Definition handle (c : command W) (m : gmap string string) (g : game W)
  : result pyval * game W :=
  invoke (cmd_func c) (call_args (cmd_kwargs c) m) g.

(** The entry that [dispatch_command] selects: the first one of
    [available_commands] whose pattern matches. *)
Definition selected (commands : list (command W)) (current : option string)
    (ws : list string) : option (command W) :=
  List.find (matches ws) (available_commands commands current).

End EngineVocabulary.

(** ** Sample registrations *)

(** A handler for "take ITEM" that does nothing and returns None. *)
Definition take_handler : handler unit :=
  Handler "take" "(item)" ["item"] (fun _ g => (Ok PyNone, g)).

(** [Pattern('take ITEM')] *)
Definition take_pattern : Pattern.t :=
  Pattern.Make "take ITEM" None 1 ["item"] ["take"] [Pattern.Placeholder "item"] 0.

(** A handler for "jump" that fails with an exception derived from
    Exception. *)
Definition jump_handler : handler unit :=
  Handler "jump" "()" [] (fun _ g => (Raise (OtherException "no floor"), g)).

(** [Pattern('jump')] *)
Definition jump_pattern : Pattern.t :=
  Pattern.Make "jump" None 0 [] ["jump"] [] 0.



(** [Pattern('look', context)] *)
Definition look_pattern (context : option string) : Pattern.t :=
  Pattern.Make "look" context 0 [] ["look"] [] 0.

(** * Further vocabulary *)

(** Whether every field that [Py.split_on_from "." cur s] yields is
    non-empty, where [started] tells whether [cur] is. *)
Fixpoint nonempty_fields (started : bool) (s : string) : bool :=
  match s with
  | EmptyString => started
  | String c s' =>
      if bool_decide (c = "."%char) then started && nonempty_fields false s'
      else nonempty_fields true s'
  end.

(** The segments of a context string. *)
Definition segments (c : string) : list string := Py.split_on "." c.

(** The numbers of words that [raw] holds for the placeholders of a token
    list, in the order of the placeholders. *)
Definition shares (pat : list Pattern.token) (raw : gmap string (list string))
  : list Z :=
  (fun name => Z.of_nat (length (default [] (raw !! name)))) <$> token_names pat.

(** [raw] splits the words [ws] along the pattern [p]: it gives one or
    more words to each placeholder and to nothing else, and the literal
    prefix followed by the suffix, with each placeholder replaced by its
    words, is [ws]. *)
Definition splits (p : Pattern.t) (ws : list string)
    (raw : gmap string (list string)) : Prop :=
  dom raw = list_to_set (Pattern.argnames p)
  ∧ (∀ name l, raw !! name = Some l → l ≠ [])
  ∧ Pattern.prefix p ++ expand (Pattern.pattern p) raw = ws.

(** The text is made of ASCII characters only, the range on which the
    string primitives of this development are those of Python. *)
Definition ascii_text (s : string) : Prop :=
  ∀ c, c ∈ Py.chars s → (Py.code c < 128)%N.

(** ** Placeholders as text *)

(** [str.upper] on the ASCII range. *)
Definition upper_char (c : ascii) : ascii :=
  if Py.is_lower_char c then ascii_of_N (Py.code c - 32) else c.

Fixpoint upper (s : string) : string :=
  match s with
  | EmptyString => EmptyString
  | String c s' => String (upper_char c) (upper s')
  end.

Module Placeholder.

(** [Placeholder.__str__]: the name in capitals. *)
Definition __str__ (name : string) : string := upper name.

End Placeholder.

(** [str(w)] for an entry [w] of the list [match] that [Pattern.__init__]
    builds: a literal word is its own text. *)
Definition token_str (k : Pattern.token) : string :=
  match k with
  | Pattern.Lit w => w
  | Pattern.Placeholder name => Placeholder.__str__ name
  end.

(** ** Items and bags *)

Module AdvItem.

(** An item object.  Items are compared by identity, Python's default for a
    class without [__eq__]: [ident] stands for the identity of the object,
    so that two items made from the same labels are still two items. *)
Record t : Type := Make {
  ident : nat;
  name : string;
  aliases : list string
}.

#[global] Instance eq_dec : EqDecision t.
Proof. solve_decision. Defined.

(** [AdvItem(name, *aliases)], creating the object [ident]. *)
Definition __init__ (ident : nat) (name : string) (aliases : list string) : t :=
  Make ident name (Py.lower <$> name :: aliases).

Definition __str__ (self : t) : string := name self.

(** [class_name] is [type(self).__name__]. *)
Definition __repr__ (class_name : string) (self : t) : string :=
  class_name +:+ "(" +:+ Py.join ", " (Py.repr <$> aliases self) +:+ ")".

End AdvItem.

(** What the set operations under a bag raise. *)
Inductive set_error : Type := TypeError | KeyError.

Module Bag.

(** A bag is a set of items; the list holds its elements, each once, in
    the order in which the set iterates over them.  Python leaves that
    order open, so the properties below hold for every order. *)
Definition t : Type := list AdvItem.t.

Fixpoint find (self : t) (name : string) : option AdvItem.t :=
  match self with
  | [] => None
  | item :: rest =>
      if bool_decide (Py.lower name ∈ AdvItem.aliases item) then Some item
      else find rest name
  end.

(** [v in bag]: [v] is a string or an item.  For an item the code calls
    [set.__contains__] with one argument only, which raises TypeError. *)
Definition __contains__ (self : t) (v : string + AdvItem.t) : set_error + bool :=
  match v with
  | inl name => inr (bool_decide (is_Some (find self name)))
  | inr _ => inl TypeError
  end.

(** [set.remove]: KeyError when the object is not an element. *)
Definition remove (self : t) (obj : AdvItem.t) : set_error + t :=
  if bool_decide (obj ∈ self)
  then inr (List.filter (fun x => negb (bool_decide (x = obj))) self)
  else inl KeyError.

Definition take (self : t) (name : string) : set_error + (option AdvItem.t * t) :=
  match find self name with
  | Some obj =>
      match remove self obj with
      | inr self' => inr (Some obj, self')
      | inl e => inl e
      end
  | None => inr (None, self)
  end.

(** [set.add]: nothing changes when the object is an element already.
    Where a new element comes in the iteration order is open; it is put
    last here. *)
Definition add (self : t) (obj : AdvItem.t) : t :=
  if bool_decide (obj ∈ self) then self else self ++ [obj].

(** [which] is the number that [random.randrange(len(self))] draws. *)
Definition get_random (which : nat) (self : t) : option AdvItem.t :=
  if bool_decide (self = []) then None else self !! which.

Definition take_random (which : nat) (self : t)
  : set_error + (option AdvItem.t * t) :=
  match get_random which self with
  | Some obj =>
      match remove self obj with
      | inr self' => inr (Some obj, self')
      | inl e => inl e
      end
  | None => inr (None, self)
  end.

End Bag.

(** Two items of the game, [key] and [crowbar], as their constructors
    build them, and a bag that holds both.  The game makes its items with
    [Item], a subclass that passes the name and the aliases on to
    [AdvItem] and keeps three texts besides. *)
Definition key : AdvItem.t :=
  AdvItem.__init__ 1 "key" ["brass key"; "small key"; "small brass key"].

Definition crowbar : AdvItem.t := AdvItem.__init__ 2 "crowbar" [].

Definition sample_bag : Bag.t := [crowbar; key].

(** ** Rooms *)

Module AdvRoom.

(** What [add_direction] raises: InvalidCommand with its text, KeyError
    with its argument, or a TypeError or AttributeError of the
    interpreter. *)
Inductive raised : Type :=
| RaiseInvalidCommand (msg : string)
| RaiseKeyError (arg : string)
| RaiseTypeError
| RaiseAttributeError.

(** The body of the loop [for dir in (forward, reverse)].  [dirs] is the
    class attribute [_directions]: the table, or None. *)
Definition check_direction (dirs : option (gmap string string)) (dir : string)
  : option raised :=
  if negb (Py.islower dir)
  then Some (RaiseInvalidCommand
               "Invalid direction %r: directions must be all lowercase.")
  else
    match dirs with
    | None => Some RaiseTypeError
    | Some d =>
        if bool_decide (is_Some (d !! dir))
        then Some (RaiseKeyError (Py.repr dir +:+ " is already a direction!"))
        else None
    end.

Section ClassAttributes.

(** [guard name] is what [setattr(AdvRoom, name, None)] raises when the
    type object refuses the assignment, as it does for some attributes of
    its own such as [__name__], [__class__] or [__dict__]; it is None when
    the attribute is stored. *)
Variable guard : string → option raised.

(** [add_direction(forward, reverse)] on the class attribute
    [_directions]; the result is what was raised, if anything, and the
    attribute afterwards.  The two entries are written into the table
    before the two [setattr(AdvRoom, dir, None)]; a [setattr] that stores
    its value replaces the table itself by None when the direction is
    called "_directions". *)
Definition add_direction (forward reverse : string)
    (dirs : option (gmap string string))
  : option raised * option (gmap string string) :=
  match check_direction dirs forward with
  | Some e => (Some e, dirs)
  | None =>
      match check_direction dirs reverse with
      | Some e => (Some e, dirs)
      | None =>
          match dirs with
          | None => (Some RaiseTypeError, dirs)
          | Some d =>
              let d' := <[reverse := forward]> (<[forward := reverse]> d) in
              match guard forward with
              | Some e => (Some e, Some d')
              | None =>
                  let dirs1 :=
                    if bool_decide (forward = "_directions") then None
                    else Some d' in
                  match guard reverse with
                  | Some e => (Some e, dirs1)
                  | None =>
                      (None,
                       if bool_decide (reverse = "_directions") then None
                       else dirs1)
                  end
              end
          end
      end
  end.

End ClassAttributes.

End AdvRoom.

(** Every direction of the table is the opposite of its opposite. *)
Definition symmetric (d : gmap string string) : Prop :=
  ∀ a b, d !! a = Some b → d !! b = Some a.

(** A guard for the instances below: it refuses five attributes of the
    type object and stores every other name. *)
Definition sample_guard (name : string) : option AdvRoom.raised :=
  if bool_decide (name ∈ ["__name__"; "__class__"; "__bases__"])
  then Some AdvRoom.RaiseTypeError
  else if bool_decide (name ∈ ["__dict__"; "__mro__"])
  then Some AdvRoom.RaiseAttributeError
  else None.

Module Room.

Section Room.

(** [F] is the type of the functions given as [functional_description]
    and [R] the type of what else a room holds (items, fixtures, exits). *)
Context {F R : Type}.

Record t : Type := Make {
  description : string;
  first_time_in_room : bool;
  first_time_description : option string;
  is_dark : option bool;
  dark_description : option string;
  functional_description : option F;
  rest : R
}.

(** [call f room] is [f(room)]. *)
Variable call : F → t → string.

(** Truth values of the optional attributes. *)
Definition truthy_bool (b : option bool) : bool := default false b.

Definition truthy_str (s : option string) : bool :=
  match s with Some s => Py.truthy s | None => false end.

Definition visited (self : t) : t :=
  Make (description self) false (first_time_description self) (is_dark self)
    (dark_description self) (functional_description self) (rest self).

Definition get_description (self : t) : option string * t :=
  if truthy_bool (is_dark self) then (dark_description self, self)
  else
    let self' := if first_time_in_room self then visited self else self in
    if first_time_in_room self && truthy_str (first_time_description self')
    then (first_time_description self', self')
    else
      match functional_description self' with
      | Some f => (Some (call f self'), self')
      | None => (Some (description self'), self')
      end.

(** The description of a room outside of the first visit. *)
Definition regular_description (self : t) : string :=
  match functional_description self with
  | Some f => call f self
  | None => description self
  end.

End Room.

Arguments t : clear implicits.

End Room.

Section RoomAliases.

(** [RoomObj] is the type of room objects and [room_aliases room] the
    attribute of that name. *)
Context {RoomObj : Type}.
Variable room_aliases : RoomObj → list string.

(** [all_rooms] is the global tuple of that name. *)
Definition get_room_aliases (all_rooms : list RoomObj) : gmap string RoomObj :=
  foldl (fun acc room =>
           foldl (fun acc alias => <[Py.lower alias := room]> acc)
                 acc (room_aliases room))
        ∅ all_rooms.

(** Whether [room] goes by the lowercase name [k]. *)
Definition goes_by (k : string) (room : RoomObj) : bool :=
  bool_decide (k ∈ Py.lower <$> room_aliases room).

(** Whether [room] has an alias that equals [name] up to the case of
    letters. *)
Definition known_as (name : string) (room : RoomObj) : bool :=
  existsb (fun alias => bool_decide (Py.lower alias = Py.lower name))
          (room_aliases room).

End RoomAliases.

(** ** The console path *)

Section Console.

Context {W : Type}.

(** [print line g] is the game state after [print(line)]: the standard
    output is part of the world. *)
Variable print : string → game W → game W.

Definition no_command_matches (command_ : string) (g : game W) : game W :=
  print ("I don't understand '" +:+ command_ +:+ "'.") g.

Definition _available_commands (commands : list (command W))
    (current : option string) : list (command W) :=
  sort_desc (fun c => Pattern.ctx_order (cmd_pattern c))
    (List.filter (fun c => Pattern.is_active (cmd_pattern c) current) commands).

(** The loop of [_handle_command] with its [else] clause: the handler of
    the first pattern that matches is called, outside of any [try]. *)
Fixpoint handle_loop (cmds : list (command W)) (ws : list string)
    (cmd : string) (g : game W) : result unit * game W :=
  match cmds with
  | [] => (Ok tt, no_command_matches cmd g)
  | c :: cmds' =>
      match Pattern.match_ (cmd_pattern c) ws with
      | Some matches =>
          match h_call (cmd_func c) (call_args (cmd_kwargs c) matches) g with
          | (Ok _, g') => (Ok tt, g')
          | (Raise e, g') => (Raise e, g')
          end
      | None => handle_loop cmds' ws cmd g
      end
  end.

Definition _handle_command (commands : list (command W)) (cmd : string)
    (g : game W) : result unit * game W :=
  let ws := Py.split (Py.lower cmd) in
  match handle_loop (_available_commands commands (current_context g)) ws cmd g with
  | (Ok _, g') => (Ok tt, print "" g')
  | (Raise e, g') => (Raise e, g')
  end.

End Console.

(** ** The keypad of the safe *)

(** [str.strip] and [str.isdigit] on the ASCII range. *)
Fixpoint lstrip (s : string) : string :=
  match s with
  | EmptyString => EmptyString
  | String c s' => if Py.is_space_char c then lstrip s' else s
  end.

Fixpoint rstrip (s : string) : string :=
  match s with
  | EmptyString => EmptyString
  | String c s' =>
      match rstrip s' with
      | EmptyString => if Py.is_space_char c then EmptyString
                       else String c EmptyString
      | r => String c r
      end
  end.

Definition strip (s : string) : string := rstrip (lstrip s).

Definition is_digit_char (c : ascii) : bool :=
  ((48 <=? Py.code c) && (Py.code c <=? 57))%N.

Definition isdigit (s : string) : bool :=
  Py.truthy s && Py.forall_chars is_digit_char s.

(** The items [safe], [safe_open] and [bunny]: two objects with the same
    labels, and the figurine. *)
Definition safe : AdvItem.t := AdvItem.__init__ 3 "safe" ["keypad"].
Definition safe_open : AdvItem.t := AdvItem.__init__ 4 "safe" ["keypad"].
Definition bunny : AdvItem.t :=
  AdvItem.__init__ 5 "bunny" ["bunny figurine"; "figurine"].

Definition SAFE_NUMBER : string := "93247".

(** What [using_safe] reads and writes of the world: the fixtures of the
    current room and the inventory. *)
Record keypad_world : Type := KeypadWorld {
  current_room_fixtures : Bag.t;
  inventory : Bag.t
}.

(** [Context.EXPLORING] *)
Definition EXPLORING : string := "exploring".

Definition using_safe (digits : string) (g : game keypad_world)
  : result pyval * game keypad_world :=
  let stripped_digits := strip digits in
  if negb (isdigit stripped_digits)
  then (Ok (PyStr "I can only enter digits..."), g)
  else if negb (Nat.eqb (String.length stripped_digits) 5)
  then (Ok (PyStr "I can only enter five digits..."), g)
  else if bool_decide (stripped_digits = SAFE_NUMBER)
  then
    match set_context (Some EXPLORING) g with
    | (Raise e, g1) => (Raise e, g1)
    | (Ok _, g1) =>
        match Bag.remove (current_room_fixtures (world g1)) safe with
        | inl _ => (Raise (OtherException (AdvItem.__repr__ "Item" safe)), g1)
        | inr fixtures =>
            (Ok (PyStr "You enter the code and the safe makes a happy beep! The door swings open and inside you find a small plastic toy bunny? You take the bunny."),
             Game (current_context g1)
                  (KeypadWorld (Bag.add fixtures safe_open)
                               (Bag.add (inventory (world g1)) bunny)))
        end
    end
  else
    match set_context (Some EXPLORING) g with
    | (Raise e, g1) => (Raise e, g1)
    | (Ok _, g1) =>
        (Ok (PyStr "You enter the code and the safe makes a sad bloop sound... That must not have been the code..."),
         g1)
    end.

(** The text is five decimal digits. *)
Definition five_digits (s : string) : Prop :=
  String.length s = 5 ∧ ∀ c, c ∈ Py.chars s → is_digit_char c = true.

(** ** Further sample registrations *)

(** A handler for "DIGITS" that does nothing and returns None. *)
Definition digits_handler : handler unit :=
  Handler "using_safe" "(digits)" ["digits"] (fun _ g => (Ok PyNone, g)).

(** [Pattern('DIGITS', 'using_safe')] *)
Definition digits_pattern : Pattern.t :=
  Pattern.Make "DIGITS" (Some "using_safe") 1 ["digits"] []
    [Pattern.Placeholder "digits"] 0.

(** ** Templates beyond ASCII *)

(** [Pattern.__init__] once more, on strings of any characters.  What
    [str.isalpha], [str.isupper], [str.islower], [str.lower], [str.split]
    and [repr] do beyond the ASCII range is decided by the character
    database of the interpreter; it is a parameter here. *)
Module Unicode.

(** A Python string as the list of its code points. *)
Definition text : Type := list N.

(** The code points of a string of ASCII characters. *)
Definition of_string (s : string) : text := Py.code <$> Py.chars s.

(** What the database holds for a code point: whether it is alphabetic,
    uppercase, lowercase, titlecase, whitespace. *)
Record flags : Type := Flags {
  alpha : bool;
  upper : bool;
  lower : bool;
  title : bool;
  space : bool
}.

Inductive error : Type :=
| ValueError (msg : text)
| InvalidCommand (msg : text).

(** What a call returns or raises. *)
Inductive outcome (A : Type) : Type :=
| Returns (a : A)
| Raises (e : error).

Arguments Returns {A} a.
Arguments Raises {A} e.

Inductive token : Type :=
| Lit (w : text)
| Placeholder (name : text).

Record t : Type := Make {
  orig_pattern : text;
  pattern_context : option string;
  placeholders : nat;
  argnames : list text;
  prefix : list text;
  pattern : list token;
  fixed : Z
}.

Section Database.

(** [db c] is the entry of the code point [c]; [str_lower] is [str.lower]
    and [str_repr] is [repr] on strings. *)
Variable db : N → flags.
Variable str_lower : text → text.
Variable str_repr : text → text.

(** [s.isalpha()]: at least one character and every character
    alphabetic. *)
Definition isalpha (s : text) : bool :=
  match s with
  | [] => false
  | _ => forallb (fun c => alpha (db c)) s
  end.

(** [s.isupper()]: for one character, whether it is uppercase; otherwise
    no lowercase or titlecase character and at least one uppercase one. *)
Definition isupper (s : text) : bool :=
  match s with
  | [c] => upper (db c)
  | _ => negb (existsb (fun c => lower (db c) || title (db c)) s)
         && existsb (fun c => upper (db c)) s
  end.

(** [s.islower()], likewise. *)
Definition islower (s : text) : bool :=
  match s with
  | [c] => lower (db c)
  | _ => negb (existsb (fun c => upper (db c) || title (db c)) s)
         && existsb (fun c => lower (db c)) s
  end.

(** [s.split()]: maximal runs of characters that are not whitespace. *)
Fixpoint split_from (cur : text) (s : text) : list text :=
  match s with
  | [] => match cur with [] => [] | _ => [cur] end
  | c :: s' =>
      if space (db c)
      then match cur with
           | [] => split_from [] s'
           | _ => cur :: split_from [] s'
           end
      else split_from (cur ++ [c]) s'
  end.

Definition split (s : text) : list text := split_from [] s.

(** The loop [for w in words] of [__init__]. *)
Fixpoint compile_words (orig : text) (words : list text)
    (match_ : list token) (argnames : list text) (placeholders : nat)
  : outcome (list token * list text * nat) :=
  match words with
  | [] => Returns (match_, argnames, placeholders)
  | w :: words' =>
      if negb (isalpha w) then
        Raises (InvalidCommand (of_string "Invalid command " ++ str_repr orig
                 ++ of_string "Commands may consist of letters only."))
      else if isupper w then
        let arg := str_lower w in
        if bool_decide (arg ∈ argnames) then
          Raises (InvalidCommand (of_string "Invalid command " ++ str_repr orig
                   ++ of_string " Identifiers may only be used once"))
        else compile_words orig words' (match_ ++ [Placeholder arg])
               (argnames ++ [arg]) (S placeholders)
      else if islower w then
        compile_words orig words' (match_ ++ [Lit w]) argnames placeholders
      else
        Raises (InvalidCommand
                 (of_string "Invalid command " ++ str_repr orig
                  ++ of_string (nl +:+ nl)
                  ++ of_string "Words in commands must either be in lowercase or "
                  ++ of_string "capitals, not a mix."))
  end.

Fixpoint leading_literals (match_ : list token) : list text :=
  match match_ with
  | Lit w :: match_' => w :: leading_literals match_'
  | _ => []
  end.

(** [Pattern(pattern, context)]; the context is a string of this file. *)
Definition __init__ (pattern : text) (context : option string) : outcome t :=
  match _validate_context context with
  | Raise e => Raises (ValueError (of_string (str_exn e)))
  | Ok _ =>
      match compile_words pattern (split pattern) [] [] 0 with
      | Raises e => Raises e
      | Returns (match_, argnames, placeholders) =>
          let prefix := leading_literals match_ in
          let pat := drop (length prefix) match_ in
          Returns (Make pattern context placeholders argnames prefix pat
                     (Z.of_nat (length pat) - Z.of_nat placeholders))
      end
  end.

(** *** What the specification says of a template *)

(** A word has a character that is not alphabetic. *)
Definition has_non_letter (w : text) : Prop :=
  ∃ c, c ∈ w ∧ alpha (db c) = false.

(** A word has an uppercase letter and a lowercase letter. *)
Definition mixes_case (w : text) : Prop :=
  (∃ c, c ∈ w ∧ upper (db c) = true) ∧ (∃ c, c ∈ w ∧ lower (db c) = true).

(** A word is in capitals or in lowercase, as [str.isupper] and
    [str.islower] judge. *)
Definition one_case (w : text) : Prop := isupper w = true ∨ islower w = true.

(** A word in capitals: it has an uppercase character and no lowercase or
    titlecase one.  A word in lowercase, likewise. *)
Definition in_capitals (w : text) : Prop :=
  (∃ c, c ∈ w ∧ upper (db c) = true)
  ∧ ∀ c, c ∈ w → lower (db c) = false ∧ title (db c) = false.

Definition in_lowercase (w : text) : Prop :=
  (∃ c, c ∈ w ∧ lower (db c) = true)
  ∧ ∀ c, c ∈ w → upper (db c) = false ∧ title (db c) = false.

(** No character of the word is of two cases at once. *)
Definition of_one_case_each (w : text) : Prop :=
  ∀ c, c ∈ w →
    (upper (db c) = true → lower (db c) = false ∧ title (db c) = false)
    ∧ (lower (db c) = true → title (db c) = false).

(** Every character of the word is a cased letter: uppercase or lowercase,
    not both, and not titlecase. *)
Definition cased_letters (w : text) : Prop :=
  ∀ c, c ∈ w →
    alpha (db c) = true ∧ title (db c) = false
    ∧ upper (db c) = negb (lower (db c)).

(** The capture names a template's words give, in order. *)
Definition placeholder_names (words : list text) : list text :=
  str_lower <$> List.filter isupper words.

End Database.

(** *** The ASCII range of the database *)

Definition between (lo hi c : N) : bool := ((lo <=? c) && (c <=? hi))%N.

Definition ascii_flags (c : N) : flags :=
  Flags (between 65 90 c || between 97 122 c) (between 65 90 c)
        (between 97 122 c) false
        (between 9 13 c || between 28 31 c || (c =? 32)%N).

Definition ascii_lower_char (c : N) : N :=
  if between 65 90 c then (c + 32)%N else c.

(** The database agrees with the ASCII tables on the ASCII range, and
    [str.lower] with the ASCII lowering on strings of that range. *)
Definition ascii_range (db : N → flags) (str_lower : text → text) : Prop :=
  (∀ c, (c < 128)%N → db c = ascii_flags c)
  ∧ (∀ s, Forall (fun c => (c < 128)%N) s → str_lower s = ascii_lower_char <$> s).

(** *** A database for the instances *)

(** The code point of the ideograph U+4E2D, a letter that has no case. *)
Definition zhong : N := 20013.

(** The entries of the ASCII range and of U+4E2D.  The instances below
    hold strings of these code points only, so that the entry given to the
    other code points, the one of an unassigned code point, is never
    read. *)
Definition sample_db (c : N) : flags :=
  if (c <? 128)%N then ascii_flags c
  else if (c =? zhong)%N then Flags true false false false false
  else Flags false false false false false.

(** [str.lower] on strings of ASCII characters and caseless letters. *)
Definition sample_lower (s : text) : text := ascii_lower_char <$> s.

(** [repr] on strings of printable characters without quotes or
    backslashes: the string between single quotes. *)
Definition sample_repr (s : text) : text := [39%N] ++ s ++ [39%N].

End Unicode.

(** * Properties *)

(** ** Strings *)

Section StringFacts.

Implicit Types (s p t : string) (c : ascii).

Lemma app_empty_l s : "" +:+ s = s.
Proof. reflexivity. Qed.

Lemma app_cons c s t : String c s +:+ t = String c (s +:+ t).
Proof. reflexivity. Qed.

Lemma app_empty_r s : s +:+ "" = s.
Proof. induction s as [|c s IH]; [done|]. by rewrite app_cons, IH. Qed.

Lemma app_assoc_str s t p : (s +:+ t) +:+ p = s +:+ t +:+ p.
Proof. induction s as [|c s IH]; [done|]. by rewrite !app_cons, IH. Qed.

Lemma length_app_str s t :
  String.length (s +:+ t) = String.length s + String.length t.
Proof. induction s as [|c s IH]; [done|]. rewrite app_cons. simpl. by rewrite IH. Qed.

Lemma chars_app s t : Py.chars (s +:+ t) = Py.chars s ++ Py.chars t.
Proof. induction s as [|c s IH]; [done|]. rewrite app_cons. simpl. by rewrite IH. Qed.

Lemma exists_chars_spec (f : ascii -> bool) s :
  Py.exists_chars f s = true ↔ ∃ c, c ∈ Py.chars s ∧ f c = true.
Proof.
  induction s as [|c s IH]; simpl.
  - split; [done|]. intros (c & Hc & _). by apply elem_of_nil in Hc.
  - rewrite orb_true_iff, IH. split.
    + intros [Hc | (c' & Hin & Hc')]; [exists c | exists c']; split; auto; constructor; done.
    + intros (c' & Hin & Hc'). apply elem_of_cons in Hin as [-> | Hin]; eauto.
Qed.

Lemma forall_chars_spec (f : ascii -> bool) s :
  Py.forall_chars f s = true ↔ ∀ c, c ∈ Py.chars s → f c = true.
Proof.
  induction s as [|c s IH]; simpl.
  - split; [|done]. intros _ c Hc. by apply elem_of_nil in Hc.
  - rewrite andb_true_iff, IH. split.
    + intros [Hc Hs] c' [-> | Hin]%elem_of_cons; auto.
    + intros H. split; [apply H; constructor | intros c' Hc'; apply H; by constructor].
Qed.

Lemma exists_chars_app (f : ascii -> bool) s t :
  Py.exists_chars f (s +:+ t) = Py.exists_chars f s || Py.exists_chars f t.
Proof.
  induction s as [|c s IH]; [done|]. rewrite app_cons. simpl.
  by rewrite IH, orb_assoc.
Qed.

Lemma startswith_spec s p :
  Py.startswith s p = true ↔ ∃ rest, s = p +:+ rest.
Proof.
  revert s. induction p as [|b p IH]; intros s; simpl.
  - split; [|done]. intros _. by exists s.
  - destruct s as [|a s].
    + split; [done|]. intros (rest & H). by rewrite app_cons in H.
    + rewrite andb_true_iff, bool_decide_eq_true, IH. split.
      * intros [-> (rest & ->)]. by exists rest.
      * intros (rest & H). rewrite app_cons in H. injection H as -> ->. eauto.
Qed.

Lemma startswith_app s t : Py.startswith (s +:+ t) s = true.
Proof. apply startswith_spec. eauto. Qed.

Lemma contains_spec s p :
  Py.contains s p = true ↔ ∃ a b, s = a +:+ p +:+ b.
Proof.
  induction s as [|c s IH].
  - simpl. rewrite orb_false_r, startswith_spec. split.
    + intros (rest & H). by exists "", rest.
    + intros (a & b & H). destruct a as [|? a]; [|by rewrite app_cons in H].
      by exists b.
  - cbn [Py.contains]. rewrite orb_true_iff, IH, startswith_spec. split.
    + intros [(rest & H) | (a & b & H)].
      * by exists "", rest.
      * exists (String c a), b. by rewrite app_cons, H.
    + intros (a & b & H). destruct a as [|c' a].
      * left. by exists b.
      * right. rewrite app_cons in H. injection H as -> ->. eauto.
Qed.

Lemma substring_app_drop s t n :
  substring (String.length s) n (s +:+ t) = substring 0 n t.
Proof. induction s as [|c s IH]; [done|]. rewrite app_cons. simpl. exact IH. Qed.

Lemma substring_full s : substring 0 (String.length s) s = s.
Proof. induction s as [|c s IH]; [done|]. simpl. by rewrite IH. Qed.

Lemma substring_split s n :
  n ≤ String.length s →
  ∃ r, s = r +:+ substring n (String.length s - n) s ∧ String.length r = n.
Proof.
  revert n. induction s as [|c s IH]; intros n Hn; simpl in Hn.
  - assert (n = 0) as -> by lia. by exists "".
  - destruct n as [|n].
    + exists "". split; [|done]. rewrite app_empty_l.
      change (String.length (String c s) - 0) with (S (String.length s)).
      simpl. by rewrite substring_full.
    + destruct (IH n) as (r & Hr & Hlen); [lia|].
      exists (String c r). split; [|simpl; by rewrite Hlen].
      rewrite app_cons. simpl. by rewrite <- Hr.
Qed.

Lemma endswith_spec s p :
  Py.endswith s p = true ↔ ∃ r, s = r +:+ p.
Proof.
  unfold Py.endswith. rewrite andb_true_iff, Nat.leb_le, bool_decide_eq_true.
  split.
  - intros [Hle Hsub].
    destruct (substring_split s (String.length s - String.length p)) as (r & Hr & _);
      [lia|].
    replace (String.length s - (String.length s - String.length p))
      with (String.length p) in Hr by lia.
    rewrite Hsub in Hr. eauto.
  - intros (r & ->). rewrite length_app_str. split; [lia|].
    replace (String.length r + String.length p - String.length p)
      with (String.length r) by lia.
    by rewrite substring_app_drop, substring_full.
Qed.

End StringFacts.

(** ** The context model: [_match_context] *)

Lemma slice_after_prefix c rest :
  Py.slice (c +:+ rest) (String.length c) (String.length c + 1)
  = substring 0 1 rest.
Proof.
  unfold Py.slice.
  replace (String.length c + 1 - String.length c) with 1 by lia.
  apply substring_app_drop.
Qed.

Lemma match_context_strings c a :
  (Py.startswith a c
   && existsb (String.eqb (Py.slice a (String.length c)
                             (String.length c + String.length CONTEXT_SEP)))
        [EmptyString; CONTEXT_SEP]) = true
  ↔ equal_or_nested c a.
Proof.
  rewrite andb_true_iff, startswith_spec. unfold equal_or_nested. split.
  - intros [(rest & ->) Hin]. change (String.length CONTEXT_SEP) with 1 in Hin.
    rewrite slice_after_prefix in Hin. simpl in Hin.
    rewrite !orb_true_iff, !String.eqb_eq in Hin.
    destruct rest as [|x rest].
    + left. apply app_empty_r.
    + right. simpl in Hin. destruct Hin as [Hin | [Hin | Hin]]; [done| |done].
      injection Hin as ->. by exists rest.
  - intros [-> | (rest & ->)].
    + split; [exists ""; by rewrite app_empty_r|].
      change (String.length CONTEXT_SEP) with 1.
      rewrite <- (app_empty_r c) at 1. by rewrite slice_after_prefix.
    + split; [eauto|]. change (String.length CONTEXT_SEP) with 1.
      rewrite slice_after_prefix. by destruct rest.
Qed.

Lemma match_context_refl (a : option string) : _match_context a a = true.
Proof.
  destruct a as [a|]; [|done]. unfold _match_context.
  apply match_context_strings. by left.
Qed.


(** C2: [_match_context context active_context] is true exactly when both
    are None, or [context] is None, or [active_context] is a string that
    equals [context] or starts with [context] followed by the separator;
    it is reflexive on every context, holds for ("x.y", "x.y.z") and fails
    for ("x.y", "x") and ("y", "x.y"). *)
Theorem match_context_within :
  (∀ context active_context,
     _match_context context active_context = true ↔ within context active_context)
  ∧ (∀ a, _match_context a a = true)
  ∧ _match_context (Some "x.y") (Some "x.y.z") = true
  ∧ _match_context (Some "x.y") (Some "x") = false
  ∧ _match_context (Some "y") (Some "x.y") = false.
Proof.
  split; [|split; [exact match_context_refl | by vm_compute]].
  intros context active. unfold within. destruct context as [c|].
  - destruct active as [a|].
    + unfold _match_context. rewrite match_context_strings. split.
      * intros H. right; right. by exists c, a.
      * intros [[? _] | [? | (c' & a' & ? & ? & H)]]; [done..|]. by simplify_eq.
    + simpl. split; [done|].
      intros [[? _] | [? | (c' & a' & ? & ? & _)]]; done.
  - simpl. split; [|done]. intros _. right; by left.
Qed.

(** ** The context model: [set_context] *)

Lemma truthy_spec s : Py.truthy s = false ↔ is_empty s.
Proof. unfold is_empty. by destruct s. Qed.

Lemma context_errors_nil s :
  context_errors s = []
  ↔ ¬ (is_empty s ∨ starts_with_sep s ∨ ends_with_sep s ∨ has_doubled_sep s).
Proof.
  unfold context_errors, starts_with_sep, ends_with_sep, has_doubled_sep.
  rewrite <- truthy_spec, <- startswith_spec, <- endswith_spec.
  rewrite <- (contains_spec s (CONTEXT_SEP +:+ CONTEXT_SEP)).
  change (Py.repeat_str CONTEXT_SEP 2) with (CONTEXT_SEP +:+ CONTEXT_SEP).
  destruct (Py.truthy s), (Py.startswith s CONTEXT_SEP),
    (Py.endswith s CONTEXT_SEP), (Py.contains s (CONTEXT_SEP +:+ CONTEXT_SEP));
    simpl; intuition congruence.
Qed.

Lemma validate_context_raises ctx :
  (∃ e, _validate_context ctx = Raise e) ↔ malformed ctx.
Proof.
  unfold malformed. destruct ctx as [s|]; simpl.
  - case_bool_decide as Herr.
    + split; [by intros [e ?]|]. intros (s' & [= <-] & Hbad).
      by apply context_errors_nil in Herr.
    + split; [|eauto]. intros _. exists s. split; [done|].
      destruct (decide (is_empty s)) as [|He]; [tauto|]. right.
      rewrite context_errors_nil in Herr.
      destruct (Py.startswith s CONTEXT_SEP) eqn:E1;
        [left; by apply startswith_spec|].
      destruct (Py.endswith s CONTEXT_SEP) eqn:E2;
        [right; left; by apply endswith_spec|].
      destruct (Py.contains s (CONTEXT_SEP +:+ CONTEXT_SEP)) eqn:E3;
        [right; right; by apply contains_spec|].
      exfalso. apply Herr. intros [? | [H | [H | H]]]; [done|..].
      * apply startswith_spec in H. congruence.
      * apply endswith_spec in H. congruence.
      * apply (contains_spec s (CONTEXT_SEP +:+ CONTEXT_SEP)) in H. congruence.
  - split; [by intros [e ?]|]. by intros (s & ? & _).
Qed.

Lemma mentions_after a msg phrase :
  Py.contains msg phrase = true → mentions (a +:+ msg) phrase.
Proof.
  intros (x & y & ->)%contains_spec. exists (a +:+ x), y.
  by rewrite app_assoc_str.
Qed.

(** Every phrase of [err] is in the text of the message, whatever the
    context string. *)
Lemma context_message_mentions s :
  let msg := context_message s (context_errors s) in
  (is_empty s → mentions msg "be empty")
  ∧ (starts_with_sep s → mentions msg "start with .")
  ∧ (ends_with_sep s → mentions msg "end with .")
  ∧ (has_doubled_sep s → mentions msg "contain ..").
Proof.
  unfold context_message, context_errors, starts_with_sep, ends_with_sep,
    has_doubled_sep.
  rewrite <- truthy_spec, <- startswith_spec, <- endswith_spec.
  rewrite <- (contains_spec s (CONTEXT_SEP +:+ CONTEXT_SEP)).
  change (Py.repeat_str CONTEXT_SEP 2) with (CONTEXT_SEP +:+ CONTEXT_SEP).
  destruct (Py.truthy s), (Py.startswith s CONTEXT_SEP),
    (Py.endswith s CONTEXT_SEP), (Py.contains s (CONTEXT_SEP +:+ CONTEXT_SEP));
    cbv zeta; repeat split; intros H; try discriminate H;
    rewrite <- !app_assoc_str; apply mentions_after; by vm_compute.
Qed.

Lemma set_context_unfold {W} ctx (g : game W) :
  set_context ctx g
  = match ctx with
    | Some s =>
        if bool_decide (context_errors s = []) then (Ok tt, Game ctx (world g))
        else (Raise (ValueError (context_message s (context_errors s))), g)
    | None => (Ok tt, Game None (world g))
    end.
Proof.
  unfold set_context, _validate_context. destruct ctx as [s|]; [|done].
  by case_bool_decide.
Qed.

(** C7: [set_context ctx] raises the validation error exactly when [ctx] is
    a string that is empty, starts or ends with the separator, or has two
    separators in a row; the message names every invariant that is
    violated and the active context stays as it was.  In every other case,
    [None] included, [ctx] becomes the active context.  The contexts "",
    ".a", "a." and "a..b" are all refused. *)
Theorem set_context_validation {W} (ctx : option string) (g : game W) :
  ((∃ m, (set_context ctx g).1 = Raise (ValueError m)) ↔ malformed ctx)
  ∧ (∀ e, (set_context ctx g).1 = Raise e →
       (set_context ctx g).2 = g
       ∧ ∃ s m, ctx = Some s ∧ e = ValueError m
           ∧ (is_empty s → mentions m "be empty")
           ∧ (starts_with_sep s → mentions m "start with .")
           ∧ (ends_with_sep s → mentions m "end with .")
           ∧ (has_doubled_sep s → mentions m "contain .."))
  ∧ (¬ malformed ctx → set_context ctx g = (Ok tt, Game ctx (world g)))
  ∧ set_context None g = (Ok tt, Game None (world g))
  ∧ Forall (fun s => ∃ m, set_context (Some s) g = (Raise (ValueError m), g))
      [""; ".a"; "a."; "a..b"].
Proof.
  rewrite <- validate_context_raises. rewrite set_context_unfold.
  unfold _validate_context. split; [|split; [|split; [|split]]].
  - destruct ctx as [s|]; [|split; [intros [? [=]] | intros [? [=]]]].
    case_bool_decide; simpl; split; intros [? [=]]; eauto.
  - intros e He. destruct ctx as [s|]; [|done].
    case_bool_decide; [done|]. simpl in He. injection He as <-.
    split; [done|]. exists s, (context_message s (context_errors s)).
    split; [done|]. split; [done|]. apply context_message_mentions.
  - intros Hok. destruct ctx as [s|]; [|done].
    case_bool_decide; [done|]. exfalso. apply Hok. eauto.
  - done.
  - repeat constructor; eexists; rewrite set_context_unfold; reflexivity.
Qed.

(** ** Tokenization *)

Lemma split_from_words s : ∀ cur w,
  w ∈ Py.split_from cur s →
  Py.truthy w = true ∧ (no_whitespace cur → no_whitespace w).
Proof.
  induction s as [|c s IH]; intros cur w; simpl.
  - destruct (Py.truthy cur) eqn:Hcur; [|by intros ?%elem_of_nil].
    by intros ->%list_elem_of_singleton.
  - destruct (Py.is_space_char c) eqn:Hc.
    + destruct (Py.truthy cur) eqn:Hcur.
      * intros [-> | Hw]%elem_of_cons; [done|].
        destruct (IH _ _ Hw) as [? Hws]. split; [done|]. intros _. by apply Hws.
      * intros Hw. destruct (IH _ _ Hw) as [? Hws]. split; [done|].
        intros _. by apply Hws.
    + intros Hw. destruct (IH _ _ Hw) as [? Hws]. split; [done|].
      intros Hcur. apply Hws. unfold no_whitespace in *.
      rewrite exists_chars_app, Hcur. simpl. by rewrite Hc.
Qed.

Lemma split_words s w :
  w ∈ Py.split s → Py.truthy w = true ∧ no_whitespace w.
Proof.
  intros Hw. destruct (split_from_words _ _ _ Hw) as [? Hws]. split; [done|].
  by apply Hws.
Qed.

(** ** The pattern compiler *)

Lemma upper_not_lower c : Py.is_upper_char c = true → Py.is_lower_char c = false.
Proof.
  unfold Py.is_upper_char, Py.is_lower_char.
  rewrite andb_true_iff, andb_false_iff, !N.leb_le, !N.leb_gt. lia.
Qed.

Lemma forall_chars_false (f : ascii -> bool) s :
  Py.forall_chars f s = false ↔ ∃ c, c ∈ Py.chars s ∧ f c = false.
Proof.
  induction s as [|c s IH]; simpl.
  - split; [done|]. by intros (c & ?%elem_of_nil & _).
  - rewrite andb_false_iff, IH. split.
    + intros [Hc | (c' & Hin & Hc')]; [exists c | exists c']; split; auto; by constructor.
    + intros (c' & [-> | Hin]%elem_of_cons & Hc'); eauto.
Qed.

Lemma exists_chars_false (f : ascii -> bool) s :
  Py.exists_chars f s = false ↔ ∀ c, c ∈ Py.chars s → f c = false.
Proof.
  split.
  - intros H c Hc. destruct (f c) eqn:Hf; [|done].
    assert (Py.exists_chars f s = true) by (apply exists_chars_spec; eauto).
    congruence.
  - intros H. destruct (Py.exists_chars f s) eqn:E; [|done].
    apply exists_chars_spec in E as (c & Hc & Hf). rewrite (H c Hc) in Hf. done.
Qed.

Lemma isalpha_false w :
  Py.truthy w = true → Py.isalpha w = false ↔ has_non_letter w.
Proof.
  intros Hw. unfold Py.isalpha. rewrite Hw. simpl. apply forall_chars_false.
Qed.

Section Letters.

Variable w : string.
Hypothesis Halpha : Py.isalpha w = true.

Lemma letters_cased c :
  c ∈ Py.chars w → Py.is_upper_char c = true ∨ Py.is_lower_char c = true.
Proof.
  intros Hc. unfold Py.isalpha in Halpha.
  apply andb_true_iff in Halpha as [_ Hall].
  rewrite forall_chars_spec in Hall. specialize (Hall c Hc).
  by apply orb_true_iff in Hall.
Qed.

Lemma letters_no_non_letter : ¬ has_non_letter w.
Proof.
  intros (c & Hc & Hn). destruct (letters_cased c Hc) as [H | H];
    unfold Py.is_alpha_char in Hn; rewrite H in Hn; [done|].
  by rewrite orb_true_r in Hn.
Qed.

Lemma letters_nonempty : ∃ c, c ∈ Py.chars w.
Proof.
  unfold Py.isalpha in Halpha. apply andb_true_iff in Halpha as [Hne _].
  destruct w as [|c ?]; [done|]. exists c. constructor.
Qed.

Lemma isupper_all_upper : Py.isupper w = all_upper w.
Proof.
  unfold Py.isupper, all_upper.
  assert (Py.truthy w = true) as ->
    by (unfold Py.isalpha in Halpha; by apply andb_true_iff in Halpha as [? _]).
  simpl. apply eq_true_iff_eq.
  rewrite andb_true_iff, negb_true_iff, exists_chars_spec, exists_chars_false,
    forall_chars_spec.
  split.
  - intros [_ Hno] c Hc. destruct (letters_cased c Hc) as [|Hl]; [done|].
    rewrite (Hno c Hc) in Hl. done.
  - intros Hall. split.
    + destruct letters_nonempty as (c & Hc). eauto.
    + intros c Hc. apply upper_not_lower; auto.
Qed.

End Letters.

Lemma token_names_app l1 l2 :
  token_names (l1 ++ l2) = token_names l1 ++ token_names l2.
Proof. apply omap_app. Qed.

(** What the loop of [__init__] leaves when it ends without raising. *)
Lemma compile_words_ok orig words : ∀ match_ argnames n match' argnames' n',
  Pattern.compile_words orig words match_ argnames n = Ok (match', argnames', n') →
  match' = match_ ++ (token_of_word <$> words)
  ∧ argnames' = argnames ++ token_names (token_of_word <$> words)
  ∧ n' = n + length (token_names (token_of_word <$> words))
  ∧ (NoDup argnames → NoDup argnames')
  ∧ Forall (fun w => Py.isalpha w = true
                     ∧ (Py.isupper w = false → Py.islower w = true)) words.
Proof.
  induction words as [|w words IH]; intros match_ argnames n match' argnames' n'.
  { simpl. intros [= <- <- <-]. by rewrite !app_nil_r, Nat.add_0_r. }
  cbn [Pattern.compile_words fmap list_fmap].
  destruct (Py.isalpha w) eqn:Ha; simpl; [|done].
  destruct (Py.isupper w) eqn:Hu.
  - assert (token_of_word w = Pattern.Placeholder (Py.lower w)) as ->
      by (unfold token_of_word; by rewrite Hu).
    case_bool_decide as Hin; [done|]. intros H.
    apply IH in H as (-> & -> & -> & Hnd & Hall).
    rewrite <- !app_assoc. simpl. repeat split; [lia| |].
    + intros Ha'. rewrite <- app_assoc in Hnd. apply Hnd.
      apply NoDup_app. split; [done|].
      split; [|apply NoDup_singleton]. by intros x Hx ->%list_elem_of_singleton.
    + constructor; [|done]. split; [done|congruence].
  - assert (token_of_word w = Pattern.Lit w) as ->
      by (unfold token_of_word; by rewrite Hu).
    destruct (Py.islower w) eqn:Hl; [|done]. intros H.
    apply IH in H as (-> & -> & -> & Hnd & Hall).
    rewrite <- !app_assoc. simpl. repeat split; [done|]. by constructor.
Qed.

Lemma split_truthy s : Forall (fun w => Py.truthy w = true) (Py.split s).
Proof. apply Forall_forall. intros w Hw. by apply split_words in Hw as [? _]. Qed.

Lemma init_unfold tmpl ctx :
  _validate_context ctx = Ok tt →
  Pattern.__init__ tmpl ctx
  = match Pattern.compile_words tmpl (Py.split tmpl) [] [] 0 with
    | Raise e => Raise e
    | Ok (match_, argnames, placeholders) =>
        let prefix := Pattern.leading_literals match_ in
        let pat := drop (length prefix) match_ in
        Ok (Pattern.Make tmpl ctx placeholders argnames prefix pat
              (Z.of_nat (length pat) - Z.of_nat placeholders))
    end.
Proof. intros H. unfold Pattern.__init__. by rewrite H. Qed.

(** ** Templates beyond ASCII *)

Section UnicodeTemplates.

Variable db : N → Unicode.flags.
Variable str_lower : Unicode.text → Unicode.text.
Variable str_repr : Unicode.text → Unicode.text.

Implicit Types (w : Unicode.text) (words : list Unicode.text).

Lemma uni_split_from_nonempty s : ∀ cur w,
  w ∈ Unicode.split_from db cur s → w ≠ [].
Proof.
  induction s as [|c s IH]; intros cur w; simpl.
  - destruct cur; [by intros ?%elem_of_nil|].
    by intros ->%list_elem_of_singleton.
  - destruct (Unicode.space (db c)).
    + destruct cur as [|x cur]; [apply IH|].
      intros [-> | Hin]%elem_of_cons; [done|]. by eapply IH.
    + apply IH.
Qed.

Lemma uni_split_nonempty s : Forall (fun w => w ≠ []) (Unicode.split db s).
Proof. apply Forall_forall. intros w. apply uni_split_from_nonempty. Qed.

Lemma forallb_false_elem {A} (f : A → bool) (l : list A) :
  forallb f l = false ↔ ∃ x, x ∈ l ∧ f x = false.
Proof.
  induction l as [|x l IH]; simpl.
  - split; [done|]. by intros (x & ?%elem_of_nil & _).
  - rewrite andb_false_iff, IH. split.
    + intros [Hx | (y & Hy & Hfy)]; [exists x | exists y]; split; auto;
        by constructor.
    + intros (y & [-> | Hy]%elem_of_cons & Hfy); eauto.
Qed.

Lemma existsb_true_elem {A} (f : A → bool) (l : list A) :
  existsb f l = true ↔ ∃ x, x ∈ l ∧ f x = true.
Proof.
  rewrite existsb_exists. split; intros (x & Hx & Hfx); exists x;
    (split; [by apply list_elem_of_In|done]).
Qed.

Lemma uni_isalpha_false w :
  w ≠ [] → Unicode.isalpha db w = false ↔ Unicode.has_non_letter db w.
Proof.
  intros Hw. unfold Unicode.isalpha, Unicode.has_non_letter.
  destruct w as [|c w]; [done|]. apply forallb_false_elem.
Qed.

Lemma uni_placeholder_names_cons w words :
  Unicode.placeholder_names db str_lower (w :: words)
  = if Unicode.isupper db w
    then str_lower w :: Unicode.placeholder_names db str_lower words
    else Unicode.placeholder_names db str_lower words.
Proof.
  unfold Unicode.placeholder_names. simpl. by destruct (Unicode.isupper db w).
Qed.

(** The loop of [__init__] raises, and then InvalidCommand, exactly when a
    word has a character that is not alphabetic, or is neither in capitals
    nor in lowercase, or when a name comes twice; [argnames] holds the
    names met so far. *)
Lemma uni_compile_words_raises orig words : ∀ match_ argnames n,
  Forall (fun w => w ≠ []) words →
  NoDup argnames →
  ((∃ e, Unicode.compile_words db str_lower str_repr orig words match_ argnames n
         = Unicode.Raises e)
   ↔ (∃ w, w ∈ words ∧ Unicode.has_non_letter db w)
     ∨ (∃ w, w ∈ words ∧ ¬ Unicode.one_case db w)
     ∨ ¬ NoDup (argnames ++ Unicode.placeholder_names db str_lower words))
  ∧ (∀ e, Unicode.compile_words db str_lower str_repr orig words match_ argnames n
          = Unicode.Raises e →
          ∃ msg, e = Unicode.InvalidCommand msg).
Proof.
  induction words as [|w words IH]; intros match_ argnames n Hne Hnd.
  { simpl. split; [|done]. split; [by intros [? ?]|].
    intros [(w & ?%elem_of_nil & _) | [(w & ?%elem_of_nil & _) | H]]; [done..|].
    rewrite app_nil_r in H. done. }
  apply Forall_cons in Hne as [Hw Hne]. cbn [Unicode.compile_words].
  rewrite uni_placeholder_names_cons.
  destruct (Unicode.isalpha db w) eqn:Ha; cbn [negb].
  2:{ split; [|intros e [= <-]; eauto]. split; [|eauto]. intros _. left.
      exists w. split; [constructor|]. by apply uni_isalpha_false. }
  assert (¬ Unicode.has_non_letter db w) as Hletters.
  { rewrite <- uni_isalpha_false by done. congruence. }
  assert (∀ P : Unicode.text → Prop, ¬ P w →
            ((∃ w', w' ∈ w :: words ∧ P w') ↔ (∃ w', w' ∈ words ∧ P w')))
    as Hskip.
  { intros P HP. split.
    - intros (w' & [-> | Hin]%elem_of_cons & Hbad); [done|eauto].
    - intros (w' & Hin & Hbad). exists w'. split; [by constructor|done]. }
  destruct (Unicode.isupper db w) eqn:Hu.
  - case_bool_decide as Hin.
    + split; [|intros e [= <-]; eauto]. split; [|eauto]. intros _. right; right.
      rewrite NoDup_app. intros (_ & Hdis & _). apply (Hdis _ Hin). constructor.
    + rewrite (Hskip _ Hletters).
      rewrite (Hskip (fun w => ¬ Unicode.one_case db w))
        by (intros H; apply H; by left).
      destruct (IH (match_ ++ [Unicode.Placeholder (str_lower w)])
                  (argnames ++ [str_lower w]) (S n) Hne) as [IH1 IH2].
      { apply NoDup_app. split; [done|]. split; [|apply NoDup_singleton].
        intros x Hx ->%list_elem_of_singleton. done. }
      rewrite <- app_assoc in IH1. done.
  - destruct (Unicode.islower db w) eqn:Hl.
    + rewrite (Hskip _ Hletters).
      rewrite (Hskip (fun w => ¬ Unicode.one_case db w))
        by (intros H; apply H; by right).
      by apply IH.
    + split; [|intros e [= <-]; eauto]. split; [|eauto]. intros _. right; left.
      exists w. split; [constructor|]. unfold Unicode.one_case.
      intros [?|?]; congruence.
Qed.

Lemma uni_init_raises tmpl ctx :
  _validate_context ctx = Ok tt →
  (∃ msg, Unicode.__init__ db str_lower str_repr tmpl ctx
          = Unicode.Raises (Unicode.InvalidCommand msg))
  ↔ (∃ w, w ∈ Unicode.split db tmpl ∧ Unicode.has_non_letter db w)
    ∨ (∃ w, w ∈ Unicode.split db tmpl ∧ ¬ Unicode.one_case db w)
    ∨ ¬ NoDup (Unicode.placeholder_names db str_lower (Unicode.split db tmpl)).
Proof.
  intros Hctx. unfold Unicode.__init__. rewrite Hctx.
  destruct (uni_compile_words_raises tmpl (Unicode.split db tmpl) [] [] 0
              (uni_split_nonempty tmpl) (NoDup_nil_2)) as [Hiff Hkind].
  rewrite app_nil_l in Hiff. rewrite <- Hiff.
  destruct (Unicode.compile_words db str_lower str_repr tmpl
              (Unicode.split db tmpl) [] [] 0) as [[[m a] n]|e] eqn:Hcw.
  - split; [by intros [? ?]|by intros [? ?]].
  - destruct (Hkind e eq_refl) as [msg ->]. split; eauto.
Qed.

End UnicodeTemplates.

Section UnicodeCase.

Variable db : N → Unicode.flags.
Implicit Types (w : Unicode.text).

(** For a word of cased letters, as every word of ASCII letters is, to be
    neither in capitals nor in lowercase is to mix the two cases. *)
Lemma uni_cased_mixes w :
  w ≠ [] → Unicode.cased_letters db w →
  ¬ Unicode.one_case db w ↔ Unicode.mixes_case db w.
Proof.
  intros Hne Hcased. unfold Unicode.one_case, Unicode.mixes_case.
  destruct w as [|c w]; [done|]. destruct w as [|c' w].
  - destruct (Hcased c) as (_ & _ & Hc); [constructor|].
    cbn [Unicode.isupper Unicode.islower]. split.
    + intros Hnot. exfalso. apply Hnot.
      destruct (Unicode.lower (db c)); simpl in Hc; auto.
    + intros [(x & ->%list_elem_of_singleton & Hu)
                (y & ->%list_elem_of_singleton & Hl)] _.
      rewrite Hl in Hc. simpl in Hc. congruence.
  - set (l := c :: c' :: w) in *.
    assert (Unicode.isupper db l
            = negb (existsb (fun c => Unicode.lower (db c) || Unicode.title (db c)) l)
              && existsb (fun c => Unicode.upper (db c)) l) as -> by done.
    assert (Unicode.islower db l
            = negb (existsb (fun c => Unicode.upper (db c) || Unicode.title (db c)) l)
              && existsb (fun c => Unicode.lower (db c)) l) as -> by done.
    assert (∀ f : N → bool,
              existsb (fun c => f c || Unicode.title (db c)) l = existsb f l)
      as Htitle.
    { intros f. apply eq_true_iff_eq. rewrite !existsb_true_elem.
      split; intros (x & Hx & Hfx); exists x; (split; [done|]).
      - destruct (Hcased x Hx) as (_ & Ht & _). rewrite Ht in Hfx.
        by rewrite orb_false_r in Hfx.
      - by rewrite Hfx. }
    rewrite !Htitle. rewrite <- !existsb_true_elem.
    assert (existsb (fun c => Unicode.upper (db c)) l = true
            ∨ existsb (fun c => Unicode.lower (db c)) l = true) as Hsome.
    { destruct (Hcased c) as (_ & _ & Hc); [constructor|].
      destruct (Unicode.lower (db c)) eqn:Hl; simpl in Hc.
      - right. apply existsb_true_elem. exists c. split; [constructor|done].
      - left. apply existsb_true_elem. exists c. split; [constructor|done]. }
    destruct (existsb (fun c => Unicode.upper (db c)) l),
      (existsb (fun c => Unicode.lower (db c)) l); simpl; intuition congruence.
Qed.

(** What [str.isupper] and [str.islower] say of a word, in terms of its
    characters. *)
Lemma uni_one_case_chars w :
  Unicode.of_one_case_each db w →
  (Unicode.isupper db w = true ↔ Unicode.in_capitals db w)
  ∧ (Unicode.islower db w = true ↔ Unicode.in_lowercase db w).
Proof.
  intros Hex. unfold Unicode.in_capitals, Unicode.in_lowercase.
  destruct w as [|c w].
  { cbn. split; (split; [done|]); by intros [(c & ?%elem_of_nil & _) _]. }
  destruct w as [|c' w].
  - destruct (Hex c) as [Hup Hlow]; [constructor|].
    cbn [Unicode.isupper Unicode.islower]. split; split.
    + intros Hu. split; [exists c; split; [constructor|done]|].
      intros x ->%list_elem_of_singleton. by apply Hup.
    + by intros [(x & ->%list_elem_of_singleton & Hu) _].
    + intros Hl. split; [exists c; split; [constructor|done]|].
      intros x ->%list_elem_of_singleton. split; [|by apply Hlow].
      destruct (Unicode.upper (db c)) eqn:Hu; [|done].
      destruct (Hup eq_refl) as [? _]. congruence.
    + by intros [(x & ->%list_elem_of_singleton & Hl) _].
  - set (l := c :: c' :: w) in *.
    assert (Unicode.isupper db l
            = negb (existsb (fun c => Unicode.lower (db c) || Unicode.title (db c)) l)
              && existsb (fun c => Unicode.upper (db c)) l) as -> by done.
    assert (Unicode.islower db l
            = negb (existsb (fun c => Unicode.upper (db c) || Unicode.title (db c)) l)
              && existsb (fun c => Unicode.lower (db c)) l) as -> by done.
    assert (∀ f g : N → bool,
              negb (existsb (fun c => f c || g c) l) = true
              ↔ ∀ x, x ∈ l → f x = false ∧ g x = false) as Hnone.
    { intros f g. rewrite negb_true_iff. split.
      - intros Hno x Hx. apply orb_false_iff.
        destruct (f x || g x) eqn:Hfx; [|done].
        assert (existsb (fun c => f c || g c) l = true)
          by (apply existsb_true_elem; eauto). congruence.
      - intros Hall. apply not_true_iff_false.
        intros (x & Hx & Hfx)%existsb_true_elem.
        destruct (Hall x Hx) as [Hf Hg]. by rewrite Hf, Hg in Hfx. }
    rewrite !andb_true_iff, !Hnone, !existsb_true_elem. tauto.
Qed.

End UnicodeCase.

(** What the functions read of the database: the entries of the characters
    of the template. *)
Section DatabaseAgreement.

Variables (db db' : N → Unicode.flags).
Variables (str_lower str_lower' : Unicode.text → Unicode.text).
Variable str_repr : Unicode.text → Unicode.text.

Lemma uni_split_from_agree s : ∀ cur,
  (∀ c, c ∈ s → db c = db' c) →
  Unicode.split_from db cur s = Unicode.split_from db' cur s.
Proof.
  induction s as [|c s IH]; intros cur Hs; [done|]. simpl.
  rewrite <- (Hs c) by constructor.
  assert (∀ c', c' ∈ s → db c' = db' c') as Hs'
    by (intros c' Hc'; apply Hs; by constructor).
  destruct (Unicode.space (db c)); [|by apply IH].
  destruct cur; by rewrite IH.
Qed.

Lemma uni_split_from_chars s : ∀ cur w c,
  w ∈ Unicode.split_from db cur s → c ∈ w → c ∈ cur ∨ c ∈ s.
Proof.
  induction s as [|x s IH]; intros cur w c; simpl.
  - destruct cur; [by intros ?%elem_of_nil|].
    intros ->%list_elem_of_singleton. by left.
  - destruct (Unicode.space (db x)).
    + destruct cur as [|y cur].
      * intros Hw Hc. destruct (IH _ _ _ Hw Hc) as [?%elem_of_nil|?]; [done|].
        right. by constructor.
      * intros [-> | Hw]%elem_of_cons Hc; [by left|].
        destruct (IH _ _ _ Hw Hc) as [?%elem_of_nil|?]; [done|].
        right. by constructor.
    + intros Hw Hc. destruct (IH _ _ _ Hw Hc) as [Hin|?].
      * apply elem_of_app in Hin as [?| ->%list_elem_of_singleton]; [by left|].
        right. constructor.
      * right. by constructor.
Qed.

Lemma uni_word_agree w :
  (∀ c, c ∈ w → db c = db' c) →
  Unicode.isalpha db w = Unicode.isalpha db' w
  ∧ Unicode.isupper db w = Unicode.isupper db' w
  ∧ Unicode.islower db w = Unicode.islower db' w.
Proof.
  intros Hw.
  assert (∀ f : Unicode.flags → bool,
            forallb (fun c => f (db c)) w = forallb (fun c => f (db' c)) w
            ∧ existsb (fun c => f (db c)) w = existsb (fun c => f (db' c)) w)
    as Hf.
  { intros f. induction w as [|c w IH]; [done|]. simpl.
    rewrite <- (Hw c) by constructor.
    destruct IH as [-> ->]; [|done]. intros c' Hc'. apply Hw. by constructor. }
  unfold Unicode.isalpha, Unicode.isupper, Unicode.islower.
  destruct w as [|c w]; [done|].
  destruct w as [|c' w].
  - rewrite <- (Hw c) by constructor. simpl. by rewrite <- (Hw c) by constructor.
  - rewrite (proj1 (Hf Unicode.alpha)).
    rewrite (proj2 (Hf (fun k => Unicode.lower k || Unicode.title k))).
    rewrite (proj2 (Hf (fun k => Unicode.upper k || Unicode.title k))).
    rewrite (proj2 (Hf Unicode.upper)), (proj2 (Hf Unicode.lower)). done.
Qed.

Lemma uni_compile_words_agree orig words : ∀ match_ argnames n,
  (∀ w c, w ∈ words → c ∈ w → db c = db' c) →
  (∀ w, w ∈ words → str_lower w = str_lower' w) →
  Unicode.compile_words db str_lower str_repr orig words match_ argnames n
  = Unicode.compile_words db' str_lower' str_repr orig words match_ argnames n.
Proof.
  induction words as [|w words IH]; intros match_ argnames n Hdb Hlow; [done|].
  cbn [Unicode.compile_words].
  destruct (uni_word_agree w) as (-> & -> & ->).
  { intros c Hc. apply (Hdb w); [constructor|done]. }
  rewrite <- (Hlow w) by constructor.
  assert (∀ m a k,
            Unicode.compile_words db str_lower str_repr orig words m a k
            = Unicode.compile_words db' str_lower' str_repr orig words m a k)
    as Hrest.
  { intros m a k. apply IH.
    - intros w' c Hw'. apply Hdb. by constructor.
    - intros w' Hw'. apply Hlow. by constructor. }
  by rewrite !Hrest.
Qed.

Lemma uni_init_agree tmpl ctx :
  (∀ c, c ∈ tmpl → db c = db' c) →
  (∀ w, (∀ c, c ∈ w → c ∈ tmpl) → str_lower w = str_lower' w) →
  Unicode.__init__ db str_lower str_repr tmpl ctx
  = Unicode.__init__ db' str_lower' str_repr tmpl ctx.
Proof.
  intros Hdb Hlow. unfold Unicode.__init__, Unicode.split.
  rewrite <- (uni_split_from_agree tmpl [] Hdb).
  assert (∀ w c, w ∈ Unicode.split_from db [] tmpl → c ∈ w → c ∈ tmpl) as Hin.
  { intros w c Hw Hc.
    destruct (uni_split_from_chars _ _ _ _ Hw Hc) as [?%elem_of_nil|?]; done. }
  rewrite (uni_compile_words_agree tmpl (Unicode.split_from db [] tmpl)); [done|..].
  - intros w c Hw Hc. apply Hdb. by apply (Hin w).
  - intros w Hw. apply Hlow. intros c Hc. by apply (Hin w).
Qed.

End DatabaseAgreement.

Lemma of_string_ascii (s : string) :
  ascii_text s → Forall (fun c => (c < 128)%N) (Unicode.of_string s).
Proof.
  intros Hs. apply Forall_forall. intros c Hc. unfold Unicode.of_string in Hc.
  apply list_elem_of_fmap in Hc as (a & -> & Ha). by apply Hs.
Qed.

(** On a template of ASCII characters, the compilation is the one that the
    ASCII tables give. *)
Lemma uni_init_ascii db str_lower str_repr (s : string) ctx :
  Unicode.ascii_range db str_lower → ascii_text s →
  Unicode.__init__ db str_lower str_repr (Unicode.of_string s) ctx
  = Unicode.__init__ Unicode.ascii_flags (fmap Unicode.ascii_lower_char)
      str_repr (Unicode.of_string s) ctx.
Proof.
  intros [Hdb Hlow] Hs. apply of_string_ascii in Hs.
  rewrite Forall_forall in Hs. apply uni_init_agree.
  - intros c Hc. apply Hdb. by apply Hs.
  - intros w Hw. apply Hlow. apply Forall_forall. intros c Hc. apply Hs. by apply Hw.
Qed.

Lemma ascii_text_decide (s : string) :
  forallb (fun c => (Py.code c <? 128)%N) (Py.chars s) = true → ascii_text s.
Proof.
  intros H c Hc. rewrite forallb_forall in H. apply N.ltb_lt.
  apply H. by apply list_elem_of_In.
Qed.

(** C5, as the code has it: for a context that validation accepts,
    compiling a template raises the invalid-pattern error (InvalidCommand)
    exactly when one of its words has a character that is not alphabetic,
    or is neither in capitals nor in lowercase as [str.isupper] and
    [str.islower] judge, or when two placeholders have the same name.  A
    word is in capitals when it has an uppercase character and no
    lowercase or titlecase one, and in lowercase likewise (no character
    being of two cases at once).  A word of cased letters, as a word of
    ASCII letters is, is neither in capitals nor in lowercase exactly when
    it mixes uppercase and lowercase letters.  "take ITEM" compiles, with
    the single placeholder name item; "take Item" and "take ITEM ITEM" do
    not. *)
Theorem pattern_init_invalid db str_lower str_repr (ctx : option string) :
  _validate_context ctx = Ok tt →
  Unicode.ascii_range db str_lower →
  let compile := Unicode.__init__ db str_lower str_repr in
  (∀ tmpl,
     (∃ msg, compile tmpl ctx = Unicode.Raises (Unicode.InvalidCommand msg))
     ↔ (∃ w, w ∈ Unicode.split db tmpl ∧ Unicode.has_non_letter db w)
       ∨ (∃ w, w ∈ Unicode.split db tmpl ∧ ¬ Unicode.one_case db w)
       ∨ ¬ NoDup (Unicode.placeholder_names db str_lower (Unicode.split db tmpl)))
  ∧ (∀ w, Unicode.of_one_case_each db w →
       Unicode.one_case db w
       ↔ Unicode.in_capitals db w ∨ Unicode.in_lowercase db w)
  ∧ (∀ tmpl w, w ∈ Unicode.split db tmpl → Unicode.cased_letters db w →
       ¬ Unicode.one_case db w ↔ Unicode.mixes_case db w)
  ∧ (∃ p, compile (Unicode.of_string "take ITEM") ctx = Unicode.Returns p
          ∧ Unicode.argnames p = [Unicode.of_string "item"]
          ∧ Unicode.placeholders p = 1)
  ∧ (∃ msg, compile (Unicode.of_string "take Item") ctx
            = Unicode.Raises (Unicode.InvalidCommand msg))
  ∧ (∃ msg, compile (Unicode.of_string "take ITEM ITEM") ctx
            = Unicode.Raises (Unicode.InvalidCommand msg)).
Proof.
  intros Hctx Hascii compile. unfold compile.
  split; [intros tmpl; by apply uni_init_raises|].
  split.
  { intros w Hw. unfold Unicode.one_case.
    destruct (uni_one_case_chars db w Hw) as [-> ->]. done. }
  split.
  { intros tmpl w Hw. apply uni_cased_mixes.
    by apply (uni_split_from_nonempty db tmpl [] w). }
  rewrite !(uni_init_ascii db str_lower str_repr _ ctx Hascii)
    by (by apply ascii_text_decide).
  unfold Unicode.__init__. rewrite Hctx.
  split; [eexists; split; [by vm_compute|split; by vm_compute]|].
  split; eexists; by vm_compute.
Qed.

Lemma sample_ascii_range :
  Unicode.ascii_range Unicode.sample_db Unicode.sample_lower.
Proof.
  split; [|done]. intros c Hc. unfold Unicode.sample_db.
  by rewrite (proj2 (N.ltb_lt c 128) Hc).
Qed.

(** An instance: with no context, "take a1 ITEM" is refused exactly for
    the reasons listed. *)
Lemma pattern_init_invalid_witness :
  let tmpl := Unicode.of_string "take a1 ITEM" in
  let db := Unicode.sample_db in
  _validate_context None = Ok tt
  ∧ Unicode.ascii_range db Unicode.sample_lower
  ∧ ((∃ msg, Unicode.__init__ db Unicode.sample_lower Unicode.sample_repr tmpl None
             = Unicode.Raises (Unicode.InvalidCommand msg))
     ↔ (∃ w, w ∈ Unicode.split db tmpl ∧ Unicode.has_non_letter db w)
       ∨ (∃ w, w ∈ Unicode.split db tmpl ∧ ¬ Unicode.one_case db w)
       ∨ ¬ NoDup (Unicode.placeholder_names db Unicode.sample_lower
                    (Unicode.split db tmpl))).
Proof.
  intros tmpl db. split; [reflexivity|]. split; [exact sample_ascii_range|].
  apply (proj1 (pattern_init_invalid Unicode.sample_db Unicode.sample_lower
                  Unicode.sample_repr None eq_refl sample_ascii_range) tmpl).
Defined.

(** C5 as stated fails on a word of letters that have no case: the
    template made of the ideograph U+4E2D alone is refused, as neither in
    capitals nor in lowercase, although its one word has no character that
    is not alphabetic, mixes no uppercase letter with a lowercase one (it
    has neither), and names no placeholder. *)
Lemma caseless_word_refused :
  let tmpl : Unicode.text := [Unicode.zhong] in
  let db := Unicode.sample_db in
  Unicode.split db tmpl = [tmpl]
  ∧ Unicode.isalpha db tmpl = true
  ∧ Unicode.isupper db tmpl = false
  ∧ Unicode.islower db tmpl = false
  ∧ (∃ msg, Unicode.__init__ db Unicode.sample_lower Unicode.sample_repr tmpl None
            = Unicode.Raises (Unicode.InvalidCommand msg))
  ∧ ¬ ((∃ w, w ∈ Unicode.split db tmpl ∧ Unicode.has_non_letter db w)
       ∨ (∃ w, w ∈ Unicode.split db tmpl ∧ Unicode.mixes_case db w)
       ∨ ¬ NoDup (Unicode.placeholder_names db Unicode.sample_lower
                    (Unicode.split db tmpl))).
Proof.
  intros tmpl db. split; [reflexivity|]. split; [reflexivity|].
  split; [reflexivity|]. split; [reflexivity|].
  split; [eexists; by vm_compute|].
  change (Unicode.split db tmpl) with [tmpl].
  intros [(w & ->%list_elem_of_singleton & c & ->%list_elem_of_singleton & Hc)
         |[(w & ->%list_elem_of_singleton & (c & ->%list_elem_of_singleton & Hc) & _)
          | Hdup]].
  - by vm_compute in Hc.
  - by vm_compute in Hc.
  - apply Hdup. vm_compute. constructor.
Qed.

(** ** Word distributions *)

Lemma word_combinations_unfold have placeholders :
  Pattern.word_combinations have placeholders
  = if (have <? Z.of_nat placeholders)%Z then []
    else if (have =? Z.of_nat placeholders)%Z then [repeat 1%Z placeholders]
    else
      match placeholders with
      | O => []
      | S other_groups =>
          if Nat.eqb placeholders 1 then [[have]]
          else
            flat_map
              (fun take_ =>
                 if (Z.of_nat placeholders - 1 <=? have)%Z
                 then map (cons take_)
                        (Pattern.word_combinations (have - take_) other_groups)
                 else [])
              (Pattern.countdown (Z.to_nat (have - Z.of_nat other_groups)))
      end.
Proof. by destruct placeholders. Qed.

Lemma elem_of_countdown n x :
  x ∈ Pattern.countdown n ↔ (1 ≤ x ≤ Z.of_nat n)%Z.
Proof.
  induction n as [|n IH]; simpl.
  - rewrite elem_of_nil. lia.
  - rewrite elem_of_cons, IH. lia.
Qed.

Lemma countdown_sorted n : StronglySorted (fun x y => (y < x)%Z) (Pattern.countdown n).
Proof.
  induction n as [|n IH]; simpl; constructor; [done|].
  apply Forall_forall. intros x Hx%elem_of_countdown. lia.
Qed.

Lemma sum_repeat_one n : sum_Z (repeat 1%Z n) = Z.of_nat n.
Proof. induction n as [|n IH]; [done|]. simpl. rewrite IH. lia. Qed.

(** Every distribution gives each of the [placeholders] groups at least
    one word and hands out [have] words in all. *)
Lemma word_combinations_sound placeholders : ∀ have combo,
  combo ∈ Pattern.word_combinations have placeholders →
  length combo = placeholders
  ∧ Forall (fun x => (1 ≤ x)%Z) combo
  ∧ sum_Z combo = have.
Proof.
  induction placeholders as [|other IH]; intros have combo;
    rewrite word_combinations_unfold.
  - destruct (have <? Z.of_nat 0)%Z; [by intros ?%elem_of_nil|].
    destruct (have =? Z.of_nat 0)%Z eqn:E; [|by intros ?%elem_of_nil].
    intros ->%list_elem_of_singleton. apply Z.eqb_eq in E. by subst.
  - destruct (have <? Z.of_nat (S other))%Z eqn:E1; [by intros ?%elem_of_nil|].
    destruct (have =? Z.of_nat (S other))%Z eqn:E2.
    { intros ->%list_elem_of_singleton. apply Z.eqb_eq in E2.
      rewrite repeat_length, sum_repeat_one. repeat split; [|done].
      apply Forall_forall. intros x Hx%list_elem_of_In%repeat_spec. lia. }
    apply Z.ltb_ge in E1. apply Z.eqb_neq in E2.
    destruct (Nat.eqb (S other) 1) eqn:E3.
    { intros ->%list_elem_of_singleton. apply Nat.eqb_eq in E3.
      repeat split; [done| |simpl; lia]. constructor; [lia|done]. }
    intros Hin%list_elem_of_In. apply in_flat_map in Hin as (take_ & Htake & Hin).
    apply list_elem_of_In, elem_of_countdown in Htake.
    destruct (Z.of_nat (S other) - 1 <=? have)%Z; [|done].
    apply in_map_iff in Hin as (rest & <- & Hrest%list_elem_of_In).
    apply IH in Hrest as (Hlen & Hpos & Hsum). simpl.
    rewrite Hlen, Hsum. repeat split; [|lia]. constructor; [lia|done].
Qed.

Lemma sorted_flat_map {A B} (R : A → A → Prop) (S : B → B → Prop)
    (f : A → list B) (l : list A) :
  StronglySorted R l →
  (∀ x, x ∈ l → StronglySorted S (f x)) →
  (∀ x y a b, R x y → a ∈ f x → b ∈ f y → S a b) →
  StronglySorted S (flat_map f l).
Proof.
  intros Hl Hblock Hcross. induction Hl as [|x l Hl IH Hx]; simpl; [constructor|].
  apply StronglySorted_app. split; [|split].
  - intros a b Ha Hb%list_elem_of_In. apply in_flat_map in Hb as (y & Hy & Hb).
    apply list_elem_of_In in Hy, Hb. rewrite Forall_forall in Hx.
    eapply Hcross; eauto.
  - apply Hblock. constructor.
  - apply IH. intros y Hy. apply Hblock. by constructor.
Qed.

(** The distributions come in strictly decreasing lexicographic order:
    larger shares for earlier placeholders first. *)
Lemma word_combinations_sorted placeholders : ∀ have,
  StronglySorted lex_gt (Pattern.word_combinations have placeholders).
Proof.
  induction placeholders as [|other IH]; intros have;
    rewrite word_combinations_unfold.
  - destruct (have <? Z.of_nat 0)%Z; [constructor|].
    destruct (have =? Z.of_nat 0)%Z; repeat constructor.
  - destruct (have <? Z.of_nat (S other))%Z; [constructor|].
    destruct (have =? Z.of_nat (S other))%Z; [repeat constructor|].
    destruct (Nat.eqb (S other) 1); [repeat constructor|].
    apply (sorted_flat_map (fun x y => (y < x)%Z)); [apply countdown_sorted|..].
    + intros take_ _. destruct (Z.of_nat (S other) - 1 <=? have)%Z; [|constructor].
      specialize (IH (have - take_)%Z).
      induction IH as [|c l Hl IHl Hc]; simpl; constructor; [done|].
      apply Forall_forall. intros d (d' & <- & Hd)%list_elem_of_In%in_map_iff.
      apply lex_gt_tail. rewrite Forall_forall in Hc. by apply Hc, list_elem_of_In.
    + intros x y a b Hxy Ha Hb.
      destruct (Z.of_nat (S other) - 1 <=? have)%Z; [|by apply elem_of_nil in Ha].
      apply list_elem_of_In, in_map_iff in Ha as (a' & <- & _).
      apply list_elem_of_In, in_map_iff in Hb as (b' & <- & _).
      by constructor.
Qed.

(** When there are at least as many words as placeholders, the first
    distribution gives the first placeholder all the words the others can
    spare. *)
Lemma word_combinations_greedy (k n : nat) :
  head (Pattern.word_combinations (Z.of_nat (S n + k)) (S n))
  = Some (Z.of_nat (S k) :: repeat 1%Z n).
Proof.
  rewrite word_combinations_unfold.
  destruct (Z.ltb_spec (Z.of_nat (S n + k)) (Z.of_nat (S n))) as [|_]; [lia|].
  destruct (Z.eqb_spec (Z.of_nat (S n + k)) (Z.of_nat (S n))) as [Heq|Hne].
  { assert (k = 0) as -> by lia. done. }
  destruct (Nat.eqb_spec (S n) 1) as [Hone|Hmany].
  { assert (n = 0) as -> by lia. simpl. repeat f_equal; lia. }
  replace (Z.to_nat (Z.of_nat (S n + k) - Z.of_nat n)) with (S k) by lia.
  cbn [Pattern.countdown flat_map].
  destruct (Z.leb_spec (Z.of_nat (S n) - 1) (Z.of_nat (S n + k))) as [_|]; [|lia].
  replace (Z.of_nat (S n + k) - Z.of_nat (S k))%Z with (Z.of_nat n) by lia.
  rewrite (word_combinations_unfold (Z.of_nat n) n), Z.ltb_irrefl, Z.eqb_refl.
  done.
Qed.

(** ** The matcher *)

(** [first_match] returns the captures of the first distribution, in the
    order given, whose pass over the suffix completes. *)
Lemma first_match_spec pat inp combos r :
  Pattern.first_match pat combos inp = Some r
  ↔ ∃ pre combo post matches,
      combos = pre ++ combo :: post
      ∧ Forall (fun c => Pattern.walk pat c inp ∅ = None) pre
      ∧ Pattern.walk pat combo inp ∅ = Some matches
      ∧ r = Py.join " " <$> matches.
Proof.
  induction combos as [|c combos IH]; simpl.
  - split; [done|]. intros (pre & combo & post & m & H & _). by destruct pre.
  - destruct (Pattern.walk pat c inp ∅) as [m|] eqn:Hc.
    + split.
      * intros [= <-]. by exists [], c, combos, m.
      * intros (pre & combo & post & m' & H & Hpre & Hwalk & ->).
        destruct pre as [|c' pre]; simplify_eq/=; [done|].
        apply Forall_cons in Hpre as [? _]. congruence.
    + rewrite IH. split.
      * intros (pre & combo & post & m & -> & Hpre & Hwalk & ->).
        exists (c :: pre), combo, post, m. split; [done|]. split; [|done].
        by constructor.
      * intros (pre & combo & post & m & H & Hpre & Hwalk & ->).
        destruct pre as [|c' pre]; simplify_eq/=.
        apply Forall_cons in Hpre as [_ Hpre]. by exists pre, combo, post, m.
Qed.

(** C1: the pattern compiled from "use ITEM on FIXTURE" matches the words
    of "use small brass key on heavy wooden door" with
    item = "small brass key" and fixture = "heavy wooden door".  The
    distributions are tried in decreasing-greedy order, the first
    placeholder with its largest possible share first: here (5,1) and
    (4,2) fail on the literal "on" and (3,3), the split at "on", is the
    first whose pass completes, and it is the one returned. *)
Theorem use_item_on_fixture :
  let input := ["use"; "small"; "brass"; "key"; "on"; "heavy"; "wooden"; "door"] in
  let rest := ["small"; "brass"; "key"; "on"; "heavy"; "wooden"; "door"] in
  ∃ p, Pattern.__init__ "use ITEM on FIXTURE" None = Ok p
    ∧ Pattern.match_ p input
      = Some {[ "item" := "small brass key"; "fixture" := "heavy wooden door" ]}
    ∧ Pattern.word_combinations (7 - Pattern.fixed p) (Pattern.placeholders p)
      = [[5; 1]; [4; 2]; [3; 3]; [2; 4]; [1; 5]]%Z
    ∧ Pattern.walk (Pattern.pattern p) [5; 1]%Z rest ∅ = None
    ∧ Pattern.walk (Pattern.pattern p) [4; 2]%Z rest ∅ = None
    ∧ Pattern.walk (Pattern.pattern p) [3; 3]%Z rest ∅
      = Some {[ "item" := ["small"; "brass"; "key"];
                "fixture" := ["heavy"; "wooden"; "door"] ]}
    ∧ (∀ have n, StronglySorted lex_gt (Pattern.word_combinations have n))
    ∧ (∀ k n : nat,
         head (Pattern.word_combinations (Z.of_nat (S n + k)) (S n))
         = Some (Z.of_nat (S k) :: repeat 1%Z n))
    ∧ (∀ pat combos inp r,
         Pattern.first_match pat combos inp = Some r
         ↔ ∃ pre combo post matches,
             combos = pre ++ combo :: post
             ∧ Forall (fun c => Pattern.walk pat c inp ∅ = None) pre
             ∧ Pattern.walk pat combo inp ∅ = Some matches
             ∧ r = Py.join " " <$> matches).
Proof.
  intros input rest. eexists. split; [by vm_compute|].
  split; [by vm_compute|]. split; [by vm_compute|].
  split; [by vm_compute|]. split; [by vm_compute|]. split; [by vm_compute|].
  split; [intros; apply word_combinations_sorted|].
  split; [apply word_combinations_greedy|].
  intros. apply first_match_spec.
Qed.

(** ** Compiled patterns *)

Lemma init_inv tmpl ctx p :
  Pattern.__init__ tmpl ctx = Ok p →
  _validate_context ctx = Ok tt
  ∧ ∃ match_ argnames n,
      Pattern.compile_words tmpl (Py.split tmpl) [] [] 0 = Ok (match_, argnames, n)
      ∧ p = Pattern.Make tmpl ctx n argnames (Pattern.leading_literals match_)
              (drop (length (Pattern.leading_literals match_)) match_)
              (Z.of_nat (length (drop (length (Pattern.leading_literals match_)) match_))
               - Z.of_nat n).
Proof.
  unfold Pattern.__init__. destruct (_validate_context ctx) as [[]|e]; [|done].
  destruct (Pattern.compile_words tmpl (Py.split tmpl) [] [] 0)
    as [[[m a] n]|e]; [|done].
  intros [= <-]. split; [done|]. by exists m, a, n.
Qed.

Lemma leading_literals_split toks :
  toks = (Pattern.Lit <$> Pattern.leading_literals toks)
         ++ drop (length (Pattern.leading_literals toks)) toks.
Proof.
  induction toks as [|[w|name] toks IH]; simpl; [done| |done]. by f_equal.
Qed.

Lemma token_names_literals ws : token_names (Pattern.Lit <$> ws) = [].
Proof. by induction ws. Qed.

Lemma length_tokens toks :
  length toks = literal_count toks + length (token_names toks).
Proof.
  unfold literal_count, token_names.
  induction toks as [|[w|name] toks IH]; csimpl; [done|..]; rewrite IH; lia.
Qed.

Lemma token_names_nil toks :
  token_names toks = [] → toks = Pattern.Lit <$> Pattern.leading_literals toks.
Proof.
  induction toks as [|[w|name] toks IH]; simpl; [done| |done].
  intros H. f_equal. by apply IH.
Qed.

Lemma init_compiled tmpl ctx p :
  Pattern.__init__ tmpl ctx = Ok p →
  compiled p
  ∧ Pattern.orig_pattern p = tmpl
  ∧ Pattern.pattern_context p = ctx
  ∧ (Pattern.Lit <$> Pattern.prefix p) ++ Pattern.pattern p
    = token_of_word <$> Py.split tmpl.
Proof.
  intros (_ & m & a & n & Hc & ->)%init_inv.
  apply compile_words_ok in Hc as (-> & -> & -> & Hnd & _). simpl in *.
  set (toks := token_of_word <$> Py.split tmpl) in *.
  assert (token_names (drop (length (Pattern.leading_literals toks)) toks)
          = token_names toks) as Hnames.
  { rewrite (leading_literals_split toks) at 3.
    by rewrite token_names_app, token_names_literals. }
  split; [|by rewrite <- leading_literals_split].
  split; simpl.
  - by apply Hnd, NoDup_nil_2.
  - done.
  - done.
  - rewrite (length_tokens (drop _ toks)), Hnames. lia.
  - intros Hnil. rewrite (token_names_nil toks Hnil) at 2.
    rewrite (token_names_nil toks Hnil) at 1.
    rewrite drop_ge; [done|]. rewrite length_fmap.
    rewrite <- (token_names_nil toks Hnil). done.
Qed.

Lemma literal_tokens_inj (ws : list string) : ∀ l : list string,
  token_of_word <$> ws = Pattern.Lit <$> l → l = ws.
Proof.
  induction ws as [|w ws IH]; intros [|x l]; csimpl; try done.
  unfold token_of_word at 1. destruct (Py.isupper w); [done|].
  intros [= -> H]. f_equal. by apply IH.
Qed.

Lemma match_unfold p ws :
  Pattern.match_ p ws
  = if Nat.ltb (length ws) (length (Pattern.argnames p)) then None
    else if bool_decide (take (length (Pattern.prefix p)) ws ≠ Pattern.prefix p)
    then None
    else
      let rest := drop (length (Pattern.prefix p)) ws in
      if bool_decide (rest = []) && bool_decide (Pattern.pattern p = [])
      then Some ∅
      else if negb (Bool.eqb (negb (bool_decide (rest = [])))
                             (negb (bool_decide (Pattern.pattern p = []))))
      then None
      else Pattern.first_match (Pattern.pattern p)
             (Pattern.word_combinations
                (Z.of_nat (length rest) - Pattern.fixed p) (Pattern.placeholders p))
             rest.
Proof. reflexivity. Qed.

(** C8: a pattern compiled from a template without placeholders has the
    words of the template as its literal sequence, and [match] succeeds on
    an input exactly when the input is that sequence, with no capture.
    The pattern "quit" matches ["quit"] and does not match
    ["quit"; "now"]. *)
Theorem match_without_placeholders tmpl ctx p :
  Pattern.__init__ tmpl ctx = Ok p →
  Pattern.placeholders p = 0 →
  Pattern.prefix p = Py.split tmpl
  ∧ Pattern.pattern p = []
  ∧ (∀ ws, is_Some (Pattern.match_ p ws) ↔ ws = Pattern.prefix p)
  ∧ Pattern.match_ p (Pattern.prefix p) = Some ∅
  ∧ (∃ q, Pattern.__init__ "quit" None = Ok q
          ∧ Pattern.match_ q ["quit"] = Some ∅
          ∧ Pattern.match_ q ["quit"; "now"] = None).
Proof.
  intros Hinit Hzero. destruct (init_compiled _ _ _ Hinit) as ([] & _ & _ & Htoks).
  assert (Pattern.argnames p = []) as Hnil.
  { apply nil_length_inv. congruence. }
  specialize (compiled_zero0 Hnil). rewrite compiled_zero0, app_nil_r in Htoks.
  assert (∀ ws, Pattern.match_ p ws
                = if bool_decide (ws = Pattern.prefix p) then Some ∅ else None)
    as Hmatch.
  { intros ws. rewrite match_unfold, Hnil, compiled_zero0. simpl.
    case_bool_decide as Hpre.
    - rewrite bool_decide_false; [done|]. intros ->. by rewrite firstn_all in Hpre.
    - rewrite andb_true_r.
      case_bool_decide as Hrest.
      + rewrite bool_decide_true; [done|].
        by rewrite <- (take_drop (length (Pattern.prefix p)) ws), Hrest, app_nil_r.
      + simpl. rewrite bool_decide_false; [done|]. intros ->.
        by rewrite drop_all in Hrest. }
  split; [apply literal_tokens_inj; by rewrite Htoks|]. split; [done|].
  split; [|split].
  - intros ws. rewrite Hmatch. case_bool_decide; split; try done.
  - rewrite Hmatch. by rewrite bool_decide_true.
  - eexists. split; [by vm_compute|]. split; by vm_compute.
Qed.

(** An instance: the pattern "quit" and the input ["quit"; "now"]. *)
Lemma match_without_placeholders_witness :
  Pattern.__init__ "quit" None = Ok quit_pattern
  ∧ Pattern.placeholders quit_pattern = 0
  ∧ (is_Some (Pattern.match_ quit_pattern ["quit"; "now"])
     ↔ ["quit"; "now"] = Pattern.prefix quit_pattern).
Proof.
  split; [reflexivity|]. split; [reflexivity|].
  apply (proj1 (proj2 (proj2
           (match_without_placeholders "quit" None quit_pattern eq_refl eq_refl)))
           ["quit"; "now"]).
Defined.

(** ** Letter case of the words that reach the matcher *)

Lemma lower_char_no_upper c : Py.is_upper_char (Py.lower_char c) = false.
Proof.
  unfold Py.lower_char. destruct (Py.is_upper_char c) eqn:Hc; [|done].
  unfold Py.is_upper_char, Py.code in *.
  apply andb_true_iff in Hc as [H1%N.leb_le H2%N.leb_le].
  rewrite N_ascii_embedding by lia.
  apply andb_false_iff. right. apply N.leb_gt. lia.
Qed.

Lemma lower_no_upper s : no_upper (Py.lower s).
Proof.
  unfold no_upper. induction s as [|c s IH]; [done|]. simpl.
  by rewrite lower_char_no_upper, IH.
Qed.

Lemma lower_fixed w : no_upper w → Py.lower w = w.
Proof.
  unfold no_upper. induction w as [|c w IH]; [done|]. simpl.
  intros [Hc Hw]%orb_false_iff. unfold Py.lower_char. rewrite Hc. by rewrite IH.
Qed.

Lemma split_from_no_upper s : ∀ cur w,
  no_upper s → no_upper cur → w ∈ Py.split_from cur s → no_upper w.
Proof.
  unfold no_upper. induction s as [|c s IH]; intros cur w; simpl.
  - intros _ Hcur. destruct (Py.truthy cur); [|by intros ?%elem_of_nil].
    by intros ->%list_elem_of_singleton.
  - intros [Hc Hs]%orb_false_iff Hcur. destruct (Py.is_space_char c).
    + destruct (Py.truthy cur).
      * intros [-> | Hw]%elem_of_cons; [done|]. by apply (IH "").
      * by apply (IH "").
    + apply IH; [done|]. rewrite exists_chars_app, Hcur. simpl. by rewrite Hc.
Qed.

(** The words the dispatcher hands to the matcher are fixed by [lower]. *)
Lemma tokens_lowercase cmd :
  Forall (fun w => Py.lower w = w) (Py.split (Py.lower cmd)).
Proof.
  apply Forall_forall. intros w Hw. apply lower_fixed.
  by apply (split_from_no_upper (Py.lower cmd) "" w (lower_no_upper cmd)).
Qed.

Lemma islower_fixed w : Py.islower w = true → Py.lower w = w.
Proof.
  unfold Py.islower. intros [_ H%negb_true_iff]%andb_true_iff. by apply lower_fixed.
Qed.

Lemma leading_literals_words (ws : list string) :
  Forall (fun w => Py.isalpha w = true
                   ∧ (Py.isupper w = false → Py.islower w = true)) ws →
  Forall (fun w => Py.lower w = w) (Pattern.leading_literals (token_of_word <$> ws)).
Proof.
  induction 1 as [|w ws [_ Hw] _ IH]; csimpl; [constructor|].
  unfold token_of_word at 1. destruct (Py.isupper w) eqn:Hu; [constructor|].
  constructor; [|done]. by apply islower_fixed, Hw.
Qed.

(** The literal prefix of a compiled pattern is in lowercase. *)
Lemma init_prefix_lowercase tmpl ctx p :
  Pattern.__init__ tmpl ctx = Ok p →
  Forall (fun w => Py.lower w = w) (Pattern.prefix p).
Proof.
  intros (_ & m & a & n & Hc & ->)%init_inv.
  apply compile_words_ok in Hc as (-> & _ & _ & _ & Hwords). simpl.
  by apply leading_literals_words.
Qed.

Lemma lowercase_fixed_list (l : list string) :
  Forall (fun w => Py.lower w = w) l → Py.lower <$> l = l.
Proof. induction 1 as [|w l Hw _ IH]; csimpl; [done|]. by rewrite Hw, IH. Qed.

(** C9: a compiled pattern does not match an input with fewer words than
    it has placeholders, nor an input whose leading words differ from the
    literal prefix when letter case is ignored.  The test in the code is
    list inequality, which also rejects a prefix that differs only by
    case; on the lowercased words that the dispatcher passes, both
    comparisons agree. *)
Theorem match_fast_reject tmpl ctx p ws :
  Pattern.__init__ tmpl ctx = Ok p →
  (length ws < Pattern.placeholders p → Pattern.match_ p ws = None)
  ∧ (¬ equal_ignoring_case (take (length (Pattern.prefix p)) ws) (Pattern.prefix p) →
     Pattern.match_ p ws = None)
  ∧ (take (length (Pattern.prefix p)) ws ≠ Pattern.prefix p →
     Pattern.match_ p ws = None)
  ∧ (∀ cmd, let tokens := Py.split (Py.lower cmd) in
       equal_ignoring_case (take (length (Pattern.prefix p)) tokens) (Pattern.prefix p)
       ↔ take (length (Pattern.prefix p)) tokens = Pattern.prefix p).
Proof.
  intros Hinit. destruct (init_compiled _ _ _ Hinit) as ([] & _).
  pose proof (init_prefix_lowercase _ _ _ Hinit) as Hlow.
  assert (take (length (Pattern.prefix p)) ws ≠ Pattern.prefix p →
          Pattern.match_ p ws = None) as Hexact.
  { intros Hne. rewrite match_unfold. destruct (Nat.ltb _ _); [done|].
    by rewrite bool_decide_true. }
  split; [|split; [|split; [done|]]].
  - intros Hlt. rewrite match_unfold.
    rewrite compiled_count0 in Hlt. apply Nat.ltb_lt in Hlt. by rewrite Hlt.
  - intros Hne. apply Hexact. intros Heq. apply Hne. unfold equal_ignoring_case.
    by rewrite Heq.
  - intros cmd tokens. unfold equal_ignoring_case.
    rewrite (lowercase_fixed_list _ Hlow).
    rewrite lowercase_fixed_list; [done|].
    apply Forall_take. apply tokens_lowercase.
Qed.

(** An instance: the pattern "quit" rejects ["exit"] on its prefix. *)
Lemma match_fast_reject_witness :
  Pattern.__init__ "quit" None = Ok quit_pattern
  ∧ ¬ equal_ignoring_case
        (take (length (Pattern.prefix quit_pattern)) ["exit"])
        (Pattern.prefix quit_pattern)
  ∧ Pattern.match_ quit_pattern ["exit"] = None.
Proof.
  assert (¬ equal_ignoring_case
              (take (length (Pattern.prefix quit_pattern)) ["exit"])
              (Pattern.prefix quit_pattern)) as Hne
    by (vm_compute; discriminate).
  split; [reflexivity|]. split; [exact Hne|].
  exact (proj1 (proj2 (match_fast_reject "quit" None quit_pattern ["exit"] eq_refl))
           Hne).
Defined.

(** ** Replaying a match *)

Lemma split_on_from_word sep w : ∀ cur s,
  Py.exists_chars (fun c => bool_decide (c = sep)) w = false →
  Py.split_on_from sep cur (w +:+ s) = Py.split_on_from sep (cur +:+ w) s.
Proof.
  induction w as [|c w IH]; intros cur s; simpl.
  - intros _. by rewrite app_empty_l, app_empty_r.
  - intros [Hc Hw]%orb_false_iff. rewrite Hc.
    rewrite IH by done. by rewrite app_assoc_str.
Qed.

Lemma split_on_from_sep sep cur s :
  Py.split_on_from sep cur (String sep s) = cur :: Py.split_on_from sep "" s.
Proof. simpl. by rewrite bool_decide_true. Qed.

(** Splitting on single spaces undoes the join of one or more words that
    have no space. *)
Lemma split_on_join (l : list string) :
  l ≠ [] → Forall no_space l → Py.split_on " " (Py.join " " l) = l.
Proof.
  unfold Py.split_on. induction l as [|x l IH]; [done|]. intros _ Hl.
  apply Forall_cons in Hl as [Hx Hl]. destruct l as [|y l].
  - simpl. rewrite <- (app_empty_r x) at 1. by rewrite split_on_from_word.
  - change (Py.join " " (x :: y :: l)) with (x +:+ " " +:+ Py.join " " (y :: l)).
    rewrite split_on_from_word by done.
    change (" " +:+ Py.join " " (y :: l)) with (String " " (Py.join " " (y :: l))).
    rewrite split_on_from_sep, app_empty_l. f_equal. by apply IH.
Qed.

Lemma sum_Z_nonneg tk : Forall (fun x => (1 ≤ x)%Z) tk → (0 ≤ sum_Z tk)%Z.
Proof. induction 1 as [|x tk Hx _ IH]; simpl; lia. Qed.

Lemma literal_count_cons_lit w pat :
  literal_count (Pattern.Lit w :: pat) = S (literal_count pat).
Proof. reflexivity. Qed.

Lemma literal_count_cons_placeholder name pat :
  literal_count (Pattern.Placeholder name :: pat) = literal_count pat.
Proof. reflexivity. Qed.

(** What a completed pass tells: captures outside the suffix are left as
    they were, each placeholder of the suffix holds a run of one or more
    consecutive words of [inp], and the suffix, expanded with the
    captures, is the part of [inp] that the pass has read. *)
Lemma walk_spec pat : ∀ tk inp acc m,
  Pattern.walk pat tk inp acc = Some m →
  NoDup (token_names pat) →
  Forall (fun x => (1 ≤ x)%Z) tk →
  length tk = length (token_names pat) →
  (∀ name, name ∉ token_names pat → m !! name = acc !! name)
  ∧ (∀ name, name ∈ token_names pat →
       ∃ i k, 0 < k ∧ i + k ≤ length inp
              ∧ m !! name = Some (take k (drop i inp)))
  ∧ literal_count pat + Z.to_nat (sum_Z tk) ≤ length inp
  ∧ expand pat m ++ drop (literal_count pat + Z.to_nat (sum_Z tk)) inp = inp.
Proof.
  induction pat as [|[cword|name] pat IH]; intros tk inp acc m Hwalk Hnd Hpos Hlen.
  - simpl in Hwalk. injection Hwalk as <-. destruct tk; [|done]. simpl.
    split; [done|]. split; [by intros ? ?%elem_of_nil|]. split; [lia|done].
  - simpl in Hwalk. destruct inp as [|word inp]; [done|].
    case_bool_decide as Hw; [done|]. subst word.
    destruct (IH _ _ _ _ Hwalk Hnd Hpos Hlen) as (Hout & Hin & Hle & Hexp).
    rewrite literal_count_cons_lit. split; [done|]. split; [|split].
    + intros name Hname. destruct (Hin name Hname) as (i & k & ? & ? & ?).
      exists (S i), k. simpl. repeat split; [done|lia|done].
    + simpl. lia.
    + simpl. by rewrite Hexp.
  - simpl in Hwalk. destruct tk as [|count tk]; [done|].
    apply Forall_cons in Hpos as [Hcount Hpos].
    destruct (Nat.ltb_spec (length inp) (Z.to_nat count)) as [|Hn]; [done|].
    change (token_names (Pattern.Placeholder name :: pat))
      with (name :: token_names pat) in *.
    apply NoDup_cons in Hnd as [Hfresh Hnd]. simpl in Hlen.
    destruct (IH _ _ _ _ Hwalk Hnd Hpos) as (Hout & Hin & Hle & Hexp); [lia|].
    pose proof (sum_Z_nonneg _ Hpos) as Hsum.
    rewrite length_drop in Hle.
    assert (m !! name = Some (take (Z.to_nat count) inp)) as Hname.
    { rewrite (Hout name Hfresh). apply lookup_insert_eq. }
    rewrite literal_count_cons_placeholder.
    replace (literal_count pat + Z.to_nat (sum_Z (count :: tk)))
      with (Z.to_nat count + (literal_count pat + Z.to_nat (sum_Z tk)))
      by (simpl; lia).
    split; [|split; [|split]].
    + intros name' Hname'. apply not_elem_of_cons in Hname' as [Hne Hname'].
      rewrite (Hout name' Hname'). by apply lookup_insert_ne.
    + intros name' [-> | Hname']%elem_of_cons.
      * exists 0, (Z.to_nat count). rewrite drop_0. repeat split; [lia|lia|done].
      * destruct (Hin name' Hname') as (i & k & ? & Hik & Hm).
        rewrite length_drop in Hik. rewrite drop_drop in Hm.
        exists (Z.to_nat count + i), k. repeat split; [done|lia|done].
    + lia.
    + unfold expand in *. cbn [flat_map]. rewrite Hname. simpl.
      rewrite <- drop_drop, <- app_assoc, Hexp. apply take_drop.
Qed.

Lemma no_space_sublist (ws : list string) i k :
  Forall no_space ws → Forall no_space (take k (drop i ws)).
Proof. intros H. by apply Forall_take, Forall_drop. Qed.

(** A successful match, read back: the raw captures behind the result, the
    run of input words each one holds, and the suffix expanded with them. *)
Lemma match_captures tmpl ctx p ws m :
  Pattern.__init__ tmpl ctx = Ok p →
  Pattern.match_ p ws = Some m →
  ∃ raw : gmap string (list string),
    m = Py.join " " <$> raw
    ∧ (∀ name l, raw !! name = Some l →
         name ∈ Pattern.argnames p
         ∧ ∃ i k, 0 < k ∧ i + k ≤ length ws ∧ l = take k (drop i ws))
    ∧ (∀ name, name ∈ Pattern.argnames p → is_Some (raw !! name))
    ∧ Pattern.prefix p ++ expand (Pattern.pattern p) raw = ws.
Proof.
  intros Hinit Hmatch. destruct (init_compiled _ _ _ Hinit) as ([] & _).
  rewrite match_unfold in Hmatch.
  destruct (Nat.ltb _ _); [done|].
  case_bool_decide as Hpre; [done|].
  set (rest := drop (length (Pattern.prefix p)) ws) in *.
  assert (ws = Pattern.prefix p ++ rest) as Hws.
  { unfold rest. rewrite <- Hpre at 1. by rewrite take_drop. }
  cbv zeta in Hmatch.
  destruct (bool_decide (rest = []) && bool_decide (Pattern.pattern p = [])) eqn:E.
  { injection Hmatch as <-. apply andb_true_iff in E as [Hr%bool_decide_eq_true Hp%bool_decide_eq_true].
    exists ∅. split; [by rewrite fmap_empty|]. split; [by intros ? ? ?%lookup_empty_Some|].
    split.
    - intros name Hname. rewrite <- compiled_names0, Hp in Hname.
      by apply elem_of_nil in Hname.
    - rewrite Hp, Hws, Hr. done. }
  destruct (negb _); [done|].
  apply first_match_spec in Hmatch
    as (pre & combo & post & raw & Hcombos & _ & Hwalk & ->).
  assert (combo ∈ Pattern.word_combinations
                    (Z.of_nat (length rest) - Pattern.fixed p)
                    (Pattern.placeholders p)) as Hin.
  { rewrite Hcombos. apply elem_of_app. right. constructor. }
  apply word_combinations_sound in Hin as (Hlen & Hpos & Hsum).
  destruct (walk_spec _ _ _ _ _ Hwalk) as (Hout & Hnames & Hle & Hexp).
  { by rewrite compiled_names0. }
  { done. }
  { rewrite compiled_names0. congruence. }
  pose proof (sum_Z_nonneg _ Hpos) as Hnonneg.
  rewrite compiled_names0 in Hout, Hnames.
  exists raw. split; [done|]. split; [|split].
  - intros name l Hl. destruct (decide (name ∈ Pattern.argnames p)) as [Hname|Hname].
    + split; [done|]. destruct (Hnames name Hname) as (i & k & Hk & Hik & Hraw).
      exists (length (Pattern.prefix p) + i), k.
      assert (length ws = length (Pattern.prefix p) + length rest) as Hlw.
      { rewrite Hws at 1. by rewrite length_app. }
      repeat split; [done|lia|]. rewrite <- drop_drop. fold rest. congruence.
    + rewrite (Hout name Hname), lookup_empty in Hl. done.
  - intros name Hname. destruct (Hnames name Hname) as (i & k & _ & _ & ->). eauto.
  - rewrite Hws. f_equal. etrans; [|exact Hexp].
    rewrite drop_ge, app_nil_r; [done|]. lia.
Qed.

Lemma placeholder_name_listed name pat :
  Pattern.Placeholder name ∈ pat → name ∈ token_names pat.
Proof.
  intros H. unfold token_names. apply list_elem_of_omap.
  by exists (Pattern.Placeholder name).
Qed.

Lemma flat_map_agree {A B} (f g : A → list B) (l : list A) :
  (∀ x, x ∈ l → f x = g x) → flat_map f l = flat_map g l.
Proof.
  induction l as [|x l IH]; intros H; simpl; [done|].
  rewrite (H x) by constructor. f_equal. apply IH. intros y Hy. apply H.
  by constructor.
Qed.

Lemma no_whitespace_no_space w : no_whitespace w → no_space w.
Proof.
  unfold no_whitespace, no_space. rewrite !exists_chars_false.
  intros H c Hc. specialize (H c Hc). case_bool_decide as Heq; [|done].
  subst c. done.
Qed.

(** The words the dispatcher hands to the matcher have no space. *)
Lemma tokens_no_space cmd : Forall no_space (Py.split (Py.lower cmd)).
Proof.
  apply Forall_forall. intros w Hw.
  by apply no_whitespace_no_space, (split_words (Py.lower cmd)).
Qed.

Lemma alpha_no_space w : Py.isalpha w = true → no_space w.
Proof.
  unfold Py.isalpha, no_space. intros [_ Hall]%andb_true_iff.
  rewrite forall_chars_spec in Hall. apply exists_chars_false.
  intros c Hc. specialize (Hall c Hc). case_bool_decide as Heq; [|done].
  subst c. done.
Qed.

Lemma literal_no_space (words : list string) w :
  Forall (fun w => Py.isalpha w = true
                   ∧ (Py.isupper w = false → Py.islower w = true)) words →
  Pattern.Lit w ∈ token_of_word <$> words → no_space w.
Proof.
  intros Hwords (w' & Htok & Hin)%list_elem_of_fmap.
  rewrite Forall_forall in Hwords. destruct (Hwords w' Hin) as [Ha _].
  unfold token_of_word in Htok. destruct (Py.isupper w'); [done|].
  injection Htok as ->. by apply alpha_no_space.
Qed.

(** The literal words of a compiled pattern have no space. *)
Lemma init_literals_no_space tmpl ctx p :
  Pattern.__init__ tmpl ctx = Ok p →
  Forall no_space (Pattern.prefix p)
  ∧ (∀ w, Pattern.Lit w ∈ Pattern.pattern p → no_space w).
Proof.
  intros Hinit. destruct (init_compiled _ _ _ Hinit) as (_ & _ & _ & Htoks).
  apply init_inv in Hinit as (_ & mt & a & n & Hc & _).
  apply compile_words_ok in Hc as (_ & _ & _ & _ & Hwords).
  split.
  - apply Forall_forall. intros w Hw. apply (literal_no_space _ _ Hwords).
    rewrite <- Htoks. apply elem_of_app. left. by apply list_elem_of_fmap_2.
  - intros w Hw. apply (literal_no_space _ _ Hwords).
    rewrite <- Htoks. apply elem_of_app. by right.
Qed.

Lemma split_on_from_fields sep s : ∀ cur w,
  Py.exists_chars (fun c => bool_decide (c = sep)) cur = false →
  w ∈ Py.split_on_from sep cur s →
  Py.exists_chars (fun c => bool_decide (c = sep)) w = false.
Proof.
  induction s as [|c s IH]; intros cur w Hcur; simpl.
  - by intros ->%list_elem_of_singleton.
  - case_bool_decide as Hc.
    + intros [-> | Hw]%elem_of_cons; [done|]. by apply (IH "").
    + apply IH. rewrite exists_chars_app, Hcur. simpl.
      by rewrite bool_decide_false.
Qed.

(** Every word of a replay is free of spaces. *)
Lemma replay_no_space tmpl ctx p m :
  Pattern.__init__ tmpl ctx = Ok p → Forall no_space (replay p m).
Proof.
  intros [Hpre Hlit]%init_literals_no_space. unfold replay.
  apply Forall_app. split; [done|]. apply Forall_forall.
  intros w (k & Hk%list_elem_of_In & Hw%list_elem_of_In)%list_elem_of_In%in_flat_map.
  destruct k as [lit|name].
  - apply list_elem_of_singleton in Hw as ->. by apply Hlit.
  - destruct (m !! name) as [s|]; [|by apply elem_of_nil in Hw].
    by apply (split_on_from_fields " " s "" w).
Qed.

(** C10: when a compiled pattern matches a word list, every captured
    string is the join, with single spaces, of one or more consecutive
    input words; and replaying the pattern (the literal prefix, then the
    suffix with every placeholder replaced by its capture split on single
    spaces) gives back the input word list.  A word list is a list of
    words as [str.split] yields them, free of spaces, which is what the
    dispatcher passes on every input; the replay of a match never has a
    space inside a word, so these are exactly the lists that a replay can
    give back. *)
Theorem match_roundtrip tmpl ctx p ws m :
  Pattern.__init__ tmpl ctx = Ok p →
  Pattern.match_ p ws = Some m →
  (∀ name s, m !! name = Some s →
     ∃ i k, 0 < k ∧ i + k ≤ length ws ∧ s = Py.join " " (take k (drop i ws)))
  ∧ (Forall no_space ws → replay p m = ws)
  ∧ (replay p m = ws → Forall no_space ws)
  ∧ (∀ cmd, Forall no_space (Py.split (Py.lower cmd))).
Proof.
  intros Hinit Hmatch.
  destruct (match_captures _ _ _ _ _ Hinit Hmatch) as (raw & -> & Hraw & Hall & Hexp).
  destruct (init_compiled _ _ _ Hinit) as ([] & _).
  split; [|split; [|split; [|apply tokens_no_space]]].
  - intros name s Hs. rewrite lookup_fmap in Hs.
    destruct (raw !! name) as [l|] eqn:Hl; [|done]. injection Hs as <-.
    destruct (Hraw name l Hl) as (_ & i & k & ? & ? & ->). by exists i, k.
  - intros Hws. unfold replay. etrans; [|exact Hexp]. f_equal. unfold expand.
    apply flat_map_agree. intros [w|name] Hin; [done|].
    apply placeholder_name_listed in Hin. rewrite compiled_names0 in Hin.
    destruct (Hall name Hin) as [l Hl]. rewrite lookup_fmap, Hl. simpl.
    destruct (Hraw name l Hl) as (_ & i & k & Hk & Hik & ->).
    apply split_on_join; [|by apply no_space_sublist].
    intros Hnil%(f_equal length). rewrite length_take, length_drop in Hnil.
    simpl in Hnil. lia.
  - intros <-. by apply (replay_no_space tmpl ctx).
Qed.

(** An instance: "take ITEM" on the words of "take rusty old key". *)
Lemma match_roundtrip_witness :
  let input := ["take"; "rusty"; "old"; "key"] in
  Pattern.__init__ "take ITEM" None = Ok take_pattern
  ∧ Pattern.match_ take_pattern input = Some {[ "item" := "rusty old key" ]}
  ∧ Forall no_space input
  ∧ replay take_pattern {[ "item" := "rusty old key" ]} = input.
Proof.
  intros input.
  assert (Pattern.match_ take_pattern input = Some {[ "item" := "rusty old key" ]})
    as Hmatch by (by vm_compute).
  assert (Forall no_space input) as Hws by (by repeat constructor).
  split; [reflexivity|]. split; [exact Hmatch|]. split; [exact Hws|].
  exact (proj1 (proj2 (match_roundtrip "take ITEM" None take_pattern input _
                         eq_refl Hmatch)) Hws).
Defined.

(** ** Registration *)

Section Registry.

Context {W : Type}.
Implicit Types (c : command W) (l : list (command W)).

(** C6: when the template compiles, [_register] raises InvalidCommand
    exactly when the handler's parameter names and the placeholder names
    together with the keys of the bound arguments are not the same set
    (order and repetition play no part), and the registry is then left as
    it was; when they are the same set, the triple (pattern, handler,
    bound arguments) is appended to the registry. *)
Theorem register_signature_check command_ (func : handler W) context kwargs
    l pattern :
  Pattern.__init__ command_ context = Ok pattern →
  let same_names :=
    ∀ name, name ∈ h_params func
            ↔ name ∈ Pattern.argnames pattern ∨ name ∈ kwargs.*1 in
  ((∃ msg, (_register command_ func context kwargs l).1 = Raise (InvalidCommand msg))
   ↔ ¬ same_names)
  ∧ (¬ same_names → (_register command_ func context kwargs l).2 = l)
  ∧ (same_names →
     _register command_ func context kwargs l
     = (Ok tt, l ++ [(pattern, func, kwargs)])).
Proof.
  intros Hinit same_names. unfold _register. rewrite Hinit.
  assert ((list_to_set (h_params func) : gset string)
          = list_to_set (Pattern.argnames pattern) ∪ list_to_set kwargs.*1
          ↔ same_names) as Hsets.
  { unfold same_names. rewrite set_eq. apply forall_proper. intros name.
    by rewrite elem_of_union, !elem_of_list_to_set. }
  case_bool_decide as Hne; simpl.
  - rewrite Hsets in Hne. split; [|split]; [|done|done]. split; eauto.
  - rewrite Hsets in Hne.
    split; [|split]; [|done|done]. split; [by intros [? ?]|done].
Qed.

End Registry.

(** An instance: a handler with the one parameter item registered for
    "take ITEM" lands at the end of the registry. *)
Lemma register_signature_check_witness :
  Pattern.__init__ "take ITEM" None = Ok take_pattern
  ∧ _register "take ITEM" take_handler None [] commands
    = (Ok tt, commands ++ [(take_pattern, take_handler, [])]).
Proof.
  split; [reflexivity|].
  apply (register_signature_check "take ITEM" take_handler None [] commands
           take_pattern eq_refl).
  intros name. simpl. rewrite elem_of_nil. tauto.
Defined.

(** ** Dispatch *)

Section Dispatch.

Context {W : Type}.
Implicit Types (c x y : command W) (l : list (command W)).

Variable key : command W → nat.

Lemma insert_desc_perm x l : insert_desc key x l ≡ₚ x :: l.
Proof.
  induction l as [|y l IH]; simpl; [done|].
  destruct (Nat.ltb (key x) (key y)); [|done].
  rewrite IH. apply Permutation_swap.
Qed.

Lemma sort_desc_perm l : sort_desc key l ≡ₚ l.
Proof.
  induction l as [|x l IH]; simpl; [done|].
  by rewrite insert_desc_perm, IH.
Qed.

Lemma insert_desc_descending x l :
  descending key l → descending key (insert_desc key x l).
Proof.
  unfold descending. induction 1 as [|y l Hl IH Hy]; simpl.
  - by repeat constructor.
  - destruct (Nat.ltb_spec (key x) (key y)) as [Hlt|Hge].
    + constructor; [done|]. rewrite insert_desc_perm.
      constructor; [lia|done].
    + constructor; [by constructor|]. constructor; [done|].
      eapply Forall_impl; [exact Hy|]. simpl. intros z Hz. lia.
Qed.

Lemma sort_desc_descending l : descending key (sort_desc key l).
Proof.
  induction l as [|x l IH]; simpl; [constructor|].
  by apply insert_desc_descending.
Qed.

Lemma with_key_insert k x l :
  with_key key k (insert_desc key x l)
  = if Nat.eqb (key x) k then x :: with_key key k l else with_key key k l.
Proof.
  unfold with_key. induction l as [|y l IH]; simpl; [done|].
  destruct (Nat.ltb_spec (key x) (key y)) as [Hlt|Hge]; [|done].
  simpl. rewrite IH.
  destruct (Nat.eqb_spec (key y) k) as [Hy|Hy],
    (Nat.eqb_spec (key x) k) as [Hx|Hx]; try done. lia.
Qed.

(** The sort is stable: entries with the same key keep their order. *)
Lemma sort_desc_stable k l : with_key key k (sort_desc key l) = with_key key k l.
Proof.
  induction l as [|x l IH]; simpl; [done|].
  rewrite with_key_insert, IH. unfold with_key. simpl.
  by destruct (Nat.eqb (key x) k).
Qed.

Variable P : command W → bool.

Lemma find_app l1 l2 :
  List.find P (l1 ++ l2)
  = match List.find P l1 with Some x => Some x | None => List.find P l2 end.
Proof. induction l1 as [|x l1 IH]; simpl; [done|]. by destruct (P x). Qed.

Lemma find_none l : (∀ x, x ∈ l → P x = false) → List.find P l = None.
Proof.
  induction l as [|x l IH]; intros H; simpl; [done|].
  rewrite (H x) by constructor. apply IH. intros y Hy. apply H. by constructor.
Qed.

Lemma with_key_none k l :
  (∀ x, x ∈ l → key x ≠ k) → with_key key k l = [].
Proof.
  unfold with_key. induction l as [|x l IH]; intros H; simpl; [done|].
  destruct (Nat.eqb_spec (key x) k) as [Hx|_].
  - exfalso. by apply (H x); [constructor|].
  - apply IH. intros y Hy. apply H. by constructor.
Qed.

(** In a descending key list where no entry above key [k] satisfies [P], the
    first entry of key [k] that satisfies [P] is the first one of the
    whole list. *)
Lemma find_descending k l c :
  descending key l →
  (∀ x, x ∈ l → P x = true → key x ≤ k) →
  List.find P (with_key key k l) = Some c →
  List.find P l = Some c.
Proof.
  unfold descending, with_key. induction 1 as [|x l Hl IH Hx]; intros Hmax; simpl; [done|].
  assert (∀ y, y ∈ l → P y = true → key y ≤ k) as Hmax'.
  { intros y Hy. apply Hmax. by constructor. }
  destruct (Nat.eqb_spec (key x) k) as [Hk|Hk]; simpl.
  - destruct (P x); [done|]. by apply IH.
  - destruct (P x) eqn:Hp; [|by apply IH].
    assert (key x ≤ k) by (apply Hmax; [constructor|done]).
    fold (with_key key k l). rewrite with_key_none; [done|].
    intros y Hy. rewrite Forall_forall in Hx. specialize (Hx y Hy). lia.
Qed.

Lemma with_key_app k l1 l2 : with_key key k (l1 ++ l2) = with_key key k l1 ++ with_key key k l2.
Proof. unfold with_key. apply List.filter_app. Qed.

(** The entry that a stable descending key sort puts first among those that
    satisfy [P]: one of largest key, and the earliest of them. *)
Lemma find_sort_desc pre c post :
  P c = true →
  (∀ x, x ∈ pre → P x = true → key x < key c) →
  (∀ x, x ∈ post → P x = true → key x ≤ key c) →
  List.find P (sort_desc key (pre ++ c :: post)) = Some c.
Proof.
  intros Hc Hpre Hpost.
  apply (find_descending (key c)); [apply sort_desc_descending|..].
  - intros x Hx Hp. rewrite sort_desc_perm in Hx.
    apply elem_of_app in Hx as [Hx | [-> | Hx]%elem_of_cons]; [|done|by apply Hpost].
    specialize (Hpre x Hx Hp). lia.
  - rewrite sort_desc_stable, with_key_app, find_app.
    rewrite find_none.
    + unfold with_key. simpl. rewrite Nat.eqb_refl. simpl. by rewrite Hc.
    + intros x Hx. unfold with_key in Hx.
      apply list_elem_of_In, filter_In in Hx as [Hx%list_elem_of_In Hk%Nat.eqb_eq].
      destruct (P x) eqn:Hp; [|done]. specialize (Hpre x Hx Hp). lia.
Qed.

End Dispatch.

Section Dispatcher.

Context {W : Type}.
Implicit Types (c : command W) (l commands : list (command W)) (g : game W).

Lemma try_commands_find l ws g :
  try_commands l ws g
  = match List.find (matches ws) l with
    | Some c =>
        match Pattern.match_ (cmd_pattern c) ws with
        | Some m => handle c m g
        | None => (Ok PyNone, g)
        end
    | None => (Ok PyNone, g)
    end.
Proof.
  induction l as [|c l IH]; simpl; [done|]. unfold matches at 1.
  destruct (Pattern.match_ (cmd_pattern c) ws) as [m|] eqn:Hm; [|done].
  by rewrite Hm.
Qed.

Lemma dispatch_selected commands cmd g :
  dispatch_command commands cmd g
  = match selected commands (current_context g) (Py.split (Py.lower cmd)) with
    | Some c =>
        match Pattern.match_ (cmd_pattern c) (Py.split (Py.lower cmd)) with
        | Some m => handle c m g
        | None => (Ok PyNone, g)
        end
    | None => (Ok PyNone, g)
    end.
Proof. unfold dispatch_command, selected. apply try_commands_find. Qed.

Lemma filter_active_app current l1 l2 :
  List.filter (active current) (l1 ++ l2)
  = List.filter (active current) l1 ++ List.filter (active current) l2.
Proof. apply List.filter_app. Qed.

(** Among the active entries whose pattern matches, the dispatcher selects
    one of greatest specificity, and the earliest registered of those. *)
Lemma selected_priority commands current ws pre c post :
  commands = pre ++ c :: post →
  active current c = true →
  matches ws c = true →
  (∀ x, x ∈ pre → active current x = true → matches ws x = true →
        specificity x < specificity c) →
  (∀ x, x ∈ post → active current x = true → matches ws x = true →
        specificity x ≤ specificity c) →
  selected commands current ws = Some c.
Proof.
  intros -> Hact Hc Hpre Hpost. unfold selected, available_commands.
  change (fun c0 : command W => Pattern.ctx_order (cmd_pattern c0))
    with (@specificity W).
  change (fun c0 : command W => Pattern.is_active (cmd_pattern c0) current)
    with (@active W current).
  rewrite filter_active_app. simpl. rewrite Hact.
  apply find_sort_desc; [done|..].
  - intros x [Hx Ha]%list_elem_of_In%filter_In Hm. apply Hpre; [|done..].
    by apply list_elem_of_In.
  - intros x [Hx Ha]%list_elem_of_In%filter_In Hm. apply Hpost; [|done..].
    by apply list_elem_of_In.
Qed.


(** C4, as the code has it: when the handler that dispatch selects raises
    an exception that is an instance of Exception, the dispatcher returns
    the error result "Error: " followed by the text of the exception in
    place of propagating it, the game state is the one the handler left
    and the registry is untouched, so that the next dispatch runs the
    same as any other from that state.  An exception that is not an
    instance of Exception, such as the SystemExit of the built-in quit
    handler, passes through the dispatcher. *)
Theorem handler_fault_isolated commands cmd g c m e g' :
  let ws := Py.split (Py.lower cmd) in
  selected commands (current_context g) ws = Some c →
  Pattern.match_ (cmd_pattern c) ws = Some m →
  h_call (cmd_func c) (call_args (cmd_kwargs c) m) g = (Raise e, g') →
  (is_Exception e = true →
     dispatch_command commands cmd g = (Ok (PyStr ("Error: " +:+ str_exn e)), g')
     ∧ ∀ cmd2, dispatch_command commands cmd2 (dispatch_command commands cmd g).2
               = dispatch_command commands cmd2 g')
  ∧ (is_Exception e = false → dispatch_command commands cmd g = (Raise e, g')).
Proof.
  intros ws Hsel Hm Hcall.
  assert (dispatch_command commands cmd g
          = if is_Exception e then (Ok (PyStr ("Error: " +:+ str_exn e)), g')
            else (Raise e, g')) as Hd.
  { rewrite dispatch_selected. fold ws. rewrite Hsel, Hm.
    unfold handle, invoke. by rewrite Hcall. }
  split; intros He; rewrite Hd, He; [|done].
  split; [done|]. by intros cmd2.
Qed.

End Dispatcher.

(** An instance: with a failing "jump" registered next to the built-in
    quit, the fault of jump comes back as an error result and the
    SystemExit of quit passes through. *)
Lemma handler_fault_isolated_witness :
  let registry := commands ++ [(jump_pattern, jump_handler, [])] in
  let g := Game None tt in
  selected registry None ["jump"] = Some (jump_pattern, jump_handler, [])
  ∧ dispatch_command registry "jump" g = (Ok (PyStr "Error: no floor"), g)
  ∧ dispatch_command registry "quit" g = (Raise SystemExit, g).
Proof.
  intros registry g.
  assert (selected registry None ["jump"] = Some (jump_pattern, jump_handler, []))
    as Hsel by reflexivity.
  split; [exact Hsel|]. split.
  - apply (handler_fault_isolated registry "jump" g
             (jump_pattern, jump_handler, []) ∅ (OtherException "no floor") g
             Hsel eq_refl eq_refl).
    reflexivity.
  - apply (handler_fault_isolated registry "quit" g
             (quit_pattern, sys_exit, []) ∅ SystemExit g
             eq_refl eq_refl eq_refl).
    reflexivity.
Defined.

(** C4 as stated fails on the built-in quit command: its handler,
    [sys.exit], is the one selected for "quit", it raises SystemExit, and
    the dispatcher lets the exception through in place of returning an
    error result. *)
Lemma quit_exit_propagates :
  let g := Game None tt in
  selected (W := unit) commands (current_context g) (Py.split (Py.lower "quit"))
  = Some (quit_pattern, sys_exit, [])
  ∧ Pattern.match_ quit_pattern (Py.split (Py.lower "quit")) = Some ∅
  ∧ h_call sys_exit (call_args [] ∅) g = (Raise SystemExit, g)
  ∧ dispatch_command commands "quit" g = (Raise SystemExit, g)
  ∧ ¬ ∃ v g', dispatch_command commands "quit" g = (Ok v, g').
Proof.
  intros g. split; [reflexivity|]. split; [reflexivity|]. split; [reflexivity|].
  split; [reflexivity|]. intros (v & g' & H). vm_compute in H. discriminate H.
Qed.


(** * Further properties *)

(** ** The order of contexts *)

Lemma app_length_split (a b x y : string) :
  a +:+ x = b +:+ y → String.length a ≤ String.length b →
  ∃ z, b = a +:+ z ∧ x = z +:+ y.
Proof.
  revert b. induction a as [|c a IH]; intros b H Hlen.
  - exists b. by rewrite !app_empty_l in *.
  - destruct b as [|d b]; [simpl in Hlen; lia|].
    rewrite !app_cons in H. injection H as -> H.
    destruct (IH b H) as (z & -> & ->); [simpl in Hlen; lia|].
    exists z. by rewrite app_cons.
Qed.

Lemma equal_or_nested_trans a b c :
  equal_or_nested a b → equal_or_nested b c → equal_or_nested a c.
Proof.
  intros [Ha | (r1 & Ha)] [Hb | (r2 & Hb)]; subst.
  - by left.
  - right. eauto.
  - right. eauto.
  - right. exists (r1 +:+ CONTEXT_SEP +:+ r2). by rewrite !app_assoc_str.
Qed.

Lemma equal_or_nested_length a b :
  equal_or_nested a b → String.length a ≤ String.length b ∧ (a ≠ b → String.length a < String.length b).
Proof.
  intros [-> | (r & ->)]; [split; [lia|done]|].
  rewrite !length_app_str. simpl. split; lia.
Qed.

Lemma equal_or_nested_antisym a b :
  equal_or_nested a b → equal_or_nested b a → a = b.
Proof.
  intros [H1 H1']%equal_or_nested_length [H2 H2']%equal_or_nested_length.
  destruct (decide (a = b)) as [|Hne]; [done|]. specialize (H1' Hne). lia.
Qed.

(** Two ancestors of one context are ancestors of each other, one way or
    the other. *)
Lemma equal_or_nested_chain a b c :
  equal_or_nested a c → equal_or_nested b c →
  equal_or_nested a b ∨ equal_or_nested b a.
Proof.
  assert (∀ a b r1 r2, a +:+ CONTEXT_SEP +:+ r1 = b +:+ CONTEXT_SEP +:+ r2 →
            String.length a ≤ String.length b → equal_or_nested a b) as Hle.
  { intros a' b' r1 r2 H Hlen.
    destruct (app_length_split _ _ _ _ H Hlen) as (z & -> & Hz).
    destruct z as [|d z]; [left; by rewrite app_empty_r|].
    change (CONTEXT_SEP +:+ r1) with (String "." r1) in Hz.
    rewrite app_cons in Hz. injection Hz as <- _. right. by exists z. }
  intros [Ha | (r1 & Ha)] [Hb | (r2 & Hb)]; subst c.
  - left. by left.
  - right. right. eauto.
  - left. right. eauto.
  - rename Hb into H. destruct (Nat.le_ge_cases (String.length a) (String.length b)).
    + left. by apply (Hle a b r1 r2).
    + right. by apply (Hle b a r2 r1).
Qed.

(** X1: [_match_context] orders the contexts: it is transitive and
    antisymmetric (and reflexive), with None below every context; and the
    contexts that a given context lies within form a chain. *)
Theorem match_context_order :
  (∀ a b c, _match_context a b = true → _match_context b c = true →
            _match_context a c = true)
  ∧ (∀ a b, _match_context a b = true → _match_context b a = true → a = b)
  ∧ (∀ a b c, _match_context a c = true → _match_context b c = true →
              _match_context a b = true ∨ _match_context b a = true).
Proof.
  split; [|split].
  - intros [a|] [b|] [c|]; try done. unfold _match_context.
    rewrite !match_context_strings. apply equal_or_nested_trans.
  - intros [a|] [b|]; try done. unfold _match_context.
    rewrite !match_context_strings. intros H1 H2. f_equal.
    by apply equal_or_nested_antisym.
  - intros [a|] [b|] [c|]; try done; try (by left); try (by right).
    unfold _match_context. rewrite !match_context_strings.
    apply equal_or_nested_chain.
Qed.

(** ** Segments of a context *)

Lemma count_char_app c s t :
  Py.count_char c (s +:+ t) = Py.count_char c s + Py.count_char c t.
Proof.
  induction s as [|a s IH]; [done|]. rewrite app_cons. simpl. rewrite IH. lia.
Qed.

Lemma ctx_order_some p c :
  Pattern.pattern_context p = Some c →
  Pattern.ctx_order p = if Py.truthy c then Py.count_char "." c + 1 else 0.
Proof. unfold Pattern.ctx_order. intros ->. by destruct (Py.truthy c). Qed.

Lemma split_on_from_length sep s : ∀ cur,
  length (Py.split_on_from sep cur s) = Py.count_char sep s + 1.
Proof.
  induction s as [|c s IH]; intros cur; simpl; [done|].
  case_bool_decide; simpl; by rewrite IH.
Qed.

Lemma starts_with_sep_cons c s : starts_with_sep (String c s) ↔ c = "."%char.
Proof.
  unfold starts_with_sep. split.
  - intros (r & H). by injection H.
  - intros ->. by exists s.
Qed.

Lemma ends_with_sep_cons c s :
  ends_with_sep (String c s) ↔ (c = "."%char ∧ s = "") ∨ ends_with_sep s.
Proof.
  unfold ends_with_sep. split.
  - intros ([|d r] & H).
    + left. by injection H.
    + right. rewrite app_cons in H. injection H as -> ->. by exists r.
  - intros [[-> ->] | (r & ->)]; [by exists ""|]. by exists (String c r).
Qed.

Lemma has_doubled_sep_cons c s :
  has_doubled_sep (String c s)
  ↔ (c = "."%char ∧ starts_with_sep s) ∨ has_doubled_sep s.
Proof.
  unfold has_doubled_sep, starts_with_sep. split.
  - intros ([|d a] & b & H).
    + left. injection H as -> ->. split; [done|]. by exists b.
    + right. rewrite app_cons in H. injection H as -> ->. by exists a, b.
  - intros [[-> (r & ->)] | (a & b & ->)]; [by exists "", r|].
    by exists (String c a), b.
Qed.

Lemma nonempty_fields_spec s :
  (nonempty_fields true s = true ↔ ¬ ends_with_sep s ∧ ¬ has_doubled_sep s)
  ∧ (nonempty_fields false s = true
     ↔ ¬ is_empty s ∧ ¬ starts_with_sep s ∧ ¬ ends_with_sep s ∧ ¬ has_doubled_sep s).
Proof.
  induction s as [|c s [IHt IHf]].
  - simpl. split; split; try done.
    + intros _. split; [by intros ([|??] & ?) | by intros ([|??] & ? & ?)].
    + by intros [[] _].
  - cbn [nonempty_fields]. rewrite ends_with_sep_cons, has_doubled_sep_cons,
      starts_with_sep_cons. unfold is_empty in *.
    case_bool_decide as Hc; simpl.
    + subst c. rewrite IHf. assert ("."%char = "."%char) as Hd by done.
      split; [tauto|]. split; [done|]. intros (_ & H & _). done.
    + rewrite IHt. assert (String c s ≠ "") by done. tauto.
Qed.

Lemma nonempty_fields_split s : ∀ cur,
  Forall (fun seg => seg ≠ "") (Py.split_on_from "." cur s)
  ↔ nonempty_fields (Py.truthy cur) s = true.
Proof.
  induction s as [|c s IH]; intros cur; simpl.
  - rewrite Forall_singleton. by destruct cur.
  - case_bool_decide as Hc.
    + rewrite Forall_cons, (IH ""), andb_true_iff.
      destruct cur; simpl; intuition congruence.
    + rewrite IH. by destruct cur.
Qed.

(** X2: a context accepted by validation is exactly a string whose
    segments between separators are all non-empty; the specificity of a
    pattern with such a context is the number of its segments. *)
Theorem valid_context_segments (c : string) :
  (_validate_context (Some c) = Ok tt ↔ Forall (fun seg => seg ≠ "") (segments c))
  ∧ (∀ p, Pattern.pattern_context p = Some c → c ≠ "" →
          Pattern.ctx_order p = length (segments c)).
Proof.
  split.
  - unfold segments, Py.split_on. rewrite nonempty_fields_split. simpl.
    rewrite (proj2 (nonempty_fields_spec c)). unfold _validate_context.
    case_bool_decide as Herr.
    + apply context_errors_nil in Herr. split; [tauto|done].
    + split; [done|]. intros H. exfalso. apply Herr, context_errors_nil. tauto.
  - intros p Hp Hne. rewrite (ctx_order_some p c Hp).
    unfold segments, Py.split_on. rewrite split_on_from_length.
    by destruct c.
Qed.

(** X3: specificity follows nesting: when the context of [p] lies within
    the context of [q], the specificity of [p] is at most that of [q],
    and strictly less when the contexts differ and that of [q] is
    valid. *)
Theorem ctx_order_nesting p q :
  _match_context (Pattern.pattern_context p) (Pattern.pattern_context q) = true →
  Pattern.ctx_order p ≤ Pattern.ctx_order q
  ∧ (Pattern.pattern_context p ≠ Pattern.pattern_context q →
     _validate_context (Pattern.pattern_context q) = Ok tt →
     Pattern.ctx_order p < Pattern.ctx_order q).
Proof.
  destruct (Pattern.pattern_context p) as [c|] eqn:Hp,
    (Pattern.pattern_context q) as [a|] eqn:Hq; try done.
  - unfold _match_context. rewrite match_context_strings.
    rewrite (ctx_order_some p c Hp), (ctx_order_some q a Hq).
    intros [-> | (r & ->)]; [split; [lia|done]|].
    rewrite !count_char_app. simpl.
    assert (Py.truthy (c +:+ CONTEXT_SEP +:+ r) = true) as ->.
    { destruct c; [done|]. by rewrite app_cons. }
    destruct (Py.truthy c); split; intros; lia.
  - intros _. assert (Pattern.ctx_order p = 0) as ->
      by (unfold Pattern.ctx_order; by rewrite Hp).
    split; [lia|]. intros _ Hvalid. rewrite (ctx_order_some q a Hq).
    destruct a; [done|]. simpl. lia.
  - intros _. split; [|done]. unfold Pattern.ctx_order. by rewrite Hp, Hq.
Qed.

Lemma ctx_order_nesting_witness :
  let p := look_pattern (Some "x") in
  let q := look_pattern (Some "x.y") in
  _match_context (Pattern.pattern_context p) (Pattern.pattern_context q) = true
  ∧ Pattern.ctx_order p < Pattern.ctx_order q.
Proof.
  intros p q. split; [reflexivity|].
  apply (ctx_order_nesting p q eq_refl); [discriminate | reflexivity].
Defined.

(** ** The distributions, all of them *)

Lemma all_ones (l : list Z) :
  Forall (fun x => (1 ≤ x)%Z) l → sum_Z l = Z.of_nat (length l) →
  l = repeat 1%Z (length l).
Proof.
  induction 1 as [|x l Hx Hl IH]; simpl; [done|]. intros Hsum.
  pose proof (sum_Z_nonneg l Hl) as Hnn.
  assert (Z.of_nat (length l) ≤ sum_Z l)%Z as Hlow.
  { clear -Hl. induction Hl as [|y l Hy Hl IH]; simpl; lia. }
  assert (x = 1%Z) as -> by lia. f_equal. apply IH. lia.
Qed.

Lemma sum_Z_lower (l : list Z) :
  Forall (fun x => (1 ≤ x)%Z) l → (Z.of_nat (length l) ≤ sum_Z l)%Z.
Proof. induction 1 as [|y l Hy Hl IH]; simpl; lia. Qed.

(** Every way of giving each group at least one word is enumerated. *)
Lemma word_combinations_complete n : ∀ have combo,
  length combo = S n →
  Forall (fun x => (1 ≤ x)%Z) combo →
  sum_Z combo = have →
  combo ∈ Pattern.word_combinations have (S n).
Proof.
  assert (∀ m have combo,
            length combo = S m → Forall (fun x => (1 ≤ x)%Z) combo →
            sum_Z combo = have → have = Z.of_nat (S m) →
            combo ∈ [repeat 1%Z (S m)]) as Hones.
  { intros m have combo Hlen Hpos Hsum Heq. apply list_elem_of_singleton.
    rewrite <- Hlen. apply all_ones; [done|]. rewrite Hlen. lia. }
  induction n as [|n IH]; intros have combo Hlen Hpos Hsum;
    rewrite word_combinations_unfold;
    pose proof (sum_Z_lower combo Hpos) as Hlow; rewrite Hlen in Hlow.
  - destruct (Z.ltb_spec have (Z.of_nat 1)) as [|_]; [lia|].
    destruct (Z.eqb_spec have (Z.of_nat 1)) as [Heq|Hne]; [by eapply Hones|].
    simpl. apply list_elem_of_singleton.
    destruct combo as [|x [|??]]; simplify_eq/=. f_equal. lia.
  - destruct (Z.ltb_spec have (Z.of_nat (S (S n)))) as [|_]; [lia|].
    destruct (Z.eqb_spec have (Z.of_nat (S (S n)))) as [Heq|Hne];
      [by eapply Hones|].
    change (Nat.eqb (S (S n)) 1) with false. cbv iota.
    destruct combo as [|x rest]; [done|]. simpl in Hlen, Hsum.
    apply Forall_cons in Hpos as [Hx Hrest].
    pose proof (sum_Z_lower rest Hrest) as Hlow'.
    apply list_elem_of_In, in_flat_map. exists x. split.
    + apply list_elem_of_In, elem_of_countdown. lia.
    + destruct (Z.leb_spec (Z.of_nat (S (S n)) - 1) have) as [_|]; [|lia].
      apply in_map, list_elem_of_In, IH; [lia|done|lia].
Qed.

Lemma lex_gt_irrefl l : ¬ lex_gt l l.
Proof.
  induction l as [|x l IH]; intros H; inversion H; subst; [lia|done].
Qed.

Lemma sorted_nodup {A} (R : A → A → Prop) (l : list A) :
  (∀ x, ¬ R x x) → StronglySorted R l → NoDup l.
Proof.
  intros Hirr. induction 1 as [|x l Hl IH Hx]; constructor; [|done].
  intros Hin. rewrite Forall_forall in Hx. by apply (Hirr x), Hx.
Qed.

(** X4: for at least one placeholder, [word_combinations] yields exactly
    the ways of handing out [have] words to the placeholders with one
    word or more each, and yields each of them once. *)
Theorem word_combinations_exact (have : Z) (n : nat) :
  (∀ combo,
     combo ∈ Pattern.word_combinations have (S n)
     ↔ length combo = S n ∧ Forall (fun x => (1 ≤ x)%Z) combo ∧ sum_Z combo = have)
  ∧ NoDup (Pattern.word_combinations have (S n)).
Proof.
  split.
  - intros combo. split; [apply word_combinations_sound|].
    intros (? & ? & ?). by apply word_combinations_complete.
  - apply (sorted_nodup lex_gt); [apply lex_gt_irrefl|].
    apply word_combinations_sorted.
Qed.

(** ** Which inputs match, and which split is returned *)

Lemma first_match_none pat inp combos :
  Pattern.first_match pat combos inp = None
  ↔ Forall (fun c => Pattern.walk pat c inp ∅ = None) combos.
Proof.
  induction combos as [|c combos IH]; simpl; [by split|].
  rewrite Forall_cons. destruct (Pattern.walk pat c inp ∅); [|by rewrite IH; tauto].
  split; [done|]. by intros [? _].
Qed.

Lemma shares_cons_lit w pat raw : shares (Pattern.Lit w :: pat) raw = shares pat raw.
Proof. reflexivity. Qed.

Lemma shares_cons_placeholder name pat raw :
  shares (Pattern.Placeholder name :: pat) raw
  = Z.of_nat (length (default [] (raw !! name))) :: shares pat raw.
Proof. reflexivity. Qed.

Lemma expand_cons_placeholder name pat raw :
  expand (Pattern.Placeholder name :: pat) raw
  = default [] (raw !! name) ++ expand pat raw.
Proof. reflexivity. Qed.

Lemma expand_length pat raw :
  length (expand pat raw) = literal_count pat + Z.to_nat (sum_Z (shares pat raw)).
Proof.
  induction pat as [|[w|name] pat IH].
  - done.
  - rewrite literal_count_cons_lit, shares_cons_lit. simpl. by rewrite IH.
  - rewrite literal_count_cons_placeholder, shares_cons_placeholder,
      expand_cons_placeholder, length_app, IH. simpl.
    assert (0 ≤ sum_Z (shares pat raw))%Z.
    { clear. unfold shares. induction (token_names pat); csimpl; lia. }
    lia.
Qed.

Lemma shares_positive pat raw :
  (∀ name, name ∈ token_names pat → ∃ l, raw !! name = Some l ∧ l ≠ []) →
  Forall (fun x => (1 ≤ x)%Z) (shares pat raw).
Proof.
  intros H. unfold shares. apply Forall_fmap, Forall_forall.
  intros name Hname. destruct (H name Hname) as (l & Hraw & Hl). simpl.
  rewrite Hraw. destruct l; [done|]. simpl. lia.
Qed.

(** The pass for the shares of a split completes, and its captures are
    those of the split. *)
Lemma walk_of_split pat : ∀ raw inp tail acc,
  NoDup (token_names pat) →
  (∀ name, name ∈ token_names pat → ∃ l, raw !! name = Some l ∧ l ≠ []) →
  inp = expand pat raw ++ tail →
  ∃ m, Pattern.walk pat (shares pat raw) inp acc = Some m
       ∧ (∀ name, name ∈ token_names pat → m !! name = raw !! name)
       ∧ (∀ name, name ∉ token_names pat → m !! name = acc !! name).
Proof.
  induction pat as [|[w|name] pat IH]; intros raw inp tail acc Hnd Hraw ->.
  - exists acc. split; [done|]. split; [by intros ? ?%elem_of_nil|done].
  - rewrite shares_cons_lit. simpl. rewrite bool_decide_false by (by intros []).
    by apply (IH raw _ tail).
  - change (token_names (Pattern.Placeholder name :: pat))
      with (name :: token_names pat) in *.
    apply NoDup_cons in Hnd as [Hfresh Hnd].
    destruct (Hraw name) as (l & Hl & Hne); [constructor|].
    rewrite shares_cons_placeholder, expand_cons_placeholder, Hl. simpl.
    rewrite Nat2Z.id, <- app_assoc, length_app.
    destruct (Nat.ltb_spec (length l + length (expand pat raw ++ tail)) (length l))
      as [|_]; [lia|].
    rewrite take_app_length, drop_app_length.
    destruct (IH raw (expand pat raw ++ tail) tail (<[name := l]> acc) Hnd)
      as (m & Hwalk & Hin & Hout); [|done|].
    { intros name' Hname'. apply Hraw. by constructor. }
    exists m. split; [done|]. split.
    + intros name' [-> | Hname']%elem_of_cons; [|by apply Hin].
      rewrite (Hout name Hfresh), Hl. apply lookup_insert_eq.
    + intros name' [Hne' Hname']%not_elem_of_cons.
      rewrite (Hout name' Hname'). by apply lookup_insert_ne.
Qed.

(** The shares of the captures of a completed pass are the distribution
    that the pass was given. *)
Lemma walk_shares pat : ∀ combo inp acc m,
  Pattern.walk pat combo inp acc = Some m →
  NoDup (token_names pat) →
  Forall (fun x => (1 ≤ x)%Z) combo →
  length combo = length (token_names pat) →
  shares pat m = combo.
Proof.
  induction pat as [|[w|name] pat IH]; intros combo inp acc m Hwalk Hnd Hpos Hlen.
  - by destruct combo.
  - simpl in Hwalk. destruct inp as [|word inp]; [done|].
    case_bool_decide; [done|]. rewrite shares_cons_lit. by eapply IH.
  - simpl in Hwalk. destruct combo as [|count combo]; [done|].
    apply Forall_cons in Hpos as [Hcount Hpos].
    destruct (Nat.ltb_spec (length inp) (Z.to_nat count)) as [|Hn]; [done|].
    change (token_names (Pattern.Placeholder name :: pat))
      with (name :: token_names pat) in *.
    apply NoDup_cons in Hnd as [Hfresh Hnd]. simpl in Hlen.
    rewrite shares_cons_placeholder.
    destruct (walk_spec _ _ _ _ _ Hwalk Hnd Hpos) as (Hout & _); [lia|].
    rewrite (Hout name Hfresh), lookup_insert_eq. simpl.
    rewrite length_take. f_equal; [lia|]. eapply IH; eauto; lia.
Qed.

(** What a successful match went through. *)
Lemma match_inv p ws m :
  Pattern.match_ p ws = Some m →
  take (length (Pattern.prefix p)) ws = Pattern.prefix p
  ∧ length (Pattern.argnames p) ≤ length ws
  ∧ let rest := drop (length (Pattern.prefix p)) ws in
    (rest = [] ∧ Pattern.pattern p = [] ∧ m = ∅)
    ∨ (rest ≠ [] ∧ Pattern.pattern p ≠ []
       ∧ ∃ pre combo post raw,
           Pattern.word_combinations
             (Z.of_nat (length rest) - Pattern.fixed p) (Pattern.placeholders p)
           = pre ++ combo :: post
           ∧ Forall (fun c => Pattern.walk (Pattern.pattern p) c rest ∅ = None) pre
           ∧ Pattern.walk (Pattern.pattern p) combo rest ∅ = Some raw
           ∧ m = Py.join " " <$> raw).
Proof.
  rewrite match_unfold.
  destruct (Nat.ltb_spec (length ws) (length (Pattern.argnames p))); [done|].
  case_bool_decide as Hpre; [done|]. cbv zeta.
  set (rest := drop (length (Pattern.prefix p)) ws).
  do 2 case_bool_decide; simpl; try done.
  - intros [= <-]. split; [done|]. split; [done|]. by left.
  - intros (pre & combo & post & raw & ? & ? & ? & ?)%first_match_spec.
    split; [done|]. split; [done|]. right. split; [done|]. split; [done|].
    by exists pre, combo, post, raw.
Qed.

Lemma splits_names p ws raw :
  compiled p → splits p ws raw →
  ∀ name, name ∈ token_names (Pattern.pattern p) →
          ∃ l, raw !! name = Some l ∧ l ≠ [].
Proof.
  intros [compiled_nodup0 compiled_names0 compiled_count0 compiled_fixed0 compiled_zero0] (Hdom & Hne & _) name Hname. rewrite compiled_names0 in Hname.
  assert (name ∈ dom raw) as [l Hl]%elem_of_dom
    by (rewrite Hdom; by apply elem_of_list_to_set).
  exists l. split; [done|]. by apply (Hne name).
Qed.

(** The pass for the shares of a split returns the split. *)
Lemma walk_splits p ws raw :
  compiled p → splits p ws raw →
  take (length (Pattern.prefix p)) ws = Pattern.prefix p
  ∧ drop (length (Pattern.prefix p)) ws = expand (Pattern.pattern p) raw
  ∧ Pattern.walk (Pattern.pattern p) (shares (Pattern.pattern p) raw)
      (expand (Pattern.pattern p) raw) ∅ = Some raw.
Proof.
  intros Hc Hsplit. pose proof (splits_names _ _ _ Hc Hsplit) as Hnames.
  destruct Hc as [compiled_nodup0 compiled_names0 compiled_count0 compiled_fixed0 compiled_zero0], Hsplit as (Hdom & Hne & <-).
  rewrite take_app_length, drop_app_length. split; [done|]. split; [done|].
  destruct (walk_of_split (Pattern.pattern p) raw
              (expand (Pattern.pattern p) raw) [] ∅)
    as (m & Hwalk & Hin & Hout); [by rewrite compiled_names0|done|by rewrite app_nil_r|].
  rewrite Hwalk. f_equal. apply map_eq. intros name.
  destruct (decide (name ∈ token_names (Pattern.pattern p))) as [Hname|Hname].
  - by apply Hin.
  - rewrite (Hout name Hname), lookup_empty. symmetry.
    apply not_elem_of_dom. rewrite Hdom, elem_of_list_to_set.
    by rewrite <- compiled_names0.
Qed.

(** X5: a compiled pattern matches an input exactly when the input can be
    split along it: the literal prefix, then the suffix with one or more
    words for each placeholder.  The captures returned are those of the
    split whose shares come first in decreasing lexicographic order: every
    other split gives fewer words to the first placeholder on which the
    two differ. *)
Theorem match_splits tmpl ctx p ws :
  Pattern.__init__ tmpl ctx = Ok p →
  (is_Some (Pattern.match_ p ws) ↔ ∃ raw, splits p ws raw)
  ∧ (∀ m, Pattern.match_ p ws = Some m →
       ∃ raw, splits p ws raw
         ∧ m = Py.join " " <$> raw
         ∧ ∀ raw', splits p ws raw' →
             raw' = raw
             ∨ lex_gt (shares (Pattern.pattern p) raw)
                      (shares (Pattern.pattern p) raw')).
Proof.
  intros Hinit. destruct (init_compiled _ _ _ Hinit) as (Hc & _).
  assert (∀ m, Pattern.match_ p ws = Some m →
       ∃ raw, splits p ws raw
         ∧ m = Py.join " " <$> raw
         ∧ ∀ raw', splits p ws raw' →
             raw' = raw
             ∨ lex_gt (shares (Pattern.pattern p) raw)
                      (shares (Pattern.pattern p) raw')) as Hsound.
  { intros m Hm.
    destruct (match_captures _ _ _ _ _ Hinit Hm) as (raw0 & _ & Hraw0 & Hall0 & Hexp0).
    destruct (match_inv _ _ _ Hm) as (Hpre & Hlen & Hcases). cbv zeta in Hcases.
    destruct Hcases as [(Hrest & Hpat & ->) | (Hrest & Hpat & pre & combo & post & raw & Hcombos & Hfail & Hwalk & ->)].
    - assert (Pattern.argnames p = []) as Hnil.
      { destruct Hc as [compiled_nodup0 compiled_names0 compiled_count0 compiled_fixed0 compiled_zero0]. by rewrite <- compiled_names0, Hpat. }
      exists ∅. split; [|split; [by rewrite fmap_empty|]].
      + split; [by rewrite Hnil, dom_empty_L|]. split; [by intros ?? ?%lookup_empty_Some|].
        rewrite Hpat. simpl. rewrite app_nil_r, <- Hpre.
        rewrite <- (take_drop (length (Pattern.prefix p)) ws) at 2.
        by rewrite Hrest, app_nil_r.
      + intros raw' (Hdom & _). left. apply dom_empty_iff_L. by rewrite Hdom, Hnil.
    - set (rest := drop (length (Pattern.prefix p)) ws) in *.
      assert (combo ∈ Pattern.word_combinations
                (Z.of_nat (length rest) - Pattern.fixed p) (Pattern.placeholders p))
        as Hin by (rewrite Hcombos; apply elem_of_app; right; constructor).
      apply word_combinations_sound in Hin as (Hclen & Hcpos & Hcsum).
      pose proof Hc as [compiled_nodup0 compiled_names0 compiled_count0 compiled_fixed0 compiled_zero0].
      destruct (walk_spec _ _ _ _ _ Hwalk) as (Hout & Hnames & Hle & Hexp);
        [by rewrite compiled_names0|done|rewrite compiled_names0; congruence|].
      pose proof (sum_Z_nonneg _ Hcpos) as Hnonneg.
      assert (expand (Pattern.pattern p) raw = rest) as Hexpand.
      { etrans; [|exact Hexp]. rewrite drop_ge, app_nil_r; [done|]. lia. }
      assert (splits p ws raw) as Hsplit.
      { split; [|split].
        - apply set_eq. intros name. rewrite elem_of_dom, elem_of_list_to_set.
          rewrite <- compiled_names0. split.
          + intros [l Hl]. destruct (decide (name ∈ token_names (Pattern.pattern p)));
              [done|]. by rewrite (Hout name), lookup_empty in Hl.
          + intros Hname. destruct (Hnames name Hname) as (i & k & _ & _ & ->). eauto.
        - intros name l Hl Hnil. subst l.
          destruct (decide (name ∈ token_names (Pattern.pattern p))) as [Hname|Hname];
            [|by rewrite (Hout name Hname), lookup_empty in Hl].
          destruct (Hnames name Hname) as (i & k & Hk & Hik & Hl').
          rewrite Hl in Hl'. injection Hl' as Hl'.
          apply (f_equal length) in Hl'. rewrite length_take, length_drop in Hl'.
          simpl in Hl'. lia.
        - rewrite Hexpand. unfold rest. rewrite <- Hpre at 1. apply take_drop. }
      exists raw. split; [done|]. split; [done|]. intros raw' Hsplit'.
      destruct (walk_splits _ _ _ Hc Hsplit') as (_ & Hrest' & Hwalk').
      fold rest in Hrest'. rewrite <- Hrest' in Hwalk'.
      pose proof (splits_names _ _ _ Hc Hsplit') as Hnames'.
      set (combo' := shares (Pattern.pattern p) raw') in *.
      assert (shares (Pattern.pattern p) raw = combo) as Hshares.
      { eapply walk_shares; eauto; [by rewrite compiled_names0|].
        rewrite compiled_names0. congruence. }
      rewrite Hshares.
      assert (combo' ∈ pre ++ combo :: post) as Hin'.
      { rewrite <- Hcombos.
        destruct (Pattern.placeholders p) as [|n] eqn:Hn.
        { destruct combo; [|done]. simpl in Hcsum.
          exfalso. apply Hpat. apply compiled_zero0. apply nil_length_inv. congruence. }
        apply word_combinations_complete.
        - unfold combo', shares. rewrite length_fmap, compiled_names0. congruence.
        - by apply shares_positive.
        - pose proof (expand_length (Pattern.pattern p) raw') as Hel.
          fold combo' in Hel. rewrite <- Hrest' in Hel.
          assert (0 ≤ sum_Z combo')%Z
            by (apply sum_Z_nonneg; by apply shares_positive).
          lia. }
      apply elem_of_app in Hin' as [Hin' | [Heq | Hin']%elem_of_cons].
      + rewrite Forall_forall in Hfail. rewrite (Hfail _ Hin') in Hwalk'. done.
      + left. rewrite Heq in Hwalk'. congruence.
      + right. pose proof (word_combinations_sorted (Pattern.placeholders p)
                             (Z.of_nat (length rest) - Pattern.fixed p)) as Hsorted.
        rewrite Hcombos in Hsorted.
        apply StronglySorted_app_1_r, StronglySorted_cons in Hsorted as [Hall _].
        rewrite Forall_forall in Hall. by apply Hall. }
  split; [|exact Hsound]. split.
  - intros [m Hm]. destruct (Hsound m Hm) as (raw & ? & _). eauto.
  - intros (raw & Hsplit). pose proof Hc as [compiled_nodup0 compiled_names0 compiled_count0 compiled_fixed0 compiled_zero0].
    destruct (walk_splits _ _ _ Hc Hsplit) as (Hpre & Hrest & Hwalk).
    pose proof (splits_names _ _ _ Hc Hsplit) as Hnames.
    pose proof (expand_length (Pattern.pattern p) raw) as Hel.
    pose proof (shares_positive _ _ Hnames) as Hpos.
    pose proof (sum_Z_lower _ Hpos) as Hlow.
    unfold shares in Hlow at 1. rewrite length_fmap, compiled_names0 in Hlow.
    assert (length ws = length (Pattern.prefix p)
                        + length (expand (Pattern.pattern p) raw)) as Hlen.
    { rewrite <- Hrest, length_drop.
      apply (f_equal length) in Hpre. rewrite length_take in Hpre. lia. }
    rewrite match_unfold.
    destruct (Nat.ltb_spec (length ws) (length (Pattern.argnames p))); [lia|].
    rewrite bool_decide_false by (by intros []). cbv zeta. rewrite Hrest.
    case_bool_decide as He; case_bool_decide as Hp; simpl; try done.
    + exfalso. rewrite He in Hel. simpl in Hel.
      assert (Pattern.argnames p ≠ []) as Hargs.
      { intros Hnil. by apply compiled_zero0 in Hnil. }
      destruct (Pattern.argnames p); [done|]. simpl in Hlow. lia.
    + exfalso. rewrite Hp in He. done.
    + destruct (Pattern.first_match _ _ _) eqn:Hfm; [done|]. exfalso.
      apply first_match_none in Hfm. rewrite Forall_forall in Hfm.
      rewrite (Hfm (shares (Pattern.pattern p) raw)) in Hwalk; [done|].
      destruct (Pattern.placeholders p) as [|n] eqn:Hn.
      { exfalso. apply Hp. apply compiled_zero0, nil_length_inv. congruence. }
      apply word_combinations_complete.
      * unfold shares. rewrite length_fmap, compiled_names0. congruence.
      * done.
      * pose proof (sum_Z_nonneg _ Hpos). lia.
Qed.

(** An instance: "use ITEM on FIXTURE" on the words of
    "use a on b on c": of the two splits, the one with the later "on" as
    the literal is returned. *)
Lemma match_splits_witness :
  let p := Pattern.Make "use ITEM on FIXTURE" None 2 ["item"; "fixture"] ["use"]
             [Pattern.Placeholder "item"; Pattern.Lit "on";
              Pattern.Placeholder "fixture"] 1 in
  let ws := ["use"; "a"; "on"; "b"; "on"; "c"] in
  Pattern.__init__ "use ITEM on FIXTURE" None = Ok p
  ∧ Pattern.match_ p ws = Some {[ "item" := "a on b"; "fixture" := "c" ]}
  ∧ is_Some (Pattern.match_ p ws)
  ∧ ∃ raw, splits p ws raw.
Proof.
  intros p ws.
  assert (Pattern.match_ p ws = Some {[ "item" := "a on b"; "fixture" := "c" ]})
    as Hm by (by vm_compute).
  assert (is_Some (Pattern.match_ p ws)) as Hsome by (by rewrite Hm).
  split; [reflexivity|]. split; [exact Hm|]. split; [exact Hsome|].
  exact (proj1 (proj1 (match_splits "use ITEM on FIXTURE" None p ws eq_refl)) Hsome).
Defined.

(** ** Shapes of patterns and inputs *)

Lemma first_match_single name k (rest : list string) :
  Z.to_nat k = length rest →
  Pattern.first_match [Pattern.Placeholder name] [[k]] rest
  = Some {[ name := Py.join " " rest ]}.
Proof.
  intros Hk. cbn [Pattern.first_match Pattern.walk]. rewrite Hk.
  rewrite Nat.ltb_irrefl, firstn_all. by rewrite insert_empty, map_fmap_singleton.
Qed.

(** X6: a compiled pattern whose suffix is a single placeholder matches
    exactly the inputs that start with its literal prefix and go on with
    one word or more; the placeholder captures all of the remaining words,
    joined by single spaces. *)
Theorem match_trailing_placeholder tmpl ctx p name ws :
  Pattern.__init__ tmpl ctx = Ok p →
  Pattern.pattern p = [Pattern.Placeholder name] →
  Pattern.match_ p ws
  = if bool_decide (take (length (Pattern.prefix p)) ws = Pattern.prefix p
                    ∧ length (Pattern.prefix p) < length ws)
    then Some {[ name := Py.join " " (drop (length (Pattern.prefix p)) ws) ]}
    else None.
Proof.
  intros Hinit Hpat.
  destruct (init_compiled _ _ _ Hinit)
    as ([compiled_nodup0 compiled_names0 compiled_count0 compiled_fixed0 _] & _).
  rewrite Hpat in compiled_names0, compiled_fixed0.
  change (literal_count [Pattern.Placeholder name]) with 0 in compiled_fixed0.
  rewrite <- compiled_names0 in compiled_count0. simpl in compiled_count0.
  rewrite match_unfold, <- compiled_names0, Hpat, compiled_fixed0, compiled_count0.
  cbv zeta. change (length (token_names [Pattern.Placeholder name])) with 1.
  set (n := length (Pattern.prefix p)).
  pose proof (length_drop ws n) as Hlen. set (rest := drop n ws) in *.
  destruct (Nat.ltb_spec (length ws) 1) as [Hshort|Hlong].
  { rewrite bool_decide_false; [done|]. intros [_ ?]. lia. }
  case_bool_decide as Hpre.
  { rewrite bool_decide_false; [done|]. tauto. }
  rewrite (bool_decide_false ([Pattern.Placeholder name] = [])) by done.
  rewrite andb_false_r. case_bool_decide as Hrest; cbn [negb Bool.eqb].
  { rewrite bool_decide_false; [done|]. intros [_ ?].
    rewrite Hrest in Hlen. simpl in Hlen. lia. }
  assert (1 ≤ length rest) as Hone by (destruct rest; [done|simpl; lia]).
  rewrite bool_decide_true by (split; [done|lia]).
  rewrite Z.sub_0_r, word_combinations_unfold.
  destruct (Z.ltb_spec (Z.of_nat (length rest)) (Z.of_nat 1)); [lia|].
  destruct (Z.eqb_spec (Z.of_nat (length rest)) (Z.of_nat 1)) as [Heq|Hne].
  - apply first_match_single. lia.
  - change (Nat.eqb 1 1) with true. cbv iota. apply first_match_single. lia.
Qed.

(** An instance: "take ITEM" on the words of "take rusty old key". *)
Lemma match_trailing_placeholder_witness :
  Pattern.__init__ "take ITEM" None = Ok take_pattern
  ∧ Pattern.pattern take_pattern = [Pattern.Placeholder "item"]
  ∧ Pattern.match_ take_pattern ["take"; "rusty"; "old"; "key"]
    = Some {[ "item" := "rusty old key" ]}.
Proof.
  split; [reflexivity|]. split; [reflexivity|].
  exact (match_trailing_placeholder "take ITEM" None take_pattern "item"
           ["take"; "rusty"; "old"; "key"] eq_refl eq_refl).
Defined.

Lemma tokens_nil (words : list string) :
  token_of_word <$> words = [] ↔ words = [].
Proof. by destruct words. Qed.

(** X7: on the empty word list, a compiled pattern matches only when its
    template has no word at all; so a blank line is answered by no command
    that was registered from a template with a word in it. *)
Theorem match_empty_input tmpl ctx p :
  Pattern.__init__ tmpl ctx = Ok p →
  Pattern.match_ p []
  = if bool_decide (Py.split tmpl = []) then Some ∅ else None.
Proof.
  intros Hinit.
  destruct (init_compiled _ _ _ Hinit)
    as ([compiled_nodup0 compiled_names0 compiled_count0 compiled_fixed0
         compiled_zero0] & _ & _ & Htoks).
  rewrite match_unfold. simpl.
  destruct (Pattern.argnames p) as [|name names] eqn:Hargs; simpl.
  - rewrite (compiled_zero0 eq_refl) in *. rewrite app_nil_r in Htoks.
    rewrite take_nil, drop_nil.
    destruct (Pattern.prefix p) as [|w pre] eqn:Hpre.
    + rewrite bool_decide_false by (by intros []). simpl in Htoks.
      symmetry in Htoks. apply tokens_nil in Htoks. by rewrite Htoks.
    + rewrite bool_decide_true by done.
      rewrite bool_decide_false; [done|]. intros Hnil. by rewrite Hnil in Htoks.
  - rewrite bool_decide_false; [done|]. intros Hnil. rewrite Hnil in Htoks.
    destruct (Pattern.prefix p); [|done]. simpl in Htoks.
    rewrite Htoks in compiled_names0. done.
Qed.

(** An instance: the pattern "quit" does not match the empty input. *)
Lemma match_empty_input_witness :
  Pattern.__init__ "quit" None = Ok quit_pattern
  ∧ Pattern.match_ quit_pattern [] = None.
Proof.
  split; [reflexivity|].
  exact (match_empty_input "quit" None quit_pattern eq_refl).
Defined.

(** ** The registry and the dispatcher, continued *)

Lemma match_dom tmpl ctx p ws m :
  Pattern.__init__ tmpl ctx = Ok p →
  Pattern.match_ p ws = Some m →
  dom m = list_to_set (Pattern.argnames p).
Proof.
  intros Hinit Hm.
  destruct (match_captures _ _ _ _ _ Hinit Hm) as (raw & -> & Hin & Hall & _).
  rewrite dom_fmap_L. apply set_eq. intros name.
  rewrite elem_of_dom, elem_of_list_to_set. split.
  - intros [l Hl]. by destruct (Hin name l Hl).
  - apply Hall.
Qed.

Section Registry.

Context {W : Type}.
Implicit Types (c : command W) (l commands : list (command W)) (g : game W).

(** X8: an entry that [_register] accepted is always called with exactly
    the parameters of its handler as keyword arguments, whatever input its
    pattern matches; every capture is passed as a string under the name of
    its placeholder, also where a bound argument has the same name. *)
Theorem registered_call_arguments tmpl (func : handler W) ctx kwargs l l' :
  _register tmpl func ctx kwargs l = (Ok tt, l') →
  ∃ p, l' = l ++ [(p, func, kwargs)]
       ∧ ∀ ws m, Pattern.match_ p ws = Some m →
           dom (call_args kwargs m) = list_to_set (h_params func)
           ∧ ∀ name s, m !! name = Some s →
                       call_args kwargs m !! name = Some (PyStr s).
Proof.
  unfold _register. destruct (Pattern.__init__ tmpl ctx) as [p|e] eqn:Hinit; [|done].
  cbv zeta. case_bool_decide as Hsig; [done|]. intros [= <-].
  exists p. split; [done|]. intros ws m Hm. split.
  - unfold call_args. rewrite dom_union_L, dom_fmap_L, dom_list_to_map_L.
    rewrite (match_dom _ _ _ _ _ Hinit Hm). by rewrite Hsig.
  - intros name s Hs. unfold call_args. apply lookup_union_Some_l.
    by rewrite lookup_fmap, Hs.
Qed.

Lemma find_some_matches ws l c :
  List.find (matches ws) l = Some c → c ∈ l ∧ matches ws c = true.
Proof. intros [? ?]%find_some. split; [by apply list_elem_of_In|done]. Qed.

Lemma handle_not_none c m g : (handle c m g).1 ≠ Ok PyNone.
Proof.
  unfold handle, invoke.
  destruct (h_call (cmd_func c) (call_args (cmd_kwargs c) m) g) as [[r|e] g'].
  - by destruct r.
  - by destruct (is_Exception e).
Qed.

Lemma selected_none commands current ws :
  selected commands current ws = None
  ↔ ∀ c, c ∈ commands → active current c = true → matches ws c = false.
Proof.
  unfold selected, available_commands. split.
  - intros Hnone c Hc Hact.
    destruct (matches ws c) eqn:Hm; [|done]. exfalso.
    eapply List.find_none in Hnone; [by rewrite Hm in Hnone|].
    apply list_elem_of_In. rewrite sort_desc_perm.
    apply list_elem_of_In, filter_In. split; [by apply list_elem_of_In|done].
  - intros Hall. apply find_none. intros c Hc. rewrite sort_desc_perm in Hc.
    apply list_elem_of_In, filter_In in Hc as [Hc Hact].
    apply Hall; [by apply list_elem_of_In|done].
Qed.

(** X9: [dispatch_command] returns None exactly when no registered
    command that is active in the current context matches the input; the
    game state is then left as it was.  When an entry is selected, the
    result is made from what its handler does: a handler that returns None
    gives "OK", one that returns another value gives that value, one that
    raises an instance of Exception gives "Error: " followed by the text
    of the exception, and any other exception passes through; the state
    is the one the handler left. *)
Theorem dispatch_none commands cmd g :
  let ws := Py.split (Py.lower cmd) in
  let no_match :=
    ∀ c, c ∈ commands → active (current_context g) c = true → matches ws c = false in
  ((dispatch_command commands cmd g).1 = Ok PyNone ↔ no_match)
  ∧ (no_match → dispatch_command commands cmd g = (Ok PyNone, g))
  ∧ (∀ c m, selected commands (current_context g) ws = Some c →
            Pattern.match_ (cmd_pattern c) ws = Some m →
       dispatch_command commands cmd g
       = match h_call (cmd_func c) (call_args (cmd_kwargs c) m) g with
         | (Ok PyNone, g') => (Ok (PyStr "OK"), g')
         | (Ok (PyStr s), g') => (Ok (PyStr s), g')
         | (Ok (PyInt n), g') => (Ok (PyInt n), g')
         | (Raise e, g') =>
             if is_Exception e then (Ok (PyStr ("Error: " +:+ str_exn e)), g')
             else (Raise e, g')
         end).
Proof.
  intros ws no_match. unfold no_match. rewrite <- selected_none.
  rewrite dispatch_selected. fold ws.
  destruct (selected commands (current_context g) ws) as [c|] eqn:Hsel.
  - pose proof Hsel as Hsel'.
    apply find_some_matches in Hsel' as [_ Hm]. unfold matches in Hm.
    destruct (Pattern.match_ (cmd_pattern c) ws) as [m|] eqn:Hmatch; [|done].
    split; [|split; [done|]].
    + split; [|done]. intros Hnone. by apply handle_not_none in Hnone.
    + intros c' m' [= <-]. rewrite Hmatch. intros [= <-].
      unfold handle, invoke.
      by destruct (h_call (cmd_func c) (call_args (cmd_kwargs c) m) g)
        as [[[ |s|n]|e] g'].
  - split; [done|]. split; [done|]. by intros c m [=].
Qed.

(** Among the entries that satisfy [Q], one of greatest key that comes
    before the others of that key. *)
Lemma first_greatest (key : command W → nat) (Q : command W → bool) l :
  (∃ x, x ∈ l ∧ Q x = true) →
  ∃ pre c post,
    l = pre ++ c :: post ∧ Q c = true
    ∧ (∀ x, x ∈ pre → Q x = true → key x < key c)
    ∧ (∀ x, x ∈ post → Q x = true → key x ≤ key c).
Proof.
  induction l as [|y l IH]; intros (x & Hx & Hq); [by apply elem_of_nil in Hx|].
  assert ((∃ z, z ∈ l ∧ Q z = true) ∨ ¬ (∃ z, z ∈ l ∧ Q z = true)) as [Hex|Hno].
  { destruct (List.find Q l) as [z|] eqn:Hf.
    - apply find_some in Hf as [Hz ?]. left. exists z. by apply list_elem_of_In in Hz.
    - right. intros (z & Hz%list_elem_of_In & Hqz).
      by rewrite (List.find_none _ _ Hf z Hz) in Hqz. }
  - destruct (IH Hex) as (pre & c & post & -> & Hc & Hpre & Hpost).
    destruct (Q y) eqn:Hy.
    + destruct (decide (key y < key c)) as [Hlt|Hge].
      * exists (y :: pre), c, post. split; [done|]. split; [done|]. split; [|done].
        intros z [-> | Hz]%elem_of_cons; auto.
      * exists [], y, (pre ++ c :: post). split; [done|]. split; [done|].
        split; [by intros z ?%elem_of_nil|].
        intros z [Hz | [-> | Hz]%elem_of_cons]%elem_of_app Hqz.
        -- specialize (Hpre z Hz Hqz). lia.
        -- lia.
        -- specialize (Hpost z Hz Hqz). lia.
    + exists (y :: pre), c, post. split; [done|]. split; [done|]. split; [|done].
      intros z [-> | Hz]%elem_of_cons Hqz; [congruence|auto].
  - assert (x = y) as ->.
    { apply elem_of_cons in Hx as [Hx | Hx]; [done|]. exfalso. apply Hno. eauto. }
    exists [], y, l. split; [done|]. split; [done|].
    split; [by intros z ?%elem_of_nil|].
    intros z Hz Hqz. exfalso. apply Hno. eauto.
Qed.

(** X10: the entry that the dispatcher selects is exactly the one that,
    among the registered entries that are active and match, has the
    greatest specificity and, of those, was registered first. *)
Theorem selected_exactly commands current ws c :
  selected commands current ws = Some c
  ↔ ∃ pre post,
      commands = pre ++ c :: post
      ∧ active current c = true ∧ matches ws c = true
      ∧ (∀ x, x ∈ pre → active current x = true → matches ws x = true →
              specificity x < specificity c)
      ∧ (∀ x, x ∈ post → active current x = true → matches ws x = true →
              specificity x ≤ specificity c).
Proof.
  split.
  - intros Hsel.
    destruct (first_greatest specificity
                (fun x => active current x && matches ws x) commands)
      as (pre & c' & post & Hcmds & [Hact Hm]%andb_true_iff & Hpre & Hpost).
    { apply find_some_matches in Hsel as [Hc Hm]. exists c.
      unfold available_commands in Hc. rewrite sort_desc_perm in Hc.
      apply list_elem_of_In, filter_In in Hc as [Hc Hact].
      split; [by apply list_elem_of_In|]. unfold active. by rewrite Hact, Hm. }
    assert (selected commands current ws = Some c') as Hsel'.
    { apply (selected_priority _ _ _ pre c' post); [done..| |].
      - intros x Hx Hax Hmx. apply Hpre; [done|]. by rewrite Hax, Hmx.
      - intros x Hx Hax Hmx. apply Hpost; [done|]. by rewrite Hax, Hmx. }
    assert (c' = c) as -> by congruence.
    exists pre, post. split; [done|]. split; [done|]. split; [done|].
    split.
    + intros x Hx Hax Hmx. apply Hpre; [done|]. by rewrite Hax, Hmx.
    + intros x Hx Hax Hmx. apply Hpost; [done|]. by rewrite Hax, Hmx.
  - intros (pre & post & Hcmds & Hact & Hm & Hpre & Hpost).
    by apply (selected_priority _ _ _ pre c post).
Qed.

End Registry.

(** An instance: registering "take ITEM" for a handler with the single
    parameter [item]. *)
Lemma registered_call_arguments_witness :
  _register "take ITEM" take_handler None [] commands
  = (Ok tt, commands ++ [(take_pattern, take_handler, [])])
  ∧ ∃ p, commands ++ [(take_pattern, take_handler, [])]
         = commands ++ [(p, take_handler, [])]
       ∧ ∀ ws m, Pattern.match_ p ws = Some m →
           dom (call_args [] m) = list_to_set (h_params take_handler)
           ∧ ∀ name s, m !! name = Some s →
                       call_args [] m !! name = Some (PyStr s).
Proof.
  assert (_register "take ITEM" take_handler None [] commands
          = (Ok tt, commands ++ [(take_pattern, take_handler, [])])) as Hreg
    by (vm_compute; reflexivity).
  split; [exact Hreg|].
  exact (registered_call_arguments "take ITEM" take_handler None [] commands _ Hreg).
Defined.

(** ** Placeholders as text *)

Lemma upper_lower_char c :
  Py.is_upper_char c = true → upper_char (Py.lower_char c) = c.
Proof. destruct c as [[] [] [] [] [] [] [] []]; by vm_compute. Qed.

Lemma upper_lower w :
  Py.forall_chars Py.is_upper_char w = true → upper (Py.lower w) = w.
Proof.
  induction w as [|c w IH]; simpl; [done|].
  intros [Hc Hw]%andb_true_iff. by rewrite upper_lower_char, IH.
Qed.

Lemma token_str_word w :
  Py.isalpha w = true → token_str (token_of_word w) = w.
Proof.
  intros Halpha. unfold token_of_word.
  rewrite (isupper_all_upper w Halpha). unfold all_upper.
  destruct (Py.truthy w && Py.forall_chars Py.is_upper_char w) eqn:Hup; [|done].
  apply andb_true_iff in Hup as [_ Hup]. by apply upper_lower.
Qed.

(** X11: compiling a template of ASCII characters loses nothing of its
    words: the literal prefix of the compiled pattern followed by the text
    of each entry of its suffix, a placeholder printing as its name in
    capitals, gives back the words of the template, in order. *)
Theorem template_words_roundtrip tmpl ctx p :
  ascii_text tmpl →
  Pattern.__init__ tmpl ctx = Ok p →
  Pattern.prefix p ++ (token_str <$> Pattern.pattern p) = Py.split tmpl.
Proof.
  intros _ Hinit.
  destruct (init_compiled _ _ _ Hinit) as (_ & _ & _ & Htoks).
  destruct (init_inv _ _ _ Hinit) as (_ & match_ & argnames & n & Hcw & _).
  apply compile_words_ok in Hcw as (_ & _ & _ & _ & Hwords).
  apply (f_equal (fmap token_str)) in Htoks.
  rewrite fmap_app, <- !list_fmap_compose in Htoks.
  change (token_str ∘ Pattern.Lit) with (@id string) in Htoks.
  rewrite list_fmap_id in Htoks. rewrite Htoks.
  clear Htoks. induction Hwords as [|w words [Hw _] _ IH]; [done|].
  csimpl. by rewrite token_str_word, IH.
Qed.

(** An instance: the template "use ITEM on FIXTURE". *)
Lemma template_words_roundtrip_witness :
  ascii_text "use ITEM on FIXTURE"
  ∧ ∃ p, Pattern.__init__ "use ITEM on FIXTURE" None = Ok p
         ∧ Pattern.prefix p ++ (token_str <$> Pattern.pattern p)
           = ["use"; "ITEM"; "on"; "FIXTURE"].
Proof.
  assert (ascii_text "use ITEM on FIXTURE") as Hascii.
  { intros c Hc. apply (bool_decide_unpack _).
    revert c Hc. apply Forall_forall. vm_compute. repeat constructor. }
  split; [exact Hascii|]. eexists. split; [reflexivity|].
  exact (template_words_roundtrip "use ITEM on FIXTURE" None _ Hascii eq_refl).
Defined.

(** ** Bags *)

Lemma bag_find_some self name item :
  Bag.find self name = Some item →
  item ∈ self ∧ Py.lower name ∈ AdvItem.aliases item.
Proof.
  induction self as [|x self IH]; simpl; [done|].
  case_bool_decide as Hx.
  - intros [= <-]. split; [constructor|done].
  - intros [? ?]%IH. split; [by constructor|done].
Qed.

Lemma bag_find_none self name :
  Bag.find self name = None
  ↔ ∀ item, item ∈ self → Py.lower name ∉ AdvItem.aliases item.
Proof.
  induction self as [|x self IH]; simpl.
  - split; [|done]. by intros _ item ?%elem_of_nil.
  - case_bool_decide as Hx.
    + split; [done|]. intros H. exfalso. apply (H x); [constructor|done].
    + rewrite IH. split.
      * intros H item [-> | Hin]%elem_of_cons; auto.
      * intros H item Hin. apply H. by constructor.
Qed.

Lemma bag_remove_elem (self : Bag.t) obj x :
  x ∈ List.filter (fun y => negb (bool_decide (y = obj))) self ↔ x ∈ self ∧ x ≠ obj.
Proof.
  rewrite list_elem_of_In, filter_In, <- list_elem_of_In, negb_true_iff,
    bool_decide_eq_false. done.
Qed.

Lemma bag_remove_nodup (self : Bag.t) obj :
  NoDup self → NoDup (List.filter (fun y => negb (bool_decide (y = obj))) self).
Proof.
  induction 1 as [|x self Hx Hnd IH]; simpl; [constructor|].
  destruct (negb (bool_decide (x = obj))); [|done].
  constructor; [|done]. rewrite bag_remove_elem. tauto.
Qed.

Lemma bag_remove_length (self : Bag.t) obj :
  NoDup self → obj ∈ self →
  S (length (List.filter (fun y => negb (bool_decide (y = obj))) self)) = length self.
Proof.
  induction 1 as [|x self Hx Hnd IH]; [by intros ?%elem_of_nil|].
  intros Hin. simpl. case_bool_decide as Heq; simpl.
  - subst x. f_equal. clear IH Hin Hnd.
    induction self as [|y self IH]; [done|]. simpl.
    apply not_elem_of_cons in Hx as [Hne Hx].
    rewrite bool_decide_false by done. simpl. by rewrite IH.
  - apply elem_of_cons in Hin as [->|Hin]; [done|]. by rewrite IH.
Qed.

(** X12: [find] looks a name up without regard to the case of its
    letters: it returns an item of the bag that has the lowercased name
    among its aliases, and None only when the bag holds no such item.  So
    an item made by [AdvItem(name, *aliases)] that is in the bag makes
    [query in bag] true for its name and for each alias, however the
    query is capitalised; asking for an item object in place of a string
    raises TypeError. *)
Theorem bag_find_by_label (self : Bag.t) :
  (∀ query,
     match Bag.find self query with
     | Some item => item ∈ self ∧ Py.lower query ∈ AdvItem.aliases item
     | None => ∀ item, item ∈ self → Py.lower query ∉ AdvItem.aliases item
     end)
  ∧ (∀ id name aliases label query,
       AdvItem.__init__ id name aliases ∈ self →
       label ∈ name :: aliases →
       Py.lower query = Py.lower label →
       Bag.__contains__ self (inl query) = inr true)
  ∧ (∀ item, Bag.__contains__ self (inr item) = inl TypeError).
Proof.
  split; [|split; [|done]].
  - intros query. destruct (Bag.find self query) as [item|] eqn:Hf.
    + by apply bag_find_some.
    + by apply bag_find_none.
  - intros id name aliases label query Hin Hlabel Hq. simpl. f_equal.
    apply bool_decide_eq_true.
    destruct (Bag.find self query) as [item|] eqn:Hf; [done|]. exfalso.
    rewrite bag_find_none in Hf. apply (Hf _ Hin).
    unfold AdvItem.__init__. cbn [AdvItem.aliases]. rewrite Hq.
    by apply list_elem_of_fmap_2.
Qed.

(** X13: [take] never raises.  When it returns an item, that item was
    found under the name, it is no longer in the bag, every other item
    still is, and the bag has one item less; when it returns None, no item
    goes by the name and the bag is as it was. *)
Theorem bag_take_removes_found (self : Bag.t) (name : string) :
  NoDup self →
  ∃ r self', Bag.take self name = inr (r, self')
    ∧ r = Bag.find self name
    ∧ match r with
      | Some obj =>
          obj ∈ self ∧ Py.lower name ∈ AdvItem.aliases obj
          ∧ (∀ x, x ∈ self' ↔ x ∈ self ∧ x ≠ obj)
          ∧ NoDup self' ∧ S (length self') = length self
      | None =>
          self' = self ∧ ∀ item, item ∈ self → Py.lower name ∉ AdvItem.aliases item
      end.
Proof.
  intros Hnd. unfold Bag.take.
  destruct (Bag.find self name) as [obj|] eqn:Hf.
  - destruct (bag_find_some _ _ _ Hf) as [Hin Hal].
    unfold Bag.remove. rewrite bool_decide_true by done.
    eexists _, _. split; [done|]. split; [done|].
    split; [done|]. split; [done|]. split; [intros x; apply bag_remove_elem|].
    split; [by apply bag_remove_nodup|by apply bag_remove_length].
  - eexists _, _. split; [done|]. split; [done|]. split; [done|].
    by apply bag_find_none.
Qed.

(** An instance: taking "Brass KEY" out of a bag with the crowbar and the
    key. *)
Lemma bag_take_removes_found_witness :
  NoDup sample_bag
  ∧ ∃ r self', Bag.take sample_bag "Brass KEY" = inr (r, self')
      ∧ r = Bag.find sample_bag "Brass KEY"
      ∧ match r with
        | Some obj =>
            obj ∈ sample_bag ∧ Py.lower "Brass KEY" ∈ AdvItem.aliases obj
            ∧ (∀ x, x ∈ self' ↔ x ∈ sample_bag ∧ x ≠ obj)
            ∧ NoDup self' ∧ S (length self') = length sample_bag
        | None =>
            self' = sample_bag
            ∧ ∀ item, item ∈ sample_bag →
                      Py.lower "Brass KEY" ∉ AdvItem.aliases item
        end.
Proof.
  assert (NoDup sample_bag) as Hnd
    by (apply (bool_decide_unpack _); vm_compute; exact I).
  split; [exact Hnd|].
  exact (bag_take_removes_found sample_bag "Brass KEY" Hnd).
Defined.

(** X14: on a bag that is not empty, [take_random] removes exactly one
    item, the one it returns, whichever number is drawn; on the empty bag
    it returns None.  It never raises. *)
Theorem bag_take_random (which : nat) (self : Bag.t) :
  NoDup self → which < length self ∨ self = [] →
  ∃ r self', Bag.take_random which self = inr (r, self')
    ∧ r = Bag.get_random which self
    ∧ (r = None ↔ self = [])
    ∧ match r with
      | Some obj =>
          self !! which = Some obj
          ∧ (∀ x, x ∈ self' ↔ x ∈ self ∧ x ≠ obj)
          ∧ S (length self') = length self
      | None => self' = self
      end.
Proof.
  intros Hnd Hwhich. unfold Bag.take_random, Bag.get_random.
  case_bool_decide as Hnil.
  - eexists _, _. split; [done|]. by repeat split.
  - destruct Hwhich as [Hwhich|?]; [|done].
    destruct (self !! which) as [obj|] eqn:Hobj;
      [|apply lookup_ge_None in Hobj; lia].
    assert (obj ∈ self) as Hin by by eapply list_elem_of_lookup_2.
    unfold Bag.remove. rewrite bool_decide_true by done.
    eexists _, _. split; [done|]. split; [done|]. split; [done|].
    split; [done|]. split; [intros x; apply bag_remove_elem|].
    by apply bag_remove_length.
Qed.

(** An instance: drawing the number 1 on the bag with the crowbar and the
    key. *)
Lemma bag_take_random_witness :
  NoDup sample_bag ∧ (1 < length sample_bag ∨ sample_bag = [])
  ∧ ∃ r self', Bag.take_random 1 sample_bag = inr (r, self')
      ∧ r = Bag.get_random 1 sample_bag
      ∧ (r = None ↔ sample_bag = [])
      ∧ match r with
        | Some obj =>
            sample_bag !! 1 = Some obj
            ∧ (∀ x, x ∈ self' ↔ x ∈ sample_bag ∧ x ≠ obj)
            ∧ S (length self') = length sample_bag
        | None => self' = sample_bag
        end.
Proof.
  assert (NoDup sample_bag) as Hnd
    by (apply (bool_decide_unpack _); vm_compute; exact I).
  assert (1 < length sample_bag ∨ sample_bag = []) as Hw by (left; simpl; lia).
  split; [exact Hnd|]. split; [exact Hw|].
  exact (bag_take_random 1 sample_bag Hnd Hw).
Defined.

(** ** Rooms *)

Lemma check_direction_none d dir :
  AdvRoom.check_direction (Some d) dir = None
  ↔ Py.islower dir = true ∧ d !! dir = None.
Proof.
  unfold AdvRoom.check_direction. destruct (Py.islower dir); simpl.
  - case_bool_decide as Hin.
    + split; [done|]. intros [_ Hnone]. rewrite Hnone in Hin. by destruct Hin.
    + split; [|done]. intros _. split; [done|].
      destruct (d !! dir) eqn:Hd; [|done]. exfalso. apply Hin. eauto.
  - split; [done|]. by intros [? _].
Qed.

Section Directions.

Variable guard : string → option AdvRoom.raised.

(** X15: [add_direction] on names of ASCII characters.  It leaves the
    table as it was and raises when one of the two names is not lowercase
    or is a direction already.  Otherwise it writes the two entries, each
    name leading to the other, and then sets the two class attributes: if
    the type object refuses one of them, that error is raised with the
    entries written; if both are stored, nothing is raised.  The table
    with the two entries keeps every other entry and is symmetric if the
    table was; it is the table afterwards unless a direction is called
    "_directions", whose class attribute, once stored, puts None in the
    place of the table. *)
Theorem add_direction_symmetric (forward reverse : string)
    (d : gmap string string) :
  ascii_text forward → ascii_text reverse →
  let r := (AdvRoom.add_direction guard forward reverse (Some d)).1 in
  let dirs' := (AdvRoom.add_direction guard forward reverse (Some d)).2 in
  let checked := Py.islower forward = true ∧ Py.islower reverse = true
                 ∧ d !! forward = None ∧ d !! reverse = None in
  let d' := <[reverse := forward]> (<[forward := reverse]> d) in
  (¬ checked → r ≠ None ∧ dirs' = Some d)
  ∧ (checked →
     d' !! forward = Some reverse ∧ d' !! reverse = Some forward
     ∧ (∀ k, k ≠ forward → k ≠ reverse → d' !! k = d !! k)
     ∧ (symmetric d → symmetric d')
     ∧ match guard forward, guard reverse with
       | Some e, _ => r = Some e ∧ dirs' = Some d'
       | None, Some e =>
           r = Some e
           ∧ dirs' = (if bool_decide (forward = "_directions") then None
                      else Some d')
       | None, None =>
           r = None
           ∧ dirs' = (if bool_decide (forward = "_directions"
                                      ∨ reverse = "_directions")
                      then None else Some d')
       end).
Proof.
  intros _ _ r dirs' checked d'. unfold r, dirs', AdvRoom.add_direction.
  pose proof (check_direction_none d forward) as Hf.
  pose proof (check_direction_none d reverse) as Hr.
  destruct (AdvRoom.check_direction (Some d) forward) as [e|].
  { simpl. split; [done|]. intros (Hlf & _ & Hdf & _).
    by destruct Hf as [_ Hf]; specialize (Hf (conj Hlf Hdf)). }
  destruct (AdvRoom.check_direction (Some d) reverse) as [e|].
  { simpl. split; [done|]. intros (_ & Hlr & _ & Hdr).
    by destruct Hr as [_ Hr]; specialize (Hr (conj Hlr Hdr)). }
  destruct Hf as [Hf _], Hr as [Hr _].
  destruct (Hf eq_refl) as [Hlf Hdf], (Hr eq_refl) as [Hlr Hdr].
  cbv zeta. split; [intros Hnot; exfalso; by apply Hnot|]. intros _.
  fold d'.
  assert (d' !! forward = Some reverse) as Hfwd.
  { unfold d'. destruct (decide (reverse = forward)) as [->|Hne].
    - by rewrite lookup_insert_eq.
    - by rewrite lookup_insert_ne, lookup_insert_eq. }
  split; [done|]. split; [by unfold d'; rewrite lookup_insert_eq|]. split.
  { intros k Hkf Hkr. unfold d'. by rewrite !lookup_insert_ne. }
  split.
  { intros Hsym a b Hab. unfold d' in *.
    destruct (decide (a = reverse)) as [->|Har].
    { rewrite lookup_insert_eq in Hab. by injection Hab as <-. }
    rewrite lookup_insert_ne in Hab by done.
    destruct (decide (a = forward)) as [->|Haf].
    { rewrite lookup_insert_eq in Hab. injection Hab as <-.
      by rewrite lookup_insert_eq. }
    rewrite lookup_insert_ne in Hab by done.
    pose proof (Hsym a b Hab) as Hba.
    rewrite !lookup_insert_ne; [done|congruence..]. }
  destruct (guard forward) as [e|]; [done|].
  destruct (guard reverse) as [e|]; [done|].
  split; [done|]. cbn [snd].
  repeat case_bool_decide; try done; tauto.
Qed.

End Directions.

(** An instance: the game's first call, [add_direction('north', 'south')],
    on the empty table. *)
Lemma add_direction_symmetric_witness :
  let d : gmap string string := ∅ in
  let out := AdvRoom.add_direction sample_guard "north" "south" (Some d) in
  let checked := Py.islower "north" = true ∧ Py.islower "south" = true
                 ∧ d !! "north" = None ∧ d !! "south" = None in
  let d' := <["south" := "north"]> (<["north" := "south"]> d) in
  ascii_text "north" ∧ ascii_text "south" ∧ checked
  ∧ out.1 = None ∧ out.2 = Some d' ∧ symmetric d'.
Proof.
  intros d out checked d'.
  assert (ascii_text "north") as Hn.
  { intros c Hc. apply (bool_decide_unpack _).
    revert c Hc. apply Forall_forall. vm_compute. repeat constructor. }
  assert (ascii_text "south") as Hs.
  { intros c Hc. apply (bool_decide_unpack _).
    revert c Hc. apply Forall_forall. vm_compute. repeat constructor. }
  assert checked as Hchecked by (by vm_compute).
  split; [exact Hn|]. split; [exact Hs|]. split; [exact Hchecked|].
  destruct (add_direction_symmetric sample_guard "north" "south" d Hn Hs)
    as [_ H].
  destruct (H Hchecked) as (_ & _ & _ & Hsym & Hr & Hd).
  split; [exact Hr|]. split; [exact Hd|].
  apply Hsym. intros a b Hab. unfold d in Hab. by rewrite lookup_empty in Hab.
Defined.

Section RoomDescription.

Context {F R : Type}.
Variable call : F → Room.t F R → string.
Implicit Types self : Room.t F R.

(** X16: the first-time description of a room is given once at most.  In
    a dark room [get_description] gives the dark description and changes
    nothing, so the first-time description is still to come.  In a lit
    room it clears the flag of the first visit and nothing else, gives
    the first-time description only if the flag was set and that
    description is not empty, and every later call gives the regular
    description and changes nothing. *)
Theorem get_description_first_time self :
  let out := Room.get_description call self in
  if Room.truthy_bool (Room.is_dark self)
  then out = (Room.dark_description self, self)
  else
    out.2 = (if Room.first_time_in_room self then Room.visited self else self)
    ∧ Room.first_time_in_room out.2 = false
    ∧ (out.1 = Room.first_time_description self
       ∧ Room.first_time_in_room self = true
       ∧ Room.truthy_str (Room.first_time_description self) = true
       ∨ out.1 = Some (Room.regular_description call out.2))
    ∧ Room.get_description call out.2
      = (Some (Room.regular_description call out.2), out.2).
Proof.
  intros out. unfold out. clear out.
  destruct self as [desc first ftd dark dd fd rest].
  destruct dark as [[]|]; [done|..];
    destruct first, ftd as [[|c ftd]|], fd as [f|]; cbn;
    (split; [done|]); (split; [done|]); (split; [|done]); auto.
Qed.

End RoomDescription.

Section RoomAliasFacts.

Context {RoomObj : Type}.
Variable room_aliases : RoomObj → list string.

Lemma aliases_insert (room : RoomObj) (aliases : list string) :
  ∀ (acc : gmap string RoomObj) k,
    foldl (fun acc alias => <[Py.lower alias := room]> acc) acc aliases !! k
    = if bool_decide (k ∈ Py.lower <$> aliases) then Some room else acc !! k.
Proof.
  induction aliases as [|a aliases IH]; intros acc k.
  - rewrite bool_decide_false; [done|]. rewrite fmap_nil. apply not_elem_of_nil.
  - cbn [foldl]. rewrite IH, fmap_cons. case_bool_decide as Hin.
    + rewrite bool_decide_true; [done|]. by constructor.
    + destruct (decide (k = Py.lower a)) as [->|Hne].
      * rewrite lookup_insert_eq, bool_decide_true; [done|]. constructor.
      * rewrite lookup_insert_ne by done. rewrite bool_decide_false; [done|].
        by intros [?|?]%elem_of_cons.
Qed.

Lemma room_aliases_from (all_rooms : list RoomObj) :
  ∀ (acc : gmap string RoomObj) k,
    foldl (fun acc room =>
             foldl (fun acc alias => <[Py.lower alias := room]> acc)
                   acc (room_aliases room)) acc all_rooms !! k
    = match last (List.filter (goes_by room_aliases k) all_rooms) with
      | Some room => Some room
      | None => acc !! k
      end.
Proof.
  induction all_rooms as [|room rooms IH]; intros acc k; simpl; [done|].
  rewrite IH, aliases_insert. unfold goes_by at 2.
  case_bool_decide as Hin; simpl; [|done].
  rewrite last_cons. by destruct (last _).
Qed.

Lemma goes_by_lower name room :
  goes_by room_aliases (Py.lower name) room = known_as room_aliases name room.
Proof.
  unfold goes_by, known_as. apply eq_true_iff_eq.
  rewrite bool_decide_eq_true, existsb_exists, list_elem_of_fmap. split.
  - intros (alias & Heq & Hin). exists alias.
    split; [by apply list_elem_of_In|]. by apply bool_decide_eq_true.
  - intros (alias & Hin & Heq). exists alias.
    apply bool_decide_eq_true in Heq. split; [done|]. by apply list_elem_of_In.
Qed.

Lemma filter_agree {A} (f g : A → bool) (l : list A) :
  (∀ x, f x = g x) → List.filter f l = List.filter g l.
Proof.
  intros Hfg. induction l as [|x l IH]; simpl; [done|]. by rewrite Hfg, IH.
Qed.

(** X17: the table of [get_room_aliases] is keyed by the lowercase forms
    of the aliases.  Looking up the lowercase form of a name leads to the
    last room of [all_rooms] that has an alias equal to the name up to the
    case of letters, and to nothing when no room has one.  Every key is
    the lowercase form of an alias of the room it leads to, so that a name
    with a capital letter is not a key: the table finds a name in its
    lowercase form only. *)
Theorem room_alias_last_wins (all_rooms : list RoomObj) :
  let table := get_room_aliases room_aliases all_rooms in
  (∀ k, table !! k = last (List.filter (goes_by room_aliases k) all_rooms))
  ∧ (∀ name, table !! Py.lower name
             = last (List.filter (known_as room_aliases name) all_rooms))
  ∧ (∀ k room, table !! k = Some room →
       room ∈ all_rooms
       ∧ ∃ alias, alias ∈ room_aliases room ∧ k = Py.lower alias)
  ∧ (∀ k, ¬ no_upper k → table !! k = None).
Proof.
  intros table.
  assert (∀ k, table !! k = last (List.filter (goes_by room_aliases k) all_rooms))
    as Hlookup.
  { intros k. unfold table, get_room_aliases.
    rewrite room_aliases_from, lookup_empty. by destruct (last _). }
  assert (∀ k room, table !! k = Some room →
       room ∈ all_rooms
       ∧ ∃ alias, alias ∈ room_aliases room ∧ k = Py.lower alias) as Hkeys.
  { intros k room Hk. rewrite Hlookup in Hk.
    apply last_Some_elem_of in Hk.
    apply list_elem_of_In, filter_In in Hk as [Hin Hgoes].
    split; [by apply list_elem_of_In|].
    unfold goes_by in Hgoes. apply bool_decide_eq_true in Hgoes.
    apply list_elem_of_fmap in Hgoes as (alias & -> & Halias). eauto. }
  split; [exact Hlookup|]. split; [|split; [exact Hkeys|]].
  - intros name. rewrite Hlookup. f_equal. apply filter_agree.
    intros room. apply goes_by_lower.
  - intros k Hup. destruct (table !! k) as [room|] eqn:Hk; [|done].
    destruct (Hkeys k room Hk) as (_ & alias & _ & ->).
    exfalso. apply Hup. apply lower_no_upper.
Qed.

End RoomAliasFacts.

(** ** The console path *)

Section ConsoleFacts.

Context {W : Type}.
Variable print : string → game W → game W.
Implicit Types (c : command W) (commands : list (command W)) (g : game W).

Lemma handle_loop_find l ws cmd g :
  handle_loop print l ws cmd g
  = match List.find (matches ws) l with
    | Some c =>
        match Pattern.match_ (cmd_pattern c) ws with
        | Some m =>
            match h_call (cmd_func c) (call_args (cmd_kwargs c) m) g with
            | (Ok _, g') => (Ok tt, g')
            | (Raise e, g') => (Raise e, g')
            end
        | None => (Ok tt, no_command_matches print cmd g)
        end
    | None => (Ok tt, no_command_matches print cmd g)
    end.
Proof.
  induction l as [|c l IH]; simpl; [done|]. unfold matches at 1.
  destruct (Pattern.match_ (cmd_pattern c) ws) as [m|] eqn:Hm; [|done].
  by rewrite Hm.
Qed.

(** X18: the console path [_handle_command] and [dispatch_command] pick
    the same entry and call its handler with the same arguments in the
    same state.  When nothing matches, the console prints that it does
    not understand the command, as typed, and a blank line, where
    dispatch returns None.  When the handler returns, the console prints a
    blank line after it, where dispatch returns its result; when the
    handler raises, the console lets every exception through and prints
    nothing more. *)
Theorem console_and_dispatch commands cmd g :
  let ws := Py.split (Py.lower cmd) in
  match selected commands (current_context g) ws with
  | None =>
      dispatch_command commands cmd g = (Ok PyNone, g)
      ∧ _handle_command print commands cmd g
        = (Ok tt, print "" (print ("I don't understand '" +:+ cmd +:+ "'.") g))
  | Some c =>
      ∃ m, Pattern.match_ (cmd_pattern c) ws = Some m
        ∧ dispatch_command commands cmd g = handle c m g
        ∧ _handle_command print commands cmd g
          = match h_call (cmd_func c) (call_args (cmd_kwargs c) m) g with
            | (Ok _, g') => (Ok tt, print "" g')
            | (Raise e, g') => (Raise e, g')
            end
  end.
Proof.
  intros ws. rewrite dispatch_selected. fold ws.
  unfold _handle_command. fold ws. rewrite handle_loop_find.
  change (_available_commands commands (current_context g))
    with (available_commands commands (current_context g)).
  fold (selected commands (current_context g) ws).
  destruct (selected commands (current_context g) ws) as [c|] eqn:Hsel; [|done].
  apply find_some_matches in Hsel as [_ Hm]. unfold matches in Hm.
  destruct (Pattern.match_ (cmd_pattern c) ws) as [m|]; [|done].
  exists m. split; [done|]. split; [done|].
  by destruct (h_call (cmd_func c) (call_args (cmd_kwargs c) m) g) as [[r|e] g'].
Qed.

End ConsoleFacts.

Section CatchAll.

Context {W : Type}.
Implicit Types (c : command W) (commands : list (command W)) (g : game W).

(** X19: a command whose template is a single placeholder takes every
    input of one word or more while it is active, unless an active entry
    registered before it is at least as specific, or one registered after
    it is more specific: its handler gets the whole input, in lowercase
    and with single spaces, as the capture.  The entries that are less
    specific, the built-in quit among them, are out of reach. *)
Theorem catch_all_dispatch tmpl ctx name commands pre c post cmd g :
  let ws := Py.split (Py.lower cmd) in
  Pattern.__init__ tmpl ctx = Ok (cmd_pattern c) →
  Pattern.prefix (cmd_pattern c) = [] →
  Pattern.pattern (cmd_pattern c) = [Pattern.Placeholder name] →
  commands = pre ++ c :: post →
  active (current_context g) c = true →
  (∀ x, x ∈ pre → active (current_context g) x = true →
        specificity x < specificity c) →
  (∀ x, x ∈ post → active (current_context g) x = true →
        specificity x ≤ specificity c) →
  ws ≠ [] →
  dispatch_command commands cmd g = handle c {[ name := Py.join " " ws ]} g.
Proof.
  intros ws Hinit Hprefix Hpat Hcmds Hact Hpre Hpost Hws.
  assert (Pattern.match_ (cmd_pattern c) ws = Some {[ name := Py.join " " ws ]})
    as Hm.
  { rewrite match_unfold.
    destruct (init_compiled _ _ _ Hinit)
      as ([compiled_nodup0 compiled_names0 compiled_count0 compiled_fixed0 _] & _).
    rewrite Hpat in compiled_names0, compiled_fixed0.
    change (literal_count [Pattern.Placeholder name]) with 0 in compiled_fixed0.
    rewrite <- compiled_names0 in compiled_count0. simpl in compiled_count0.
    rewrite <- compiled_names0, Hpat, Hprefix, compiled_fixed0, compiled_count0.
    cbv zeta. change (length (token_names [Pattern.Placeholder name])) with 1.
    change (length (@nil string)) with 0. rewrite take_0, drop_0.
    assert (1 ≤ length ws) as Hone by (destruct ws; [done|simpl; lia]).
    destruct (Nat.ltb_spec (length ws) 1); [lia|].
    rewrite bool_decide_false by (by intros []).
    rewrite (bool_decide_false (ws = [])) by done.
    rewrite (bool_decide_false ([Pattern.Placeholder name] = [])) by done.
    cbn [negb Bool.eqb andb].
    rewrite Z.sub_0_r, word_combinations_unfold.
    destruct (Z.ltb_spec (Z.of_nat (length ws)) (Z.of_nat 1)); [lia|].
    destruct (Z.eqb_spec (Z.of_nat (length ws)) (Z.of_nat 1)) as [Heq|Hne].
    - apply first_match_single. lia.
    - change (Nat.eqb 1 1) with true. cbv iota. apply first_match_single. lia. }
  rewrite dispatch_selected. fold ws.
  rewrite (selected_priority commands (current_context g) ws pre c post);
    [by rewrite Hm|done|done|by unfold matches; rewrite Hm|..].
  - intros x Hx Hax _. by apply Hpre.
  - intros x Hx Hax _. by apply Hpost.
Qed.

End CatchAll.

(** An instance: with the keypad of the safe active, the input "quit" goes
    to the handler of "DIGITS" and not to the built-in quit. *)
Lemma catch_all_dispatch_witness :
  dispatch_command
    [(quit_pattern, sys_exit, []); (digits_pattern, digits_handler, [])]
    "quit" (Game (Some "using_safe") tt)
  = handle (digits_pattern, digits_handler, []) {[ "digits" := "quit" ]}
      (Game (Some "using_safe") tt).
Proof.
  apply (catch_all_dispatch "DIGITS" (Some "using_safe") "digits"
           [(quit_pattern, sys_exit, []); (digits_pattern, digits_handler, [])]
           [(quit_pattern, sys_exit, [])] (digits_pattern, digits_handler, []) []
           "quit" (Game (Some "using_safe") tt)).
  - reflexivity.
  - reflexivity.
  - reflexivity.
  - reflexivity.
  - reflexivity.
  - intros x Hx _. apply list_elem_of_singleton in Hx. subst x.
    vm_compute. lia.
  - intros x Hx. by apply elem_of_nil in Hx.
  - vm_compute. discriminate.
Defined.


(** ** The keypad of the safe *)

Lemma bag_add_elem (self : Bag.t) obj x : x ∈ Bag.add self obj ↔ x ∈ self ∨ x = obj.
Proof.
  unfold Bag.add. case_bool_decide as Hin.
  - split; [by left|]. by intros [?| ->].
  - rewrite elem_of_app, list_elem_of_singleton. done.
Qed.

Lemma isdigit_five s :
  isdigit s = true ∧ String.length s = 5 ↔ five_digits s.
Proof.
  unfold isdigit, five_digits. rewrite andb_true_iff, forall_chars_spec.
  split.
  - by intros [[_ ?] ?].
  - intros [Hlen ?]. split; [|done]. split; [|done]. by destruct s.
Qed.

(** X20: the keypad of the safe, for an entry of ASCII characters.  An
    entry that, stripped, is not five digits is answered without any
    change, so that the keypad stays active.  Five digits end the keypad
    context and return to exploring; if they are not the code, nothing
    else changes.  On the code, with the safe among the fixtures of the
    room, the open safe takes the place of the safe, the bunny joins the
    inventory, and every other fixture and item stays.  The bunny is never
    put into the inventory on any other entry. *)
Theorem using_safe_opens_on_code (digits : string) (g : game keypad_world) :
  ascii_text digits →
  let out := using_safe digits g in
  let fixtures := current_room_fixtures (world g) in
  (¬ five_digits (strip digits) → ∃ msg, out = (Ok (PyStr msg), g))
  ∧ (five_digits (strip digits) → strip digits ≠ SAFE_NUMBER →
     ∃ msg, out = (Ok (PyStr msg), Game (Some EXPLORING) (world g)))
  ∧ (strip digits = SAFE_NUMBER → safe ∈ fixtures →
     ∃ msg, out.1 = Ok (PyStr msg)
       ∧ current_context out.2 = Some EXPLORING
       ∧ (∀ x, x ∈ current_room_fixtures (world out.2)
               ↔ x ∈ fixtures ∧ x ≠ safe ∨ x = safe_open)
       ∧ (∀ x, x ∈ inventory (world out.2)
               ↔ x ∈ inventory (world g) ∨ x = bunny))
  ∧ (bunny ∈ inventory (world out.2) →
     bunny ∈ inventory (world g) ∨ strip digits = SAFE_NUMBER).
Proof.
  intros _.
  intros out fixtures. unfold out, using_safe. cbv zeta.
  pose proof (isdigit_five (strip digits)) as Hfive.
  destruct (isdigit (strip digits)) eqn:Hdig; cbn [negb].
  2:{ split; [eauto|]. split; [|split; [|by left]].
      - intros H. apply Hfive in H as [? _]. done.
      - intros Hcode. rewrite Hcode in Hdig. done. }
  destruct (Nat.eqb_spec (String.length (strip digits)) 5) as [Hlen|Hlen];
    cbn [negb].
  2:{ split; [eauto|]. split; [|split; [|by left]].
      - intros H. apply Hfive in H as [_ ?]. done.
      - intros Hcode. rewrite Hcode in Hlen. done. }
  assert (five_digits (strip digits)) as H5 by (by apply Hfive).
  assert (set_context (Some EXPLORING) g
          = (Ok tt, Game (Some EXPLORING) (world g))) as -> by done.
  cbn [world current_context].
  case_bool_decide as Hcode.
  - split; [done|]. split; [done|].
    unfold Bag.remove. fold fixtures.
    destruct (decide (safe ∈ fixtures)) as [Hin|Hnot].
    + rewrite bool_decide_true by done. cbn [fst snd world current_context
        current_room_fixtures inventory].
      split; [|by right]. intros _ _. eexists. split; [done|]. split; [done|].
      split.
      * intros x. rewrite bag_add_elem, bag_remove_elem. done.
      * intros x. apply bag_add_elem.
    + rewrite bool_decide_false by done. cbn [fst snd world]. split; [done|].
      by right.
  - split; [done|]. split; [eauto|]. split; [done|]. cbn [snd world]. by left.
Qed.

(** An instance: the code, typed with a space on either side, at the
    keypad of a room whose only fixture is the safe. *)
Lemma using_safe_opens_on_code_witness :
  let g := Game (Some "using_safe") (KeypadWorld [safe] []) in
  ascii_text " 93247 "
  ∧ strip " 93247 " = SAFE_NUMBER
  ∧ (using_safe " 93247 " g).2 = Game (Some EXPLORING) (KeypadWorld [safe_open] [bunny])
  ∧ ∀ x, x ∈ inventory (world (using_safe " 93247 " g).2)
         ↔ x ∈ inventory (world g) ∨ x = bunny.
Proof.
  intros g.
  assert (ascii_text " 93247 ") as Hascii.
  { intros c Hc. apply (bool_decide_unpack _).
    revert c Hc. apply Forall_forall. vm_compute. repeat constructor. }
  assert (strip " 93247 " = SAFE_NUMBER) as Hcode by reflexivity.
  split; [exact Hascii|]. split; [exact Hcode|]. split; [by vm_compute|].
  destruct (using_safe_opens_on_code " 93247 " g Hascii) as (_ & _ & H & _).
  destruct (H Hcode) as (msg & _ & _ & _ & Hinv); [by left|]. exact Hinv.
Defined.

(** ** The words of an input *)

Lemma lower_app s t : Py.lower (s +:+ t) = Py.lower s +:+ Py.lower t.
Proof. induction s as [|c s IH]; [done|]. rewrite app_cons. simpl. by rewrite IH. Qed.

Lemma is_space_lower_char c :
  Py.is_space_char (Py.lower_char c) = Py.is_space_char c.
Proof. destruct c as [[] [] [] [] [] [] [] []]; by vm_compute. Qed.

Lemma truthy_lower s : Py.truthy (Py.lower s) = Py.truthy s.
Proof. by destruct s. Qed.

Lemma split_from_lower s : ∀ cur,
  Py.split_from (Py.lower cur) (Py.lower s) = Py.lower <$> Py.split_from cur s.
Proof.
  induction s as [|c s IH]; intros cur; simpl.
  - rewrite truthy_lower. by destruct (Py.truthy cur).
  - rewrite is_space_lower_char, truthy_lower.
    destruct (Py.is_space_char c).
    + destruct (Py.truthy cur); csimpl; by rewrite <- (IH "").
    + by rewrite <- IH, lower_app.
Qed.

Lemma split_lower s : Py.split (Py.lower s) = Py.lower <$> Py.split s.
Proof. apply (split_from_lower s ""). Qed.

Lemma split_from_word w : ∀ cur rest,
  no_whitespace w →
  Py.split_from cur (w +:+ rest) = Py.split_from (cur +:+ w) rest.
Proof.
  unfold no_whitespace. induction w as [|c w IH]; intros cur rest Hw.
  - by rewrite app_empty_r.
  - simpl in Hw. apply orb_false_iff in Hw as [Hc Hw].
    rewrite app_cons. simpl. rewrite Hc, IH by done.
    by rewrite app_assoc_str.
Qed.

Lemma truthy_app_r s t : Py.truthy t = true → Py.truthy (s +:+ t) = true.
Proof. destruct s; [done|]. by rewrite app_cons. Qed.

Lemma split_join (ws : list string) :
  Forall (fun w => Py.truthy w = true ∧ no_whitespace w) ws →
  Py.split (Py.join " " ws) = ws.
Proof.
  unfold Py.split. induction 1 as [|w ws [Ht Hw] Hws IH]; [done|].
  destruct ws as [|w' ws].
  - simpl. rewrite <- (app_empty_r w) at 1. rewrite split_from_word by done.
    rewrite app_empty_l. cbn [Py.split_from]. by rewrite Ht.
  - change (Py.join " " (w :: w' :: ws)) with (w +:+ " " +:+ Py.join " " (w' :: ws)).
    rewrite split_from_word by done. rewrite app_empty_l.
    change (" " +:+ Py.join " " (w' :: ws))
      with (String " " (Py.join " " (w' :: ws))).
    cbn [Py.split_from]. change (Py.is_space_char " ") with true. cbv iota.
    by rewrite Ht, IH.
Qed.

Section InputWords.

Context {W : Type}.
Implicit Types (commands : list (command W)) (g : game W).

(** X21: only the words of an input count, and not the case of their
    letters: two inputs with the same words up to case are dispatched
    alike, whatever whitespace separates the words or surrounds them; and
    an input has the same words as its words joined by single spaces. *)
Theorem dispatch_words_only commands cmd1 cmd2 g :
  equal_ignoring_case (Py.split cmd1) (Py.split cmd2) →
  dispatch_command commands cmd1 g = dispatch_command commands cmd2 g
  ∧ Py.split (Py.join " " (Py.split cmd1)) = Py.split cmd1.
Proof.
  unfold equal_ignoring_case. intros Heq. split.
  - unfold dispatch_command. cbv zeta. by rewrite !split_lower, Heq.
  - apply split_join. apply Forall_forall. intros w Hw.
    by apply (split_words cmd1).
Qed.

End InputWords.

(** An instance: "  Take   KEY " and "take key". *)
Lemma dispatch_words_only_witness :
  equal_ignoring_case (Py.split "  Take   KEY ") (Py.split "take key")
  ∧ dispatch_command (W:=unit) commands "  Take   KEY " (Game None tt)
    = dispatch_command commands "take key" (Game None tt)
  ∧ Py.split (Py.join " " (Py.split "  Take   KEY ")) = Py.split "  Take   KEY ".
Proof.
  assert (equal_ignoring_case (Py.split "  Take   KEY ") (Py.split "take key"))
    as Heq by reflexivity.
  split; [exact Heq|].
  exact (dispatch_words_only commands "  Take   KEY " "take key" (Game None tt) Heq).
Defined.
